(** * fuzzylib: a Mamdani fuzzy inference engine

    A shallow embedding of the Go packages [operators], [rule], [membership],
    [set], [variable] and [inference], and the properties of the inference
    pipeline stated over it.

    Numbers.  Go's [float64] is modelled by the canonical rationals [Qc]:
    arithmetic is exact, there is no NaN, no infinity and no rounding, and
    equality of values is Leibniz equality.  Go's [int] is modelled by [Z].

    Maps.  A Go [map[string]T] is a [gmap string T].  A [range] over a map
    visits its entries in an order that Go leaves unspecified; the loops
    below take that order from a parameter [range], of which only the fact
    that it enumerates the entries of the map is assumed ([range_ok]). *)

From Stdlib Require Import QArith Qcanon Qcabs Lra Lqa.
From stdpp Require Import base numbers list strings gmap fin_maps pretty.

Local Open Scope Qc_scope.
Local Open Scope list_scope.

(** ** Numeric helpers *)

(** [float64(i)] for an [int] [i]. *)
Definition float64 (i : Z) : Qc := Qc_of_Z i.

(** Comparisons of the source, as booleans. *)
Definition ltb (x y : Qc) : bool := bool_decide (x < y).
Definition leb (x y : Qc) : bool := bool_decide (x ≤ y).
Definition eqb (x y : Qc) : bool := bool_decide (x = y).

Infix "<?" := ltb : Qc_scope.
Infix "<=?" := leb : Qc_scope.
Infix "=?" := eqb : Qc_scope.
Notation "x >? y" := (ltb y x) (only parsing) : Qc_scope.
Notation "x >=? y" := (leb y x) (only parsing) : Qc_scope.

(** ** Package operators *)

Module operators.

(** [InvalidMembershipError{Value}]: the offending raw value. *)
Record InvalidMembershipError := { Value : Qc }.

Global Instance InvalidMembershipError_eq_dec : EqDecision InvalidMembershipError.
Proof. solve_decision. Defined.

(** The clamping prologue shared by the three operators for [values[0]]. *)
Definition clamp_first (v : Qc) : Qc * option InvalidMembershipError :=
  if v <? 0 then (0, Some {| Value := v |})
  else if v >? 1 then (1, Some {| Value := v |})
  else (v, None).

(** The clamp of one element of [values[1:]]: the clamped value and the
    updated [invalidErr]. *)
Definition clamp_next (raw : Qc) (invalidErr : option InvalidMembershipError)
  : Qc * option InvalidMembershipError :=
  if raw <? 0 then
    (0, if invalidErr is None then Some {| Value := raw |} else invalidErr)
  else if raw >? 1 then
    (1, if invalidErr is None then Some {| Value := raw |} else invalidErr)
  else (raw, invalidErr).

(** The final clamp of the accumulator. *)
Definition clamp_final (m : Qc) : Qc :=
  let m := if m <? 0 then 0 else m in
  if m >? 1 then 1 else m.

(** The loop of [MinOperator.Apply] over [values[1:]]. *)
Fixpoint min_loop (rest : list Qc) (min : Qc)
    (invalidErr : option InvalidMembershipError)
  : Qc * option InvalidMembershipError :=
  match rest with
  | [] => (min, invalidErr)
  | raw :: rest =>
      let '(v, invalidErr) := clamp_next raw invalidErr in
      min_loop rest (if v <? min then v else min) invalidErr
  end.

Definition MinOperator_Apply (values : list Qc)
  : Qc * option InvalidMembershipError :=
  match values with
  | [] => (0, None)
  | v0 :: rest =>
      let '(min, invalidErr) := clamp_first v0 in
      let '(min, invalidErr) := min_loop rest min invalidErr in
      (clamp_final min, invalidErr)
  end.

(** The loop of [MaxOperator.Apply] over [values[1:]]. *)
Fixpoint max_loop (rest : list Qc) (max : Qc)
    (invalidErr : option InvalidMembershipError)
  : Qc * option InvalidMembershipError :=
  match rest with
  | [] => (max, invalidErr)
  | raw :: rest =>
      let '(v, invalidErr) := clamp_next raw invalidErr in
      max_loop rest (if v >? max then v else max) invalidErr
  end.

Definition MaxOperator_Apply (values : list Qc)
  : Qc * option InvalidMembershipError :=
  match values with
  | [] => (0, None)
  | v0 :: rest =>
      let '(max, invalidErr) := clamp_first v0 in
      let '(max, invalidErr) := max_loop rest max invalidErr in
      (clamp_final max, invalidErr)
  end.

Definition NotOperator_Apply (values : list Qc)
  : Qc * option InvalidMembershipError :=
  match values with
  | [] => (1, None)
  | v0 :: _ =>
      let '(v, invalidErr) := clamp_first v0 in
      (1 - v, invalidErr)
  end.

(** The implementations of the [Operator] interface. *)
Inductive Operator := AND | OR | NOT.

Definition Apply (op : Operator) (values : list Qc)
  : Qc * option InvalidMembershipError :=
  match op with
  | AND => MinOperator_Apply values
  | OR => MaxOperator_Apply values
  | NOT => NotOperator_Apply values
  end.

End operators.

(** ** Go's [fmt] verbs on the numeric model *)

Module fmt.

(** Rounding of a non-negative rational to the nearest integer, ties to
    even, as [strconv] rounds the exact value of a float. *)
Definition round_half_even (x : Q) : Z :=
  let n := Qnum x in
  let d := Z.pos (Qden x) in
  let fl := (n / d)%Z in
  let r := (n mod d)%Z in
  if (2 * r <? d)%Z then fl
  else if (d <? 2 * r)%Z then (fl + 1)%Z
  else if Z.even fl then fl else (fl + 1)%Z.

(** Left padding of a decimal numeral with zeros up to [width] digits. *)
Fixpoint zeros (n : nat) : string :=
  match n with
  | O => ""
  | S n => "0" +:+ zeros n
  end.

Definition pad_left (width : nat) (s : string) : string :=
  zeros (width - String.length s) +:+ s.

(** [%.<prec>f]. *)
Definition f (prec : nat) (x : Qc) : string :=
  let scale := (10 ^ Z.of_nat prec)%Z in
  let scaled := round_half_even (this (Qcabs x) * inject_Z scale)%Q in
  let ip := (scaled / scale)%Z in
  let fp := (scaled mod scale)%Z in
  (if x <? 0 then "-" else "") +:+ pretty ip +:+
  (match prec with
   | O => ""
   | _ => "." +:+ pad_left prec (pretty fp)
   end).

End fmt.

(** ** Errors

    Every [fmt.Errorf] site of the modelled functions is a constructor;
    [%w] wrapping is a constructor argument; [Error] renders the text. *)

Inductive error :=
  | InvalidMembership (e : operators.InvalidMembershipError)
  | NoConditions
  | ApplyingOperator (outVar outSet : string) (e : error)
  | NoInputVariables
  | NoOutputVariables
  | NoRules
  | MissingInput (varName : string)
  | OutOfBounds (value : Qc) (varName : string) (minValue maxValue : Qc)
  | EvaluatingRule (e : error)
  | NoRulesFired
  | DefuzzificationFailed (varName : string) (e : error)
  | InvalidMethod (method : string).

Global Instance error_eq_dec : EqDecision error.
Proof. solve_decision. Defined.

Fixpoint Error (e : error) : string :=
  match e with
  | InvalidMembership e =>
      "membership degree " +:+ fmt.f 4 (operators.Value e) +:+
      " is outside [0, 1]"
  | NoConditions => "cannot evaluate rule with no conditions"
  | ApplyingOperator outVar outSet e =>
      "error applying operator for rule output '" +:+ outVar +:+ "." +:+
      outSet +:+ "': " +:+ Error e
  | NoInputVariables => "inference system has no input variables"
  | NoOutputVariables => "inference system has no output variables"
  | NoRules => "inference system has no rules"
  | MissingInput varName => "missing required input variable: " +:+ varName
  | OutOfBounds value varName minValue maxValue =>
      "input value " +:+ fmt.f 2 value +:+ " for variable '" +:+ varName +:+
      "' is out of bounds [" +:+ fmt.f 2 minValue +:+ ", " +:+
      fmt.f 2 maxValue +:+ "]"
  | EvaluatingRule e => "error evaluating rule: " +:+ Error e
  | NoRulesFired => "no rules fired: all membership degrees are zero"
  | DefuzzificationFailed varName e =>
      "defuzzification failed for variable '" +:+ varName +:+ "': " +:+
      Error e
  | InvalidMethod method =>
      "invalid defuzzification method '" +:+ method +:+
      "': must be one of: centroid, mom, fom, lom, som"
  end.

(** A Go [(T, error)] return where the value is meaningless on error. *)
Inductive result (A : Type) :=
  | Ok (a : A)
  | Err (e : error).
Arguments Ok {A} a.
Arguments Err {A} e.

Global Instance result_eq_dec `{EqDecision A} : EqDecision (result A).
Proof. solve_decision. Defined.

Definition is_Err {A} (r : result A) : Prop :=
  match r with Err _ => True | Ok _ => False end.

(** ** Errors of construction and registration

    The [fmt.Errorf] sites of the constructors, of the registration
    functions and of the rule converter; [config_text] renders the text. *)

Inductive config_error :=
  | TriangularParams (a b c : Qc)
  | TrapezoidalParams (a b c d : Qc)
  | FuzzySetNameEmpty
  | MembershipFunctionNil
  | VariableNameEmpty
  | MinNotBelowMax (minValue maxValue : Qc)
  | SetNameEmpty
  | SetExists (setName varName : string)
  | OutputVariableEmpty
  | OutputSetEmpty
  | OutputNegated
  | ConditionVariableEmpty
  | ConditionSetEmpty
  | WeightOutOfRange (weight : Qc)
  | ResolutionNotPositive (res : Z)
  | InputVariableExists (name : string)
  | OutputVariableExists (name : string)
  | RuleWithoutCondition
  | UnknownOutputVariable (varName : string)
  | UnknownOutputSet (setName varName : string)
  | UnknownInputVariable (position : Z) (varName : string)
  | UnknownInputSet (position : Z) (setName varName : string)
  | RuleWeightOutOfRange (weight : Qc)
  | InvalidRuleWeight (e : config_error)
  | NoConsequent
  | InvalidOutputIndex
  | FailedToCreateRule (e : config_error)
  | AntecedentExceedsInputs (i : Z) (numInputs : Z)
  | InvalidMFIndex (mfIndex : Z) (inputName : string)
  | InvalidRuleWeightValue (weight : Qc) (e : config_error)
  | GaussianWidth (width : Qc).

Global Instance config_error_eq_dec : EqDecision config_error.
Proof. solve_decision. Defined.

Fixpoint config_text (e : config_error) : string :=
  match e with
  | TriangularParams a b c =>
      "triangular parameters must satisfy a <= b <= c, got a=" +:+
      fmt.f 2 a +:+ ", b=" +:+ fmt.f 2 b +:+ ", c=" +:+ fmt.f 2 c
  | TrapezoidalParams a b c d =>
      "trapezoidal parameters must satisfy a <= b <= c <= d, got a=" +:+
      fmt.f 2 a +:+ ", b=" +:+ fmt.f 2 b +:+ ", c=" +:+ fmt.f 2 c +:+
      ", d=" +:+ fmt.f 2 d
  | FuzzySetNameEmpty => "fuzzy set name cannot be empty"
  | MembershipFunctionNil => "membership function cannot be nil"
  | VariableNameEmpty => "variable name cannot be empty"
  | MinNotBelowMax minValue maxValue =>
      "minValue (" +:+ fmt.f 2 minValue +:+
      ") must be less than maxValue (" +:+ fmt.f 2 maxValue +:+ ")"
  | SetNameEmpty => "set name cannot be empty"
  | SetExists setName varName =>
      "set '" +:+ setName +:+ "' already exists in variable '" +:+
      varName +:+ "'"
  | OutputVariableEmpty => "output variable name cannot be empty"
  | OutputSetEmpty => "output set name cannot be empty"
  | OutputNegated =>
      "output condition cannot be negated: negation is only valid for input conditions"
  | ConditionVariableEmpty => "condition variable name cannot be empty"
  | ConditionSetEmpty => "condition set name cannot be empty"
  | WeightOutOfRange weight =>
      "weight must be in range [0, 1], got " +:+ fmt.f 2 weight
  | ResolutionNotPositive res =>
      "resolution must be > 0, got " +:+ pretty res
  | InputVariableExists name =>
      "input variable '" +:+ name +:+ "' already exists"
  | OutputVariableExists name =>
      "output variable '" +:+ name +:+ "' already exists"
  | RuleWithoutCondition => "rule must have at least one condition"
  | UnknownOutputVariable varName =>
      "rule references non-existent output variable '" +:+ varName +:+ "'"
  | UnknownOutputSet setName varName =>
      "rule references non-existent output set '" +:+ setName +:+
      "' in variable '" +:+ varName +:+ "'"
  | UnknownInputVariable position varName =>
      "rule condition " +:+ pretty position +:+
      " references non-existent input variable '" +:+ varName +:+ "'"
  | UnknownInputSet position setName varName =>
      "rule condition " +:+ pretty position +:+
      " references non-existent input set '" +:+ setName +:+
      "' in variable '" +:+ varName +:+ "'"
  | RuleWeightOutOfRange weight =>
      "rule weight must be in range [0, 1], got " +:+ fmt.f 2 weight
  | InvalidRuleWeight e => "invalid rule weight: " +:+ config_text e
  | NoConsequent => "rule must have at least one consequent"
  | InvalidOutputIndex => "invalid output index in rule"
  | FailedToCreateRule e => "failed to create rule: " +:+ config_text e
  | AntecedentExceedsInputs i numInputs =>
      "antecedent index " +:+ pretty i +:+ " exceeds number of inputs " +:+
      pretty numInputs
  | InvalidMFIndex mfIndex inputName =>
      "invalid MF index " +:+ pretty mfIndex +:+ " for input " +:+ inputName
  | InvalidRuleWeightValue weight e =>
      "invalid rule weight " +:+ fmt.f 2 weight +:+ ": " +:+ config_text e
  | GaussianWidth width =>
      "gaussian width must be > 0, got " +:+ fmt.f 2 width
  end.

(** A Go [(T, error)] return of a constructor: the value, or the error. *)
Inductive built (A : Type) :=
  | Built (a : A)
  | Refused (e : config_error).
Arguments Built {A} a.
Arguments Refused {A} e.

Global Instance built_eq_dec `{EqDecision A} : EqDecision (built A).
Proof. solve_decision. Defined.

(** ** Package membership *)

Module membership.

(** The implementations of the [MembershipFunction] interface.  [Gaussian]
    evaluates [math.Exp] and has no rational model; it, and any
    implementation supplied by a caller, is an [Other] with its [Evaluate]
    method. *)
Inductive MembershipFunction :=
  | Triangular (A B C : Qc)
  | Trapezoidal (A B C D : Qc)
  | Other (Evaluate : Qc → Qc).

Definition Triangular_Evaluate (A B C x : Qc) : Qc :=
  if (A =? B) && (B =? C) then
    if x =? A then 1 else 0
  else if (x <=? A) || (x >=? C) then 0
  else if x =? B then 1
  else if x <? B then
    if B =? A then 1 else (x - A) / (B - A)
  else
    if C =? B then 1 else (C - x) / (C - B).

Definition Trapezoidal_Evaluate (A B C D x : Qc) : Qc :=
  if (A =? B) && (B =? C) && (C =? D) then
    if x =? A then 1 else 0
  else if (x <=? A) || (x >=? D) then 0
  else if (x >=? B) && (x <=? C) then 1
  else if x <? B then
    if B =? A then 1 else (x - A) / (B - A)
  else
    if D =? C then 1 else (D - x) / (D - C).

Definition Evaluate (mf : MembershipFunction) (x : Qc) : Qc :=
  match mf with
  | Triangular A B C => Triangular_Evaluate A B C x
  | Trapezoidal A B C D => Trapezoidal_Evaluate A B C D x
  | Other ev => ev x
  end.

Definition NewTriangular (a b c : Qc) : built MembershipFunction :=
  if (a >? b) || (b >? c) then Refused (TriangularParams a b c)
  else Built (Triangular a b c).

Definition NewTrapezoidal (a b c d : Qc) : built MembershipFunction :=
  if (a >? b) || (b >? c) || (c >? d) then Refused (TrapezoidalParams a b c d)
  else Built (Trapezoidal a b c d).

(** [Gaussian.Evaluate], for a given [math.Exp]. *)
Definition Gaussian_Evaluate (Exp : Qc → Qc) (Center Width x : Qc) : Qc :=
  let exponent :=
    (- ((x - Center) * (x - Center))) / (float64 2 * Width * Width) in
  Exp exponent.

Definition NewGaussian (Exp : Qc → Qc) (center width : Qc)
  : built MembershipFunction :=
  if width <=? 0 then Refused (GaussianWidth width)
  else Built (Other (Gaussian_Evaluate Exp center width)).

End membership.

(** ** Package set *)

Module set.

Record FuzzySet := {
  Name : string;
  MembershipFunc : membership.MembershipFunction;
}.

Definition Evaluate (fs : FuzzySet) (x : Qc) : Qc :=
  membership.Evaluate (MembershipFunc fs) x.

(** [mf] is [None] for a nil interface value. *)
Definition NewFuzzySet (name : string)
    (mf : option membership.MembershipFunction) : built FuzzySet :=
  if bool_decide (name = "") then Refused FuzzySetNameEmpty
  else
    match mf with
    | None => Refused MembershipFunctionNil
    | Some mf => Built {| Name := name; MembershipFunc := mf |}
    end.

End set.

(** ** Iteration over Go maps *)

(** The order in which [range] visits a map. *)
Definition ranger : Type := ∀ A : Type, gmap string A → list (string * A).

(** All that Go guarantees: every entry is visited once. *)
Definition range_ok (range : ranger) : Prop :=
  ∀ (A : Type) (m : gmap string A), range A m ≡ₚ map_to_list m.

(** ** Package variable *)

Module variable.

Record FuzzyVariable := {
  Name : string;
  MinValue : Qc;
  MaxValue : Qc;
  Sets : gmap string set.FuzzySet;
}.

Section with_range.
Context (range : ranger).

Definition Fuzzify (fv : FuzzyVariable) (value : Qc) : gmap string Qc :=
  foldl (λ result '(name, fuzzySet),
           <[name := set.Evaluate fuzzySet value]> result)
        ∅ (range _ (Sets fv)).
End with_range.

Record SetRef := {
  Variable_ : string;
  Set_ : string;
}.

Definition NewFuzzyVariable (name : string) (minValue maxValue : Qc)
  : built FuzzyVariable :=
  if bool_decide (name = "") then Refused VariableNameEmpty
  else if minValue >=? maxValue then
    Refused (MinNotBelowMax minValue maxValue)
  else
    Built {| Name := name; MinValue := minValue; MaxValue := maxValue;
             Sets := ∅ |}.

(** [AddSet] takes the two results of [set.NewFuzzySet]; it returns the
    variable after the call and the two results of the call. *)
Definition AddSet (fv : FuzzyVariable) (arg : built set.FuzzySet)
  : FuzzyVariable * built SetRef :=
  match arg with
  | Refused err => (fv, Refused err)
  | Built fuzzySet =>
      if bool_decide (set.Name fuzzySet = "") then (fv, Refused SetNameEmpty)
      else
        match Sets fv !! set.Name fuzzySet with
        | Some _ => (fv, Refused (SetExists (set.Name fuzzySet) (Name fv)))
        | None =>
            ({| Name := Name fv; MinValue := MinValue fv;
                MaxValue := MaxValue fv;
                Sets := <[set.Name fuzzySet := fuzzySet]> (Sets fv) |},
             Built {| Variable_ := Name fv; Set_ := set.Name fuzzySet |})
        end
  end.


End variable.

(** ** Package rule *)

Module rule.

Record RuleCondition := {
  Variable_ : string;
  Set_ : string;
  Negated : bool;
}.

Record Rule := {
  Conditions : list RuleCondition;
  Output : RuleCondition;
  Weight : Qc;
  Operator : operators.Operator;
}.

(** The value [values[i]] that a condition contributes: the slice is
    allocated zeroed and is written only when both keys are found. *)
Definition condition_value (membershipMap : gmap string (gmap string Qc))
    (cond : RuleCondition) : Qc :=
  match membershipMap !! Variable_ cond with
  | Some varMap =>
      match varMap !! Set_ cond with
      | Some degree => if Negated cond then 1 - degree else degree
      | None => 0
      end
  | None => 0
  end.

Definition Evaluate (r : Rule) (membershipMap : gmap string (gmap string Qc))
  : result Qc :=
  if bool_decide (length (Conditions r) = 0%nat) then Err NoConditions
  else
    let values := condition_value membershipMap <$> Conditions r in
    let '(result, err) := operators.Apply (Operator r) values in
    match err with
    | Some e =>
        Err (ApplyingOperator (Variable_ (Output r)) (Set_ (Output r))
               (InvalidMembership e))
    | None => Ok (result * Weight r)
    end.

(** [operator] is [None] for a nil interface value. *)
Definition NewRule (output : RuleCondition)
    (operator : option operators.Operator) : built Rule :=
  if bool_decide (Variable_ output = "") then Refused OutputVariableEmpty
  else if bool_decide (Set_ output = "") then Refused OutputSetEmpty
  else if Negated output then Refused OutputNegated
  else
    Built {| Conditions := [];
             Output := output;
             Weight := 1;
             Operator := default operators.AND operator |}.

(** The rule after the call, and the error returned. *)
Definition AddConditionEx (r : Rule) (variable set : string) (negated : bool)
  : Rule * option config_error :=
  if bool_decide (variable = "") then (r, Some ConditionVariableEmpty)
  else if bool_decide (set = "") then (r, Some ConditionSetEmpty)
  else
    ({| Conditions :=
          Conditions r ++ [{| Variable_ := variable; Set_ := set;
                              Negated := negated |}];
        Output := Output r; Weight := Weight r; Operator := Operator r |},
     None).

Definition AddCondition (r : Rule) (variable set : string)
  : Rule * option config_error :=
  AddConditionEx r variable set false.

Definition SetWeight (r : Rule) (weight : Qc) : Rule * option config_error :=
  if (weight <? 0) || (weight >? 1) then (r, Some (WeightOutOfRange weight))
  else
    ({| Conditions := Conditions r; Output := Output r; Weight := weight;
        Operator := Operator r |}, None).

End rule.

(** ** Package inference *)

Module inference.

(** [epsilon], the tolerance for floating point comparisons: 1e-9. *)
Definition epsilon : Qc := Q2Qc (1 # 1000000000).

Definition DefuzzCOG : string := "centroid".
Definition DefuzzMOM : string := "mom".
Definition DefuzzFOM : string := "fom".
Definition DefuzzLOM : string := "lom".
Definition DefuzzSOM : string := "som".

Record MamdaniInferenceSystem := {
  InputVariables : gmap string variable.FuzzyVariable;
  OutputVariables : gmap string variable.FuzzyVariable;
  Rules : list rule.Rule;
  Resolution : Z;
  DefuzzMethod : string;
}.

(** [SetDefuzzificationMethod]: the engine after the call, and the error
    returned. *)
Definition SetDefuzzificationMethod (fis : MamdaniInferenceSystem)
    (method : string) : MamdaniInferenceSystem * option error :=
  if bool_decide (method = DefuzzCOG ∨ method = DefuzzMOM
                  ∨ method = DefuzzFOM ∨ method = DefuzzLOM
                  ∨ method = DefuzzSOM)
  then ({| InputVariables := InputVariables fis;
           OutputVariables := OutputVariables fis;
           Rules := Rules fis;
           Resolution := Resolution fis;
           DefuzzMethod := method |}, None)
  else (fis, Some (InvalidMethod method)).

(** The bodies of the three sampling loops, for the point [X i] of
    iteration [i] and the aggregated membership [M x] at a point. *)
Definition cog_step (X : Z → Qc) (M : Qc → Qc) : Qc * Qc → Z → Qc * Qc :=
  λ '(numerator, denominator) i,
    let x := X i in
    let maxMembership := M x in
    (numerator + x * maxMembership, denominator + maxMembership).

Definition mom_step (X : Z → Qc) (M : Qc → Qc)
  : Qc * list Qc → Z → Qc * list Qc :=
  λ '(maxMembership, points) i,
    let x := X i in
    let currentMax := M x in
    if bool_decide (i = 0%Z) || (currentMax >? maxMembership)
    then (currentMax, [x])
    else if Qcabs (currentMax - maxMembership) <? epsilon
    then (maxMembership, points ++ [x])
    else (maxMembership, points).

Definition fom_step (X : Z → Qc) (M : Qc → Qc) : Qc * Qc → Z → Qc * Qc :=
  λ '(maxMembership, result) i,
    let x := X i in
    let currentMax := M x in
    if currentMax >? maxMembership then (currentMax, x)
    else (maxMembership, result).

Section with_range.
Context (range : ranger).
(** The value, at the time of the call, of the package variable
    [DefaultResolution] (initially 1000). *)
Context (DefaultResolution : Z).

(** The inner loop of the three defuzzifiers: the aggregated membership
    at the point [x]. *)
Definition aggregated (outputVar : variable.FuzzyVariable)
    (memberships : gmap string Qc) (x : Qc) : Qc :=
  foldl (λ maxMembership '(setName, strength),
           match variable.Sets outputVar !! setName with
           | Some outputSet =>
               let degree := set.Evaluate outputSet x * strength in
               if degree >? maxMembership then degree else maxMembership
           | None => maxMembership
           end)
        0 (range _ memberships).

(** [resolution <= 0] is replaced by the default. *)
Definition effective_resolution (resolution : Z) : Z :=
  if bool_decide (resolution ≤ 0)%Z then DefaultResolution else resolution.

Definition step (outputVar : variable.FuzzyVariable) (resolution : Z) : Qc :=
  (variable.MaxValue outputVar - variable.MinValue outputVar)
  / float64 resolution.

(** The point [x] of iteration [i]. *)
Definition sample (outputVar : variable.FuzzyVariable) (resolution : Z)
    (i : Z) : Qc :=
  variable.MinValue outputVar + float64 i * step outputVar resolution.

(** The values of [i] of [for i := 0; i <= resolution; i++], for a
    resolution below the largest [int]. *)
Definition indices (resolution : Z) : list Z := seqZ 0 (resolution + 1).

Definition defuzzifyCOGWithResolution (outputVar : variable.FuzzyVariable)
    (memberships : gmap string Qc) (resolution : Z) : result Qc :=
  if bool_decide (size memberships = 0%nat) then Err NoRulesFired
  else
    let resolution := effective_resolution resolution in
    let '(numerator, denominator) :=
      foldl (cog_step (sample outputVar resolution)
               (aggregated outputVar memberships))
            (0, 0) (indices resolution) in
    if denominator =? 0 then Err NoRulesFired
    else Ok (numerator / denominator).

Definition defuzzifyMOMWithResolution (outputVar : variable.FuzzyVariable)
    (memberships : gmap string Qc) (resolution : Z) : result Qc :=
  if bool_decide (size memberships = 0%nat) then Err NoRulesFired
  else
    let resolution := effective_resolution resolution in
    let '(maxMembership, points) :=
      foldl (mom_step (sample outputVar resolution)
               (aggregated outputVar memberships))
            (0, []) (indices resolution) in
    if bool_decide (length points = 0%nat) || (maxMembership =? 0)
    then Err NoRulesFired
    else Ok (foldl Qcplus 0 points / float64 (Z.of_nat (length points))).

Definition defuzzifyFOMWithResolution (outputVar : variable.FuzzyVariable)
    (memberships : gmap string Qc) (resolution : Z) : result Qc :=
  if bool_decide (size memberships = 0%nat) then Err NoRulesFired
  else
    let resolution := effective_resolution resolution in
    let '(maxMembership, result) :=
      foldl (fom_step (sample outputVar resolution)
               (aggregated outputVar memberships))
            (0, variable.MinValue outputVar) (indices resolution) in
    if maxMembership =? 0 then Err NoRulesFired
    else Ok result.

(** The [switch fis.DefuzzMethod] of [Infer]. *)
Definition defuzzify (method : string) (outputVar : variable.FuzzyVariable)
    (memberships : gmap string Qc) (resolution : Z) : result Qc :=
  if bool_decide (method = DefuzzCOG) then
    defuzzifyCOGWithResolution outputVar memberships resolution
  else if bool_decide (method = DefuzzMOM) then
    defuzzifyMOMWithResolution outputVar memberships resolution
  else if bool_decide (method = DefuzzFOM ∨ method = DefuzzLOM
                       ∨ method = DefuzzSOM) then
    defuzzifyFOMWithResolution outputVar memberships resolution
  else
    defuzzifyMOMWithResolution outputVar memberships resolution.

(** The validation loop over [fis.InputVariables]: the first error met. *)
Fixpoint validate_loop (vars : list (string * variable.FuzzyVariable))
    (inputs : gmap string Qc) : option error :=
  match vars with
  | [] => None
  | (varName, inputVar) :: vars =>
      match inputs !! varName with
      | None => Some (MissingInput varName)
      | Some value =>
          if (value <? variable.MinValue inputVar)
             || (value >? variable.MaxValue inputVar)
          then Some (OutOfBounds value varName
                       (variable.MinValue inputVar)
                       (variable.MaxValue inputVar))
          else validate_loop vars inputs
      end
  end.

(** Step 1: fuzzification of the provided inputs that are configured. *)
Definition fuzzify (fis : MamdaniInferenceSystem) (inputs : gmap string Qc)
  : gmap string (gmap string Qc) :=
  foldl (λ membershipMap '(varName, crispValue),
           match InputVariables fis !! varName with
           | Some inputVar =>
               <[varName := variable.Fuzzify range inputVar crispValue]>
                 membershipMap
           | None => membershipMap
           end)
        ∅ (range _ inputs).

(** Step 2, initialisation: an empty map per output variable. *)
Definition init_outputs (fis : MamdaniInferenceSystem)
  : gmap string (gmap string Qc) :=
  foldl (λ outputMemberships '(outputName, _),
           <[outputName := ∅]> outputMemberships)
        ∅ (range _ (OutputVariables fis)).

(** Step 2, the contribution of one fired rule (max aggregation). *)
Definition contribute (r : rule.Rule) (firingStrength : Qc)
    (outputMemberships : gmap string (gmap string Qc))
  : gmap string (gmap string Qc) :=
  let outVar := rule.Variable_ (rule.Output r) in
  let outSet := rule.Set_ (rule.Output r) in
  match outputMemberships !! outVar with
  | Some sets =>
      match sets !! outSet with
      | Some current =>
          if firingStrength >? current
          then <[outVar := <[outSet := firingStrength]> sets]>
                 outputMemberships
          else outputMemberships
      | None =>
          <[outVar := <[outSet := firingStrength]> sets]> outputMemberships
      end
  | None => outputMemberships
  end.

(** Step 2, the loop over [fis.Rules]. *)
Fixpoint fire_rules (rules : list rule.Rule)
    (membershipMap : gmap string (gmap string Qc))
    (outputMemberships : gmap string (gmap string Qc))
  : result (gmap string (gmap string Qc)) :=
  match rules with
  | [] => Ok outputMemberships
  | r :: rules =>
      match rule.Evaluate r membershipMap with
      | Err e => Err (EvaluatingRule e)
      | Ok firingStrength =>
          fire_rules rules membershipMap
            (contribute r firingStrength outputMemberships)
      end
  end.

(** Step 3, the loop over [fis.OutputVariables]. *)
Fixpoint defuzzify_loop (fis : MamdaniInferenceSystem)
    (vars : list (string * variable.FuzzyVariable))
    (outputMemberships : gmap string (gmap string Qc))
    (results : gmap string Qc) : result (gmap string Qc) :=
  match vars with
  | [] => Ok results
  | (varName, outputVar) :: vars =>
      match defuzzify (DefuzzMethod fis) outputVar
              (default ∅ (outputMemberships !! varName))
              (Resolution fis) with
      | Err e => Err (DefuzzificationFailed varName e)
      | Ok result =>
          defuzzify_loop fis vars outputMemberships
            (<[varName := result]> results)
      end
  end.

Definition Infer (fis : MamdaniInferenceSystem) (inputs : gmap string Qc)
  : result (gmap string Qc) :=
  if bool_decide (size (InputVariables fis) = 0%nat) then
    Err NoInputVariables
  else if bool_decide (size (OutputVariables fis) = 0%nat) then
    Err NoOutputVariables
  else if bool_decide (length (Rules fis) = 0%nat) then Err NoRules
  else
    match validate_loop (range _ (InputVariables fis)) inputs with
    | Some e => Err e
    | None =>
        let membershipMap := fuzzify fis inputs in
        match fire_rules (Rules fis) membershipMap (init_outputs fis) with
        | Err e => Err e
        | Ok outputMemberships =>
            defuzzify_loop fis (range _ (OutputVariables fis))
              outputMemberships ∅
        end
    end.
End with_range.

(** *** Construction and registration *)

(** [NewMamdaniInferenceSystem], for the current value of the package
    variable [DefaultResolution]. *)
Definition NewMamdaniInferenceSystem (DefaultResolution : Z)
  : MamdaniInferenceSystem :=
  {| InputVariables := ∅; OutputVariables := ∅; Rules := [];
     Resolution := DefaultResolution; DefuzzMethod := DefuzzMOM |}.

(** The engine after the call, and the error returned. *)
Definition SetResolution (fis : MamdaniInferenceSystem) (res : Z)
  : MamdaniInferenceSystem * option config_error :=
  if bool_decide (res ≤ 0)%Z then (fis, Some (ResolutionNotPositive res))
  else
    ({| InputVariables := InputVariables fis;
        OutputVariables := OutputVariables fis;
        Rules := Rules fis;
        Resolution := res;
        DefuzzMethod := DefuzzMethod fis |}, None).

Definition AddInputVariable (fis : MamdaniInferenceSystem)
    (v : variable.FuzzyVariable)
  : MamdaniInferenceSystem * option config_error :=
  match InputVariables fis !! variable.Name v with
  | Some _ => (fis, Some (InputVariableExists (variable.Name v)))
  | None =>
      ({| InputVariables := <[variable.Name v := v]> (InputVariables fis);
          OutputVariables := OutputVariables fis;
          Rules := Rules fis;
          Resolution := Resolution fis;
          DefuzzMethod := DefuzzMethod fis |}, None)
  end.

Definition AddOutputVariable (fis : MamdaniInferenceSystem)
    (v : variable.FuzzyVariable)
  : MamdaniInferenceSystem * option config_error :=
  match OutputVariables fis !! variable.Name v with
  | Some _ => (fis, Some (OutputVariableExists (variable.Name v)))
  | None =>
      ({| InputVariables := InputVariables fis;
          OutputVariables := <[variable.Name v := v]> (OutputVariables fis);
          Rules := Rules fis;
          Resolution := Resolution fis;
          DefuzzMethod := DefuzzMethod fis |}, None)
  end.

(** The validation loop of [AddRule] over the conditions, [i] being the
    index of the first one of [conds]: the first error met. *)
Fixpoint check_conditions (fis : MamdaniInferenceSystem) (i : Z)
    (conds : list rule.RuleCondition) : option config_error :=
  match conds with
  | [] => None
  | cond :: conds =>
      match InputVariables fis !! rule.Variable_ cond with
      | None => Some (UnknownInputVariable (i + 1) (rule.Variable_ cond))
      | Some inputVar =>
          match variable.Sets inputVar !! rule.Set_ cond with
          | None =>
              Some (UnknownInputSet (i + 1) (rule.Set_ cond)
                      (rule.Variable_ cond))
          | Some _ => check_conditions fis (i + 1) conds
          end
      end
  end.

Definition AddRule (fis : MamdaniInferenceSystem) (r : rule.Rule)
  : MamdaniInferenceSystem * option config_error :=
  if bool_decide (length (rule.Conditions r) = 0%nat) then
    (fis, Some RuleWithoutCondition)
  else
    match OutputVariables fis !! rule.Variable_ (rule.Output r) with
    | None =>
        (fis, Some (UnknownOutputVariable (rule.Variable_ (rule.Output r))))
    | Some outputVar =>
        match variable.Sets outputVar !! rule.Set_ (rule.Output r) with
        | None =>
            (fis, Some (UnknownOutputSet (rule.Set_ (rule.Output r))
                          (rule.Variable_ (rule.Output r))))
        | Some _ =>
            match check_conditions fis 0 (rule.Conditions r) with
            | Some e => (fis, Some e)
            | None =>
                ({| InputVariables := InputVariables fis;
                    OutputVariables := OutputVariables fis;
                    Rules := Rules fis ++ [r];
                    Resolution := Resolution fis;
                    DefuzzMethod := DefuzzMethod fis |}, None)
            end
        end
    end.

(** *** The rule builder *)

Record RuleBuilder := {
  output : rule.RuleCondition;
  op : operators.Operator;
  conds : list rule.RuleCondition;
  weight : Qc;
}.

(** [weight] is the variadic argument. *)
Definition NewRuleBuilder (outputVar outputSet : string) (weight : list Qc)
  : built RuleBuilder :=
  let rb w :=
    {| output := {| rule.Variable_ := outputVar; rule.Set_ := outputSet;
                    rule.Negated := false |};
       op := operators.AND; conds := []; weight := w |} in
  match weight with
  | [] => Built (rb 1)
  | w :: _ =>
      if (w <? 0) || (w >? 1) then Refused (RuleWeightOutOfRange w)
      else Built (rb w)
  end.

Definition NewRuleBuilderRef (outputRef : variable.SetRef) (weight : list Qc)
  : built RuleBuilder :=
  let rb w :=
    {| output := {| rule.Variable_ := variable.Variable_ outputRef;
                    rule.Set_ := variable.Set_ outputRef;
                    rule.Negated := false |};
       op := operators.AND; conds := []; weight := w |} in
  match weight with
  | [] => Built (rb 1)
  | w :: _ =>
      if (w <? 0) || (w >? 1) then Refused (RuleWeightOutOfRange w)
      else Built (rb w)
  end.

Definition If (rb : RuleBuilder) (variable set : string) : RuleBuilder :=
  {| output := output rb; op := op rb;
     conds := conds rb ++ [{| rule.Variable_ := variable; rule.Set_ := set;
                              rule.Negated := false |}];
     weight := weight rb |}.

Definition IfRef (rb : RuleBuilder) (setRef : variable.SetRef) : RuleBuilder :=
  {| output := output rb; op := op rb;
     conds := conds rb ++ [{| rule.Variable_ := variable.Variable_ setRef;
                              rule.Set_ := variable.Set_ setRef;
                              rule.Negated := false |}];
     weight := weight rb |}.

Definition And (rb : RuleBuilder) : RuleBuilder :=
  {| output := output rb; op := operators.AND; conds := conds rb;
     weight := weight rb |}.

Definition Or (rb : RuleBuilder) : RuleBuilder :=
  {| output := output rb; op := operators.OR; conds := conds rb;
     weight := weight rb |}.

(** The builder after the call, and the error returned. *)
Definition Weight (rb : RuleBuilder) (w : Qc)
  : RuleBuilder * option config_error :=
  if (w <? 0) || (w >? 1) then (rb, Some (RuleWeightOutOfRange w))
  else
    ({| output := output rb; op := op rb; conds := conds rb; weight := w |},
     None).

Definition With (rb : RuleBuilder) (w : Qc)
  : RuleBuilder * option config_error :=
  if (w <? 0) || (w >? 1) then (rb, Some (RuleWeightOutOfRange w))
  else
    ({| output := output rb; op := op rb; conds := conds rb; weight := w |},
     None).

Definition Build (rb : RuleBuilder) : built rule.Rule :=
  match rule.NewRule (output rb) (Some (op rb)) with
  | Refused err => Refused err
  | Built r =>
      let r :=
        foldl (λ r cond,
                 {| rule.Conditions := rule.Conditions r ++ [cond];
                    rule.Output := rule.Output r;
                    rule.Weight := rule.Weight r;
                    rule.Operator := rule.Operator r |})
              r (conds rb) in
      match rule.SetWeight r (weight rb) with
      | (_, Some err) => Refused (InvalidRuleWeight err)
      | (r, None) => Built r
      end
  end.

End inference.

(** ** Package fis: the converter of rules in index form *)

Module fis.

Record MembershipFunctionSpec := {
  MF_Name : string;
  MF_Type : string;
  Params : list Qc;
}.

Record VariableSection := {
  Name : string;
  Range : Qc * Qc;
  NumMFs : Z;
  MFs : list MembershipFunctionSpec;
}.

Record RuleSpec := {
  Antecedents : list Z;
  Consequents : list Z;
  Weight : Qc;
  Connection : Z;
}.

(** Arithmetic of Go's 64-bit [int]. *)
Definition wrap (z : Z) : Z :=
  ((z + 2 ^ 63) mod 2 ^ 64 - 2 ^ 63)%Z.

(** What a call does: it returns, or the indexing of a slice out of its
    range stops the program. *)
Inductive outcome (A : Type) :=
  | Returns (a : A)
  | Panics.
Arguments Returns {A} a.
Arguments Panics {A}.

(** [s[i]] for an [int] [i]. *)
Definition index {A} (s : list A) (i : Z) : option A :=
  if bool_decide (0 ≤ i)%Z then s !! Z.to_nat i else None.

Definition mapDefuzzMethod (fisMethod : string) : string :=
  if bool_decide (fisMethod = "centroid" ∨ fisMethod = "bisector") then
    inference.DefuzzCOG
  else if bool_decide (fisMethod = "mom") then inference.DefuzzMOM
  else if bool_decide (fisMethod = "som" ∨ fisMethod = "lom") then
    inference.DefuzzFOM
  else inference.DefuzzMOM.

(** The first loop of [convertRule]: the position and the index, less
    one, of the first non-zero consequent; [(0, 0)] when there is none. *)
Fixpoint first_consequent (i : Z) (consequents : list Z) : Z * Z :=
  match consequents with
  | [] => (0, 0)%Z
  | idx :: consequents =>
      if bool_decide (idx ≠ 0)%Z then (i, wrap (idx - 1))
      else first_consequent (i + 1) consequents
  end.

(** The loop of [convertRule] over the antecedents, [i] being the
    position of the first one of [antecedents]. *)
Fixpoint add_conditions (inputs : list VariableSection) (i : Z)
    (antecedents : list Z) (r : rule.Rule) : outcome (built rule.Rule) :=
  match antecedents with
  | [] => Returns (Built r)
  | idx :: antecedents =>
      if bool_decide (idx = 0)%Z then
        add_conditions inputs (i + 1) antecedents r
      else if bool_decide (Z.of_nat (length inputs) ≤ i)%Z then
        Returns (Refused (AntecedentExceedsInputs i
                            (Z.of_nat (length inputs))))
      else
        match index inputs i with
        | None => Panics
        | Some input =>
            let isNegated := bool_decide (idx < 0)%Z in
            let setIdx :=
              if isNegated then wrap (wrap (- idx) - 1) else wrap (idx - 1) in
            if bool_decide (Z.of_nat (length (MFs input)) ≤ setIdx)%Z then
              Returns (Refused (InvalidMFIndex (wrap (setIdx + 1))
                                  (Name input)))
            else
              match index (MFs input) setIdx with
              | None => Panics
              | Some mf =>
                  add_conditions inputs (i + 1) antecedents
                    {| rule.Conditions :=
                         rule.Conditions r
                         ++ [{| rule.Variable_ := Name input;
                                rule.Set_ := MF_Name mf;
                                rule.Negated := isNegated |}];
                       rule.Output := rule.Output r;
                       rule.Weight := rule.Weight r;
                       rule.Operator := rule.Operator r |}
              end
        end
  end.

Definition convertRule (spec : RuleSpec) (inputs outputs : list VariableSection)
  : outcome (built rule.Rule) :=
  if bool_decide (length (Consequents spec) = 0%nat) then
    Returns (Refused NoConsequent)
  else
    let '(outputVarIdx, outputSetIdx) :=
      first_consequent 0 (Consequents spec) in
    match index outputs outputVarIdx with
    | None => Returns (Refused InvalidOutputIndex)
    | Some outputSection =>
        if bool_decide (Z.of_nat (length (MFs outputSection)) ≤ outputSetIdx)%Z
        then Returns (Refused InvalidOutputIndex)
        else
          match index (MFs outputSection) outputSetIdx with
          | None => Panics
          | Some outputMF =>
              let op :=
                if bool_decide (Connection spec = 2)%Z then operators.OR
                else operators.AND in
              match rule.NewRule
                      {| rule.Variable_ := Name outputSection;
                         rule.Set_ := MF_Name outputMF;
                         rule.Negated := false |} (Some op) with
              | Refused err => Returns (Refused (FailedToCreateRule err))
              | Built r =>
                  match add_conditions inputs 0 (Antecedents spec) r with
                  | Panics => Panics
                  | Returns (Refused err) => Returns (Refused err)
                  | Returns (Built r) =>
                      match rule.SetWeight r (Weight spec) with
                      | (_, Some err) =>
                          Returns (Refused (InvalidRuleWeightValue
                                              (Weight spec) err))
                      | (r, None) => Returns (Built r)
                      end
                  end
              end
          end
    end.

(** *** The converter of a model *)

Record SystemSection := {
  Sys_Name : string;
  Sys_Type : string;
  Version : string;
  NumInputs : Z;
  NumOutputs : Z;
  NumRules : Z;
  AndMethod : string;
  OrMethod : string;
  ImpMethod : string;
  AggMethod : string;
  DefuzzMethod : string;
}.

Record FISModel := {
  System : SystemSection;
  Inputs : list VariableSection;
  Outputs : list VariableSection;
  Rules : list RuleSpec;
}.

(** The errors of the converter, with what their messages print. *)
Inductive mf_error :=
  | TrimfParams (n : Z) (params : list Qc)
  | InvalidTrimf (e : config_error)
  | TrapmfParams (n : Z) (params : list Qc)
  | InvalidTrapmf (e : config_error)
  | GaussmfParams (n : Z) (params : list Qc)
  | InvalidGaussmf (e : config_error)
  | UnsupportedMF (type : string).

Inductive variable_error :=
  | InvalidVariable (e : config_error)
  | InMembershipFunction (position : Z) (name : string) (e : mf_error)
  | AddingMembershipFunction (position : Z) (name : string)
      (e : config_error).

Inductive conversion_error :=
  | OnlyMamdani (type : string)
  | SettingMethod (e : error)
  | ConvertingInput (position : Z) (name : string) (e : variable_error)
  | AddingInput (position : Z) (name : string) (e : config_error)
  | ConvertingOutput (position : Z) (name : string) (e : variable_error)
  | AddingOutput (position : Z) (name : string) (e : config_error)
  | ConvertingRule (position : Z) (e : config_error)
  | AddingRule (position : Z) (e : config_error).

(** A [(T, error)] return of the converter. *)
Inductive converted (E A : Type) :=
  | Converted (a : A)
  | Failed (e : E).
Arguments Converted {E A} a.
Arguments Failed {E A} e.

Section converter.
(** [math.Exp], and the value of [inference.DefaultResolution] at the
    time of the call. *)
Context (Exp : Qc → Qc) (DefaultResolution : Z).

Definition convertMembershipFunction (spec : MembershipFunctionSpec)
  : converted mf_error membership.MembershipFunction :=
  if bool_decide (MF_Type spec = "trimf") then
    match Params spec with
    | [a; b; c] =>
        match membership.NewTriangular a b c with
        | Refused err => Failed (InvalidTrimf err)
        | Built mf => Converted mf
        end
    | params => Failed (TrimfParams (Z.of_nat (length params)) params)
    end
  else if bool_decide (MF_Type spec = "trapmf") then
    match Params spec with
    | [a; b; c; d] =>
        match membership.NewTrapezoidal a b c d with
        | Refused err => Failed (InvalidTrapmf err)
        | Built mf => Converted mf
        end
    | params => Failed (TrapmfParams (Z.of_nat (length params)) params)
    end
  else if bool_decide (MF_Type spec = "gaussmf") then
    match Params spec with
    | [sigma; center] =>
        match membership.NewGaussian Exp center sigma with
        | Refused err => Failed (InvalidGaussmf err)
        | Built mf => Converted mf
        end
    | params => Failed (GaussmfParams (Z.of_nat (length params)) params)
    end
  else Failed (UnsupportedMF (MF_Type spec)).

(** The loop of [convertVariable], [i] being the position of the first
    one of [mfs]. *)
Fixpoint add_sets (i : Z) (mfs : list MembershipFunctionSpec)
    (v : variable.FuzzyVariable)
  : converted variable_error variable.FuzzyVariable :=
  match mfs with
  | [] => Converted v
  | mfSpec :: mfs =>
      match convertMembershipFunction mfSpec with
      | Failed err =>
          Failed (InMembershipFunction (i + 1) (MF_Name mfSpec) err)
      | Converted mf =>
          match variable.AddSet v
                  (set.NewFuzzySet (MF_Name mfSpec) (Some mf)) with
          | (_, Refused err) =>
              Failed (AddingMembershipFunction (i + 1) (MF_Name mfSpec) err)
          | (v, Built _) => add_sets (i + 1) mfs v
          end
      end
  end.

Definition convertVariable (spec : VariableSection)
  : converted variable_error variable.FuzzyVariable :=
  match variable.NewFuzzyVariable (Name spec) (Range spec).1
          (Range spec).2 with
  | Refused err => Failed (InvalidVariable err)
  | Built v => add_sets 0 (MFs spec) v
  end.

(** The three loops of [ConvertToInferenceSystem]. *)
Fixpoint add_inputs (i : Z) (specs : list VariableSection)
    (engine : inference.MamdaniInferenceSystem)
  : converted conversion_error inference.MamdaniInferenceSystem :=
  match specs with
  | [] => Converted engine
  | inputSpec :: specs =>
      match convertVariable inputSpec with
      | Failed err => Failed (ConvertingInput (i + 1) (Name inputSpec) err)
      | Converted inputVar =>
          match inference.AddInputVariable engine inputVar with
          | (_, Some err) =>
              Failed (AddingInput (i + 1) (Name inputSpec) err)
          | (engine, None) => add_inputs (i + 1) specs engine
          end
      end
  end.

Fixpoint add_outputs (i : Z) (specs : list VariableSection)
    (engine : inference.MamdaniInferenceSystem)
  : converted conversion_error inference.MamdaniInferenceSystem :=
  match specs with
  | [] => Converted engine
  | outputSpec :: specs =>
      match convertVariable outputSpec with
      | Failed err =>
          Failed (ConvertingOutput (i + 1) (Name outputSpec) err)
      | Converted outputVar =>
          match inference.AddOutputVariable engine outputVar with
          | (_, Some err) =>
              Failed (AddingOutput (i + 1) (Name outputSpec) err)
          | (engine, None) => add_outputs (i + 1) specs engine
          end
      end
  end.

Fixpoint add_rules (i : Z) (specs : list RuleSpec)
    (inputs outputs : list VariableSection)
    (engine : inference.MamdaniInferenceSystem)
  : outcome (converted conversion_error inference.MamdaniInferenceSystem) :=
  match specs with
  | [] => Returns (Converted engine)
  | ruleSpec :: specs =>
      match convertRule ruleSpec inputs outputs with
      | Panics => Panics
      | Returns (Refused err) =>
          Returns (Failed (ConvertingRule (i + 1) err))
      | Returns (Built r) =>
          match inference.AddRule engine r with
          | (_, Some err) => Returns (Failed (AddingRule (i + 1) err))
          | (engine, None) => add_rules (i + 1) specs inputs outputs engine
          end
      end
  end.

Definition ConvertToInferenceSystem (model : FISModel)
  : outcome (converted conversion_error inference.MamdaniInferenceSystem) :=
  if bool_decide (Sys_Type (System model) ≠ "mamdani"
                  ∧ Sys_Type (System model) ≠ "") then
    Returns (Failed (OnlyMamdani (Sys_Type (System model))))
  else
    let engine := inference.NewMamdaniInferenceSystem DefaultResolution in
    let defuzzMethod := mapDefuzzMethod (DefuzzMethod (System model)) in
    match inference.SetDefuzzificationMethod engine defuzzMethod with
    | (_, Some err) => Returns (Failed (SettingMethod err))
    | (engine, None) =>
        match add_inputs 0 (Inputs model) engine with
        | Failed err => Returns (Failed err)
        | Converted engine =>
            match add_outputs 0 (Outputs model) engine with
            | Failed err => Returns (Failed err)
            | Converted engine =>
                add_rules 0 (Rules model) (Inputs model) (Outputs model)
                  engine
            end
        end
    end.

End converter.

End fis.

(** ** A worked configuration: the fan controller of the test suite *)

Module example.

Definition qc (n : Z) (d : positive) : Qc := Q2Qc (n # d).

Definition tri (name : string) (a b c : Z) : string * set.FuzzySet :=
  (name, {| set.Name := name;
            set.MembershipFunc :=
              membership.Triangular (float64 a) (float64 b) (float64 c) |}).

Definition Temperature : variable.FuzzyVariable :=
  {| variable.Name := "Temperature";
     variable.MinValue := float64 0; variable.MaxValue := float64 50;
     variable.Sets := list_to_map [tri "Cold" 0 0 25; tri "Hot" 25 50 50] |}.

Definition FanSpeed : variable.FuzzyVariable :=
  {| variable.Name := "FanSpeed";
     variable.MinValue := float64 0; variable.MaxValue := float64 100;
     variable.Sets := list_to_map [tri "Low" 0 0 50; tri "High" 50 100 100] |}.

Definition when (v s : string) (outSet : string) : rule.Rule :=
  {| rule.Conditions :=
       [{| rule.Variable_ := v; rule.Set_ := s; rule.Negated := false |}];
     rule.Output :=
       {| rule.Variable_ := "FanSpeed"; rule.Set_ := outSet;
          rule.Negated := false |};
     rule.Weight := 1;
     rule.Operator := operators.AND |}.

Definition fan (method : string) (resolution : Z)
  : inference.MamdaniInferenceSystem :=
  {| inference.InputVariables := {[ "Temperature" := Temperature ]};
     inference.OutputVariables := {[ "FanSpeed" := FanSpeed ]};
     inference.Rules :=
       [when "Temperature" "Cold" "Low"; when "Temperature" "Hot" "High"];
     inference.Resolution := resolution;
     inference.DefuzzMethod := method |}.

(** A fuzzification of [Temperature] and rules over it. *)
Definition degrees : gmap string (gmap string Qc) :=
  {[ "Temperature" := {[ "Cold" := qc 4 5; "Hot" := qc 3 5 ]} ]}.

Definition overshoot : gmap string (gmap string Qc) :=
  {[ "Temperature" := {[ "Cold" := qc 0 1; "Hot" := qc 3 2 ]} ]}.

Definition cold_and_not_hot : rule.Rule :=
  {| rule.Conditions :=
       [{| rule.Variable_ := "Temperature"; rule.Set_ := "Cold";
           rule.Negated := false |};
        {| rule.Variable_ := "Temperature"; rule.Set_ := "Hot";
           rule.Negated := true |};
        {| rule.Variable_ := "Humidity"; rule.Set_ := "Dry";
           rule.Negated := true |}];
     rule.Output :=
       {| rule.Variable_ := "FanSpeed"; rule.Set_ := "Low";
          rule.Negated := false |};
     rule.Weight := qc 1 2;
     rule.Operator := operators.OR |}.

(** Aggregation maps for [FanSpeed]. *)
Definition fired : gmap string Qc := {[ "Low" := qc 0 1; "High" := qc 1 1 ]}.
Definition mixed : gmap string Qc := {[ "Low" := qc 1 2; "High" := qc 1 1 ]}.

(** An output variable whose only set rises very slowly to its peak at
    the upper end of the domain. *)
Definition Ramp : variable.FuzzyVariable :=
  {| variable.Name := "Ramp";
     variable.MinValue := float64 0; variable.MaxValue := float64 1;
     variable.Sets := list_to_map [tri "Up" (-10000000000) 1 2] |}.

Definition up : gmap string Qc := {[ "Up" := qc 1 1 ]}.

(** Inputs for the fan controller, and entries under names it does not
    configure. *)
Definition freezing : gmap string Qc := {[ "Temperature" := float64 0 ]}.
Definition hot : gmap string Qc := {[ "Temperature" := float64 45 ]}.
Definition too_cold : gmap string Qc := {[ "Temperature" := float64 (-10) ]}.
Definition stray : gmap string Qc :=
  {[ "Humidity" := qc (-1000) 1; "Pressure" := qc 1000000 1 ]}.

(** The order of [map_to_list] is one admissible iteration order. *)
Definition range0 : ranger := λ A, map_to_list.

(** The fan controller as a model in index form, its rule concluding on
    the given consequents. *)
Definition trimf (name : string) (a b c : Z) : fis.MembershipFunctionSpec :=
  {| fis.MF_Name := name; fis.MF_Type := "trimf";
     fis.Params := [float64 a; float64 b; float64 c] |}.

Definition model (consequents : list Z) : fis.FISModel :=
  {| fis.System :=
       {| fis.Sys_Name := "fan"; fis.Sys_Type := "mamdani";
          fis.Version := "2.0";
          fis.NumInputs := 1; fis.NumOutputs := 1; fis.NumRules := 1;
          fis.AndMethod := "min"; fis.OrMethod := "max";
          fis.ImpMethod := "min"; fis.AggMethod := "max";
          fis.DefuzzMethod := "fom" |};
     fis.Inputs :=
       [{| fis.Name := "Temperature";
           fis.Range := (float64 0, float64 50); fis.NumMFs := 2;
           fis.MFs := [trimf "Cold" 0 0 25; trimf "Hot" 25 50 50] |}];
     fis.Outputs :=
       [{| fis.Name := "FanSpeed";
           fis.Range := (float64 0, float64 100); fis.NumMFs := 2;
           fis.MFs := [trimf "Low" 0 0 50; trimf "High" 50 100 100] |}];
     fis.Rules :=
       [{| fis.Antecedents := [2%Z]; fis.Consequents := consequents;
           fis.Weight := 1; fis.Connection := 1 |}] |}.

End example.

(** * Specification vocabulary *)

(** A membership degree. *)
Definition in01 (v : Qc) : Prop := 0 ≤ v ≤ 1.

Global Instance in01_dec v : Decision (in01 v).
Proof. unfold in01. apply _. Defined.

(** [v] is the least (greatest) element of [l]. *)
Definition is_min_of (v : Qc) (l : list Qc) : Prop :=
  v ∈ l ∧ Forall (λ y, v ≤ y) l.
Definition is_max_of (v : Qc) (l : list Qc) : Prop :=
  v ∈ l ∧ Forall (λ y, y ≤ v) l.

(** Clamping to the nearest bound of [0,1]. *)
Definition clamp (v : Qc) : Qc :=
  if v <? 0 then 0 else if v >? 1 then 1 else v.

(** The first value outside [0,1], scanning left to right. *)
Definition first_invalid (vs : list Qc)
  : option operators.InvalidMembershipError :=
  (λ p, {| operators.Value := p.2 |}) <$> list_find (λ v, ¬ in01 v) vs.

(** When an operator reports an error: AND and OR scan every value, NOT
    reads the first one only. *)
Definition operator_rejects (op : operators.Operator) (vs : list Qc) : Prop :=
  match op with
  | operators.NOT => ∃ v, head vs = Some v ∧ ¬ in01 v
  | _ => ¬ Forall in01 vs
  end.

(** [membershipMap[variable][set]], absent when either key is. *)
Definition lookup_degree (membershipMap : gmap string (gmap string Qc))
    (cond : rule.RuleCondition) : option Qc :=
  membershipMap !! rule.Variable_ cond ≫= λ varMap, varMap !! rule.Set_ cond.

(** Every degree stored in the map lies in [0,1]. *)
Definition degrees_in01 (membershipMap : gmap string (gmap string Qc)) : Prop :=
  map_Forall (λ _ varMap, map_Forall (λ _ degree, in01 degree) varMap)
    membershipMap.

Global Instance degrees_in01_dec membershipMap :
  Decision (degrees_in01 membershipMap).
Proof. unfold degrees_in01. apply _. Defined.

(** The sum of a list of numbers. *)
Definition sum_list (l : list Qc) : Qc := foldr Qcplus 0 l.

(** The arithmetic mean of a non-empty list of numbers. *)
Definition mean (l : list Qc) : Qc :=
  sum_list l / float64 (Z.of_nat (length l)).

(** The suffix of a list that starts at its first element satisfying [P]. *)
Fixpoint from_first {A} (P : A → Prop) `{∀ x, Decision (P x)} (l : list A)
  : list A :=
  match l with
  | [] => []
  | x :: l' => if decide (P x) then x :: l' else from_first P l'
  end.

(** For a membership [M] over the points: the point [x] has a membership
    within the tolerance of [v]; it has the membership [v]. *)
Definition near (M : Qc → Qc) (v : Qc) (x : Qc) : Prop :=
  Qcabs (M x - v) < inference.epsilon.
Definition attains (M : Qc → Qc) (v : Qc) (x : Qc) : Prop := M x = v.

Global Instance near_dec M v x : Decision (near M v x).
Proof. unfold near. apply _. Defined.
Global Instance attains_dec M v x : Decision (attains M v x).
Proof. unfold attains. apply _. Defined.

(** A set whose evaluator returns membership degrees. *)
Definition valid_set (s : set.FuzzySet) : Prop :=
  ∀ x, in01 (set.Evaluate s x).

(** A well-formed aggregation map for an output variable: every entry
    names a set of the variable whose evaluator returns degrees, and
    carries a non-negative strength. *)
Definition wf_aggregation (outputVar : variable.FuzzyVariable)
    (memberships : gmap string Qc) : Prop :=
  map_Forall
    (λ setName strength,
       0 ≤ strength
       ∧ ∃ outputSet, variable.Sets outputVar !! setName = Some outputSet
                      ∧ valid_set outputSet)
    memberships.

(** The errors of the input validation of [Infer]. *)
Definition is_validation_error (e : error) : Prop :=
  match e with
  | MissingInput _ | OutOfBounds _ _ _ _ => True
  | _ => False
  end.

(** The input [name] is provided and lies in the domain of [var], both
    ends included. *)
Definition input_ok (inputs : gmap string Qc) (name : string)
    (var : variable.FuzzyVariable) : Prop :=
  ∃ value, inputs !! name = Some value
           ∧ variable.MinValue var ≤ value ≤ variable.MaxValue var.

(** Every strength of an aggregation map is exactly 0. *)
Definition all_zero (memberships : gmap string Qc) : Prop :=
  map_Forall (λ _ strength, strength = 0) memberships.

Global Instance all_zero_dec memberships : Decision (all_zero memberships).
Proof. unfold all_zero. apply _. Defined.

(** ** Values reachable through the constructors *)

(** A variable made by [NewFuzzyVariable] and any number of [AddSet]. *)
Inductive built_variable : variable.FuzzyVariable → Prop :=
  | built_NewFuzzyVariable name minValue maxValue fv :
      variable.NewFuzzyVariable name minValue maxValue = Built fv →
      built_variable fv
  | built_AddSet fv arg :
      built_variable fv → built_variable (variable.AddSet fv arg).1.

(** What such a variable satisfies: a name, a proper domain, and every
    set stored under its own, non-empty, name. *)
Definition wf_variable (fv : variable.FuzzyVariable) : Prop :=
  variable.Name fv ≠ ""
  ∧ variable.MinValue fv < variable.MaxValue fv
  ∧ map_Forall (λ name fuzzySet, set.Name fuzzySet = name ∧ name ≠ "")
      (variable.Sets fv).

(** A rule made by [NewRule] and any number of [AddCondition],
    [AddConditionEx] and [SetWeight]. *)
Inductive built_rule : rule.Rule → Prop :=
  | built_NewRule output operator r :
      rule.NewRule output operator = Built r → built_rule r
  | built_AddCondition r variable set :
      built_rule r → built_rule (rule.AddCondition r variable set).1
  | built_AddConditionEx r variable set negated :
      built_rule r →
      built_rule (rule.AddConditionEx r variable set negated).1
  | built_SetWeight r weight :
      built_rule r → built_rule (rule.SetWeight r weight).1.

(** What such a rule satisfies. *)
Definition wf_rule (r : rule.Rule) : Prop :=
  in01 (rule.Weight r)
  ∧ rule.Variable_ (rule.Output r) ≠ ""
  ∧ rule.Set_ (rule.Output r) ≠ ""
  ∧ rule.Negated (rule.Output r) = false
  ∧ Forall (λ cond, rule.Variable_ cond ≠ "" ∧ rule.Set_ cond ≠ "")
      (rule.Conditions r).

(** ** Engines reachable through the registration functions *)

(** The rule refers to sets that exist: it has a condition, its
    consequent names a set of an output variable, and each condition
    names a set of an input variable. *)
Definition references_ok (fis : inference.MamdaniInferenceSystem)
    (r : rule.Rule) : Prop :=
  rule.Conditions r ≠ []
  ∧ (∃ outputVar,
        inference.OutputVariables fis !! rule.Variable_ (rule.Output r)
        = Some outputVar
        ∧ is_Some (variable.Sets outputVar !! rule.Set_ (rule.Output r)))
  ∧ Forall (λ cond,
              ∃ inputVar,
                inference.InputVariables fis !! rule.Variable_ cond
                = Some inputVar
                ∧ is_Some (variable.Sets inputVar !! rule.Set_ cond))
      (rule.Conditions r).

(** The engine holds the variables it was given, not copies: a later
    [AddSet] on a registered variable is seen by the engine.  These are
    the engines after such a call on the variable registered as input,
    respectively output, under [name]. *)
Definition input_AddSet (fis : inference.MamdaniInferenceSystem)
    (name : string) (arg : built set.FuzzySet)
  : inference.MamdaniInferenceSystem :=
  match inference.InputVariables fis !! name with
  | Some v =>
      {| inference.InputVariables :=
           <[name := (variable.AddSet v arg).1]>
             (inference.InputVariables fis);
         inference.OutputVariables := inference.OutputVariables fis;
         inference.Rules := inference.Rules fis;
         inference.Resolution := inference.Resolution fis;
         inference.DefuzzMethod := inference.DefuzzMethod fis |}
  | None => fis
  end.

Definition output_AddSet (fis : inference.MamdaniInferenceSystem)
    (name : string) (arg : built set.FuzzySet)
  : inference.MamdaniInferenceSystem :=
  match inference.OutputVariables fis !! name with
  | Some v =>
      {| inference.InputVariables := inference.InputVariables fis;
         inference.OutputVariables :=
           <[name := (variable.AddSet v arg).1]>
             (inference.OutputVariables fis);
         inference.Rules := inference.Rules fis;
         inference.Resolution := inference.Resolution fis;
         inference.DefuzzMethod := inference.DefuzzMethod fis |}
  | None => fis
  end.

(** An engine made by [NewMamdaniInferenceSystem], while the package
    variable [DefaultResolution] had the given value, and any number of
    calls, successful or not, of the registration functions and of
    [AddSet] on registered variables.  A rule is not changed once it is
    added. *)
Inductive configured (DefaultResolution : Z)
  : inference.MamdaniInferenceSystem → Prop :=
  | configured_New :
      configured DefaultResolution
        (inference.NewMamdaniInferenceSystem DefaultResolution)
  | configured_SetResolution fis res :
      configured DefaultResolution fis →
      configured DefaultResolution (inference.SetResolution fis res).1
  | configured_SetDefuzzificationMethod fis method :
      configured DefaultResolution fis →
      configured DefaultResolution
        (inference.SetDefuzzificationMethod fis method).1
  | configured_AddInputVariable fis v :
      configured DefaultResolution fis →
      configured DefaultResolution (inference.AddInputVariable fis v).1
  | configured_AddOutputVariable fis v :
      configured DefaultResolution fis →
      configured DefaultResolution (inference.AddOutputVariable fis v).1
  | configured_AddRule fis r :
      configured DefaultResolution fis →
      configured DefaultResolution (inference.AddRule fis r).1
  | configured_input_AddSet fis name arg :
      configured DefaultResolution fis →
      configured DefaultResolution (input_AddSet fis name arg)
  | configured_output_AddSet fis name arg :
      configured DefaultResolution fis →
      configured DefaultResolution (output_AddSet fis name arg).

(** What such an engine satisfies. *)
Definition wf_engine (fis : inference.MamdaniInferenceSystem) : Prop :=
  Forall (references_ok fis) (inference.Rules fis)
  ∧ inference.DefuzzMethod fis
    ∈ [inference.DefuzzCOG; inference.DefuzzMOM; inference.DefuzzFOM;
       inference.DefuzzLOM; inference.DefuzzSOM]
  ∧ map_Forall (λ name v, variable.Name v = name)
      (inference.InputVariables fis)
  ∧ map_Forall (λ name v, variable.Name v = name)
      (inference.OutputVariables fis).

(** Every set of the first variables is a set of the second ones. *)
Definition sees_sets (vars vars' : gmap string variable.FuzzyVariable)
  : Prop :=
  ∀ name v setName,
    vars !! name = Some v → is_Some (variable.Sets v !! setName) →
    ∃ v', vars' !! name = Some v'
          ∧ is_Some (variable.Sets v' !! setName).

(** ** The stages of [Infer] *)

(** The rule concludes on the set [setName] of the variable [varName]. *)
Definition concludes (varName setName : string) (r : rule.Rule) : Prop :=
  rule.Variable_ (rule.Output r) = varName
  ∧ rule.Set_ (rule.Output r) = setName.

Global Instance concludes_dec varName setName r :
  Decision (concludes varName setName r).
Proof. unfold concludes. apply _. Defined.

(** The firing strengths, in rule order, of the rules that conclude on
    the set. *)
Definition strengths (rules : list rule.Rule)
    (membershipMap : gmap string (gmap string Qc))
    (varName setName : string) : list Qc :=
  omap (λ r, match rule.Evaluate r membershipMap with
             | Ok firingStrength => Some firingStrength
             | Err _ => None
             end)
       (filter (concludes varName setName) rules).

(** The larger of a strength and the strength stored so far, if any. *)
Definition raise (current : option Qc) (firingStrength : Qc) : option Qc :=
  Some match current with
       | Some c => if firingStrength >? c then firingStrength else c
       | None => firingStrength
       end.

(** Every set of every input variable returns membership degrees. *)
Definition input_sets_valid (fis : inference.MamdaniInferenceSystem)
  : Prop :=
  ∀ name inputVar setName inputSet,
    inference.InputVariables fis !! name = Some inputVar →
    variable.Sets inputVar !! setName = Some inputSet →
    valid_set inputSet.

(** ** Rule builders and rules in index form *)

(** A builder made by [NewRuleBuilder] or [NewRuleBuilderRef] and any
    number of [If], [IfRef], [And], [Or], [Weight] and [With]. *)
Inductive built_builder : inference.RuleBuilder → Prop :=
  | built_NewRuleBuilder outputVar outputSet weight rb :
      inference.NewRuleBuilder outputVar outputSet weight = Built rb →
      built_builder rb
  | built_NewRuleBuilderRef outputRef weight rb :
      inference.NewRuleBuilderRef outputRef weight = Built rb →
      built_builder rb
  | built_If rb variable set :
      built_builder rb → built_builder (inference.If rb variable set)
  | built_IfRef rb setRef :
      built_builder rb → built_builder (inference.IfRef rb setRef)
  | built_And rb : built_builder rb → built_builder (inference.And rb)
  | built_Or rb : built_builder rb → built_builder (inference.Or rb)
  | built_Weight rb w :
      built_builder rb → built_builder (inference.Weight rb w).1
  | built_With rb w :
      built_builder rb → built_builder (inference.With rb w).1.

(** The values of Go's [int]. *)
Definition int64 (z : Z) : Prop := (- 2 ^ 63 ≤ z < 2 ^ 63)%Z.

Global Instance int64_dec z : Decision (int64 z).
Proof. unfold int64. apply _. Defined.

(** Sections as Go holds them: the length of a slice is an [int]. *)
Definition go_sections (sections : list fis.VariableSection) : Prop :=
  (Z.of_nat (length sections) < 2 ^ 63)%Z
  ∧ Forall (λ sec, (Z.of_nat (length (fis.MFs sec)) < 2 ^ 63)%Z) sections.

(** The condition names a membership function of a section. *)
Definition names_mf (sections : list fis.VariableSection)
    (cond : rule.RuleCondition) : Prop :=
  ∃ sec mf, sec ∈ sections ∧ mf ∈ fis.MFs sec
            ∧ rule.Variable_ cond = fis.Name sec
            ∧ rule.Set_ cond = fis.MF_Name mf.

(** * Properties *)

(** ** Order and arithmetic on the numeric model *)

Lemma ltb_lt (x y : Qc) : (x <? y) = true ↔ x < y.
Proof. apply bool_decide_eq_true. Qed.

Lemma ltb_ge (x y : Qc) : (x <? y) = false ↔ y ≤ x.
Proof. unfold ltb. rewrite bool_decide_eq_false. symmetry. apply Qcle_ngt. Qed.

Lemma leb_le (x y : Qc) : (x <=? y) = true ↔ x ≤ y.
Proof. apply bool_decide_eq_true. Qed.

Lemma leb_gt (x y : Qc) : (x <=? y) = false ↔ y < x.
Proof. unfold leb. rewrite bool_decide_eq_false. symmetry. apply Qclt_nge. Qed.

Lemma eqb_eq (x y : Qc) : (x =? y) = true ↔ x = y.
Proof. apply bool_decide_eq_true. Qed.

Lemma eqb_neq (x y : Qc) : (x =? y) = false ↔ x ≠ y.
Proof. apply bool_decide_eq_false. Qed.

(** Case analysis on every comparison of the goal. *)
Ltac cmp :=
  repeat match goal with
    | |- context [ltb ?x ?y] =>
        let H := fresh "Hc" in
        destruct (ltb x y) eqn:H;
        [apply ltb_lt in H | apply ltb_ge in H]
    | |- context [leb ?x ?y] =>
        let H := fresh "Hc" in
        destruct (leb x y) eqn:H;
        [apply leb_le in H | apply leb_gt in H]
    | |- context [eqb ?x ?y] =>
        let H := fresh "Hc" in
        destruct (eqb x y) eqn:H;
        [apply eqb_eq in H | apply eqb_neq in H]
    end.

(** Linear (and mildly non-linear) goals over [Qc], decided over [Q]. *)
Ltac to_Q :=
  repeat match goal with
    | H : @eq Qc _ _ |- _ => apply (f_equal this) in H
    | H : _ ∧ _ |- _ => destruct H
    end;
  try apply Qc_is_canon;
  unfold Qcle, Qclt, Qcminus, Qcplus, Qcopp, Qcmult, Q2Qc in *;
  cbn [this] in *;
  rewrite ?Qred_correct in *.

Ltac qc_lra := to_Q; lra.

(** Closed decidable goals, by evaluation. *)
Ltac by_compute := apply (bool_decide_unpack _); vm_compute; exact I.
Ltac qc_nra := to_Q; nra.

Lemma in01_complement (v : Qc) : in01 v → in01 (1 - v).
Proof. unfold in01. intros [??]. split; qc_lra. Qed.

Lemma in01_mult (v w : Qc) : in01 v → in01 w → in01 (v * w).
Proof. unfold in01. intros [??] [??]. split; qc_nra. Qed.

Lemma in01_0 : in01 0.
Proof. unfold in01. split; qc_lra. Qed.

Lemma in01_1 : in01 1.
Proof. unfold in01. split; qc_lra. Qed.

Lemma Qcdiv_in01 (n d : Qc) : 0 ≤ n → n ≤ d → 0 < d → in01 (n / d).
Proof.
  intros Hn Hnd Hd. unfold in01, Qcdiv, Qcinv. to_Q. split.
  - change (0 <= this n / this d)%Q. apply Qle_shift_div_l; [done|]. lra.
  - change (this n / this d <= 1)%Q. apply Qle_shift_div_r; [done|]. lra.
Qed.

Lemma is_min_of_unique v w l : is_min_of v l → is_min_of w l → v = w.
Proof.
  intros [Hv Hlv] [Hw Hlw]. rewrite Forall_forall in Hlv, Hlw.
  apply Qcle_antisym; auto.
Qed.

Lemma is_max_of_unique v w l : is_max_of v l → is_max_of w l → v = w.
Proof.
  intros [Hv Hlv] [Hw Hlw]. rewrite Forall_forall in Hlv, Hlw.
  apply Qcle_antisym; auto.
Qed.

(** ** Operators *)

Module operators_facts.
Import operators.

Lemma clamp_in01 v : in01 (clamp v).
Proof. unfold clamp, in01. cmp; split; qc_lra. Qed.

Lemma clamp_id v : in01 v → clamp v = v.
Proof. unfold clamp, in01. intros [??]. cmp; qc_lra. Qed.

Lemma clamp_final_id v : in01 v → clamp_final v = v.
Proof.
  intros [H0 H1]. unfold clamp_final.
  assert ((v <? 0) = false) as -> by by apply ltb_ge.
  assert ((1 <? v) = false) as -> by by apply ltb_ge.
  reflexivity.
Qed.

Lemma first_invalid_cons v vs :
  first_invalid (v :: vs) =
  if decide (in01 v) then first_invalid vs else Some {| Value := v |}.
Proof.
  unfold first_invalid. cbn [list_find].
  destruct (decide (in01 v)) as [Hv|Hv].
  - rewrite decide_False by tauto.
    destruct (list_find _ vs) as [[??]|]; reflexivity.
  - rewrite decide_True by done. reflexivity.
Qed.

Lemma clamp_first_spec v :
  clamp_first v = (clamp v, first_invalid [v]).
Proof.
  rewrite first_invalid_cons. unfold clamp_first, clamp.
  destruct (decide (in01 v)) as [[??]|Hv].
  - assert ((v <? 0) = false) as -> by by apply ltb_ge.
    assert ((1 <? v) = false) as -> by by apply ltb_ge.
    reflexivity.
  - destruct (v <? 0) eqn:E0; [reflexivity|].
    destruct (1 <? v) eqn:E1; [reflexivity|].
    apply ltb_ge in E0, E1. destruct Hv. by split.
Qed.

Lemma clamp_next_spec raw err :
  clamp_next raw err =
  (clamp raw, match err with Some e => Some e | None => first_invalid [raw] end).
Proof.
  pose proof (clamp_first_spec raw) as H.
  unfold clamp_first, clamp_next, clamp in *.
  destruct (raw <? 0), (1 <? raw), err; simplify_eq; try reflexivity;
    repeat match goal with H : _ = _ |- _ => rewrite <- H end; reflexivity.
Qed.

Lemma min_loop_spec rest : ∀ m err,
  in01 m →
  ∃ m', min_loop rest m err =
          (m', match err with Some e => Some e | None => first_invalid rest end)
        ∧ is_min_of m' (m :: (clamp <$> rest)).
Proof.
  induction rest as [|raw rest IH]; intros m err Hm; cbn [min_loop].
  - exists m. split; [by destruct err|].
    split; [left | repeat constructor; apply Qcle_refl].
  - rewrite clamp_next_spec.
    set (m1 := if clamp raw <? m then clamp raw else m).
    assert (in01 m1) as Hm1.
    { unfold m1. destruct (clamp raw <? m); [apply clamp_in01 | done]. }
    destruct (IH m1 (match err with Some e => Some e
                               | None => first_invalid [raw] end) Hm1)
      as (m' & Heq & Hin & Hle).
    exists m'. rewrite Heq. split.
    + destruct err; [reflexivity|].
      rewrite !first_invalid_cons. by destruct (decide (in01 raw)).
    + rewrite fmap_cons. inversion Hle as [|?? Hm1' Hrest]; subst.
      split.
      * apply elem_of_cons in Hin as [->|Hin].
        -- unfold m1. destruct (clamp raw <? m);
             [right; left | left].
        -- by do 2 right.
      * assert (m' ≤ m ∧ m' ≤ clamp raw) as [??].
        { unfold m1 in Hm1'. revert Hm1'. cmp; intros; split;
            try done; to_Q; lra. }
        repeat constructor; done.
Qed.

Lemma max_loop_spec rest : ∀ m err,
  in01 m →
  ∃ m', max_loop rest m err =
          (m', match err with Some e => Some e | None => first_invalid rest end)
        ∧ is_max_of m' (m :: (clamp <$> rest)).
Proof.
  induction rest as [|raw rest IH]; intros m err Hm; cbn [max_loop].
  - exists m. split; [by destruct err|].
    split; [left | repeat constructor; apply Qcle_refl].
  - rewrite clamp_next_spec.
    set (m1 := if clamp raw >? m then clamp raw else m).
    assert (in01 m1) as Hm1.
    { unfold m1. destruct (clamp raw >? m); [apply clamp_in01 | done]. }
    destruct (IH m1 (match err with Some e => Some e
                               | None => first_invalid [raw] end) Hm1)
      as (m' & Heq & Hin & Hle).
    exists m'. rewrite Heq. split.
    + destruct err; [reflexivity|].
      rewrite !first_invalid_cons. by destruct (decide (in01 raw)).
    + rewrite fmap_cons. inversion Hle as [|?? Hm1' Hrest]; subst.
      split.
      * apply elem_of_cons in Hin as [->|Hin].
        -- unfold m1. destruct (clamp raw >? m);
             [right; left | left].
        -- by do 2 right.
      * assert (m ≤ m' ∧ clamp raw ≤ m') as [??].
        { unfold m1 in Hm1'. revert Hm1'. cmp; intros; split;
            try done; to_Q; lra. }
        repeat constructor; done.
Qed.

Lemma is_min_of_in01 m l : Forall in01 l → is_min_of m l → in01 m.
Proof. intros Hl [Hin _]. rewrite Forall_forall in Hl. auto. Qed.

Lemma is_max_of_in01 m l : Forall in01 l → is_max_of m l → in01 m.
Proof. intros Hl [Hin _]. rewrite Forall_forall in Hl. auto. Qed.

Lemma Forall_in01_clamp vs : Forall in01 (clamp <$> vs).
Proof. apply Forall_fmap, Forall_forall. intros. apply clamp_in01. Qed.

(** [MinOperator.Apply] on a non-empty slice. *)
Lemma MinOperator_Apply_spec vs :
  vs ≠ [] →
  ∃ m, MinOperator_Apply vs = (m, first_invalid vs)
       ∧ is_min_of m (clamp <$> vs).
Proof.
  destruct vs as [|v0 rest]; [done|]. intros _. cbn [MinOperator_Apply].
  rewrite clamp_first_spec.
  destruct (min_loop_spec rest (clamp v0) (first_invalid [v0])
              (clamp_in01 v0)) as (m & Heq & Hmin).
  exists m. rewrite Heq. rewrite fmap_cons. split; [|done].
  rewrite clamp_final_id.
  { rewrite !first_invalid_cons. by destruct (decide (in01 v0)). }
  eapply is_min_of_in01; [|exact Hmin].
  constructor; [apply clamp_in01 | apply Forall_in01_clamp].
Qed.

(** [MaxOperator.Apply] on a non-empty slice. *)
Lemma MaxOperator_Apply_spec vs :
  vs ≠ [] →
  ∃ m, MaxOperator_Apply vs = (m, first_invalid vs)
       ∧ is_max_of m (clamp <$> vs).
Proof.
  destruct vs as [|v0 rest]; [done|]. intros _. cbn [MaxOperator_Apply].
  rewrite clamp_first_spec.
  destruct (max_loop_spec rest (clamp v0) (first_invalid [v0])
              (clamp_in01 v0)) as (m & Heq & Hmax).
  exists m. rewrite Heq. rewrite fmap_cons. split; [|done].
  rewrite clamp_final_id.
  { rewrite !first_invalid_cons. by destruct (decide (in01 v0)). }
  eapply is_max_of_in01; [|exact Hmax].
  constructor; [apply clamp_in01 | apply Forall_in01_clamp].
Qed.

Lemma first_invalid_None vs : Forall in01 vs → first_invalid vs = None.
Proof.
  intros H. unfold first_invalid.
  destruct (list_find _ vs) as [[i v]|] eqn:E; [|done].
  apply list_find_Some in E as (Hl & Hn & _).
  rewrite Forall_forall in H. exfalso. apply Hn, H.
  by eapply list_elem_of_lookup_2.
Qed.

Lemma first_invalid_Some vs :
  ¬ Forall in01 vs →
  ∃ i v, first_invalid vs = Some {| Value := v |}
         ∧ vs !! i = Some v ∧ ¬ in01 v
         ∧ ∀ j w, vs !! j = Some w → (j < i)%nat → in01 w.
Proof.
  intros H. unfold first_invalid.
  destruct (list_find _ vs) as [[i v]|] eqn:E.
  - apply list_find_Some in E as (Hl & Hn & Hbefore).
    exists i, v. split; [done|]. split; [done|]. split; [done|].
    intros j w Hj Hlt. destruct (decide (in01 w)) as [|Hw]; [done|].
    destruct (Hbefore j w Hj Hlt). exact Hw.
  - exfalso. apply H. rewrite list_find_None in E.
    eapply Forall_impl; [exact E|]. intros x Hx. cbn in Hx.
    destruct (decide (in01 x)); tauto.
Qed.

Lemma clamp_fmap_id vs : Forall in01 vs → clamp <$> vs = vs.
Proof.
  induction 1 as [|v vs Hv _ IH]; [done|].
  by rewrite fmap_cons, clamp_id, IH.
Qed.

Lemma Apply_in01 op vs : in01 (Apply op vs).1.
Proof.
  destruct op; cbn [Apply].
  - destruct (decide (vs = [])) as [->|Hne]; [apply in01_0|].
    destruct (MinOperator_Apply_spec vs Hne) as (m & -> & Hmin).
    eapply is_min_of_in01; [apply Forall_in01_clamp | done].
  - destruct (decide (vs = [])) as [->|Hne]; [apply in01_0|].
    destruct (MaxOperator_Apply_spec vs Hne) as (m & -> & Hmax).
    eapply is_max_of_in01; [apply Forall_in01_clamp | done].
  - destruct vs as [|v0 rest]; [apply in01_1|]. cbn [NotOperator_Apply].
    rewrite clamp_first_spec. apply in01_complement, clamp_in01.
Qed.

Lemma first_invalid_is_Some vs :
  first_invalid vs ≠ None ↔ ¬ Forall in01 vs.
Proof.
  split.
  - intros H Hall. by apply H, first_invalid_None.
  - intros H. destruct (first_invalid_Some vs H) as (? & ? & -> & _). done.
Qed.

Lemma Apply_error_iff op vs :
  (Apply op vs).2 ≠ None ↔ operator_rejects op vs.
Proof.
  destruct op; cbn [Apply operator_rejects].
  - destruct (decide (vs = [])) as [->|Hne].
    + cbn. split; [done|]. intros H. destruct H. constructor.
    + destruct (MinOperator_Apply_spec vs Hne) as (m & -> & _).
      apply first_invalid_is_Some.
  - destruct (decide (vs = [])) as [->|Hne].
    + cbn. split; [done|]. intros H. destruct H. constructor.
    + destruct (MaxOperator_Apply_spec vs Hne) as (m & -> & _).
      apply first_invalid_is_Some.
  - destruct vs as [|v0 rest].
    + cbn. split; [done|]. by intros (? & ? & _).
    + cbn [NotOperator_Apply head]. rewrite clamp_first_spec.
      cbn [snd]. rewrite first_invalid_cons.
      destruct (decide (in01 v0)) as [Hv|Hv].
      * split; [done|]. intros (? & ? & ?). by simplify_eq.
      * split; [|done]. intros _. by exists v0.
Qed.

Lemma operator_rejects_invalid op vs :
  operator_rejects op vs → ¬ Forall in01 vs.
Proof.
  destruct op; cbn; try done.
  intros (v & Hh & Hv) Hall. destruct vs; simplify_eq/=.
  by inversion Hall.
Qed.

(** C6: on degrees that all lie in [0,1], AND returns the minimum of the
    values, OR the maximum and NOT the complement [1 - v] of its value, all
    without error; on the empty sequence AND and OR return 0 and NOT
    returns 1. *)
Theorem C6_operators_on_valid_degrees (vs : list Qc) :
  Forall in01 vs →
  (vs ≠ [] → ∃ m, Apply AND vs = (m, None) ∧ is_min_of m vs)
  ∧ (vs ≠ [] → ∃ m, Apply OR vs = (m, None) ∧ is_max_of m vs)
  ∧ (∀ v, head vs = Some v → Apply NOT vs = (1 - v, None))
  ∧ Apply AND [] = (0, None)
  ∧ Apply OR [] = (0, None)
  ∧ Apply NOT [] = (1, None).
Proof.
  intros Hvs. repeat split; try reflexivity.
  - intros Hne. destruct (MinOperator_Apply_spec vs Hne) as (m & Heq & Hmin).
    exists m. cbn [Apply].
    by rewrite Heq, first_invalid_None, <- (clamp_fmap_id vs).
  - intros Hne. destruct (MaxOperator_Apply_spec vs Hne) as (m & Heq & Hmax).
    exists m. cbn [Apply].
    by rewrite Heq, first_invalid_None, <- (clamp_fmap_id vs).
  - intros v Hv. destruct vs as [|v0 rest]; simplify_eq/=.
    inversion Hvs; subst.
    rewrite clamp_first_spec.
    rewrite (clamp_id v) by done.
    rewrite (first_invalid_None [v]) by (constructor; [done | constructor]).
    reflexivity.
Qed.

Lemma C6_operators_on_valid_degrees_witness :
  let vs := [Q2Qc (1 # 2); Q2Qc (7 # 10); Q2Qc (3 # 10)] in
  (∃ m, Apply AND vs = (m, None) ∧ is_min_of m vs)
  ∧ (∃ m, Apply OR vs = (m, None) ∧ is_max_of m vs)
  ∧ Apply NOT vs = (1 - Q2Qc (1 # 2), None).
Proof.
  destruct (C6_operators_on_valid_degrees
              [Q2Qc (1 # 2); Q2Qc (7 # 10); Q2Qc (3 # 10)])
    as (Hand & Hor & Hnot & _).
  - repeat constructor; by_compute.
  - split; [by apply Hand|]. split; [by apply Hor|]. by apply Hnot.
Defined.

(** C7, as the code has it: when some value lies outside [0,1], AND and OR
    return the minimum, respectively the maximum, of the values clamped to
    [0,1], a result in [0,1], together with an invalid-membership error
    carrying the first out-of-range raw value in left-to-right order; NOT
    reads its first value only, and does the same — complement of the
    clamped value, error carrying the raw value — when that first value
    is out of range. *)
Theorem C7_operators_on_invalid_degrees (vs : list Qc) :
  ¬ Forall in01 vs →
  ∃ i v,
    vs !! i = Some v ∧ ¬ in01 v
    ∧ (∀ j w, vs !! j = Some w → (j < i)%nat → in01 w)
    ∧ (∃ m, Apply AND vs = (m, Some {| Value := v |})
            ∧ is_min_of m (clamp <$> vs) ∧ in01 m)
    ∧ (∃ m, Apply OR vs = (m, Some {| Value := v |})
            ∧ is_max_of m (clamp <$> vs) ∧ in01 m)
    ∧ (i = 0%nat →
       Apply NOT vs = (1 - clamp v, Some {| Value := v |})
       ∧ in01 (1 - clamp v)).
Proof.
  intros Hvs. destruct (first_invalid_Some vs Hvs) as (i & v & Hf & Hi & Hv & Hb).
  assert (vs ≠ []) as Hne by (intros ->; apply Hvs; constructor).
  exists i, v. split; [done|]. split; [done|]. split; [done|].
  split; [|split].
  - destruct (MinOperator_Apply_spec vs Hne) as (m & Heq & Hmin).
    exists m. cbn [Apply]. rewrite Heq, Hf. split; [done|]. split; [done|].
    eapply is_min_of_in01; [apply Forall_in01_clamp | done].
  - destruct (MaxOperator_Apply_spec vs Hne) as (m & Heq & Hmax).
    exists m. cbn [Apply]. rewrite Heq, Hf. split; [done|]. split; [done|].
    eapply is_max_of_in01; [apply Forall_in01_clamp | done].
  - intros ->. destruct vs as [|v0 rest]; simplify_eq/=.
    rewrite clamp_first_spec, first_invalid_cons.
    rewrite decide_False by done.
    split; [done|]. apply in01_complement, clamp_in01.
Qed.

Lemma C7_operators_on_invalid_degrees_witness :
  let vs := [Q2Qc (1 # 5); Q2Qc (3 # 2); Q2Qc (-1 # 4)] in
  ∃ i v,
    vs !! i = Some v ∧ ¬ in01 v
    ∧ (∀ j w, vs !! j = Some w → (j < i)%nat → in01 w)
    ∧ (∃ m, Apply AND vs = (m, Some {| Value := v |})
            ∧ is_min_of m (clamp <$> vs) ∧ in01 m)
    ∧ (∃ m, Apply OR vs = (m, Some {| Value := v |})
            ∧ is_max_of m (clamp <$> vs) ∧ in01 m)
    ∧ (i = 0%nat →
       Apply NOT vs = (1 - clamp v, Some {| Value := v |})
       ∧ in01 (1 - clamp v)).
Proof.
  apply (C7_operators_on_invalid_degrees
           [Q2Qc (1 # 5); Q2Qc (3 # 2); Q2Qc (-1 # 4)]).
  intros H. inversion H as [|?? _ H']; subst.
  inversion H' as [|?? H3 _]; subst. revert H3. by_compute.
Defined.

(** C7 as stated fails for NOT: a sequence whose first value is valid and
    whose second value is out of range yields no error. *)
Lemma C7_counterexample :
  ¬ Forall in01 [Q2Qc (1 # 2); Q2Qc (3 # 2)]
  ∧ Apply NOT [Q2Qc (1 # 2); Q2Qc (3 # 2)] = (Q2Qc (1 # 2), None).
Proof.
  split.
  - intros H. inversion H as [|?? _ H']; subst.
    inversion H' as [|?? H3 _]; subst. revert H3. by_compute.
  - by_compute.
Qed.

End operators_facts.

(** ** Membership functions *)

Module membership_facts.
Import membership.

(** A slope [(x - a) / (b - a)] taken strictly inside [(a, b)]. *)
Lemma rising_in01 (a b x : Qc) : a < x → x < b → in01 ((x - a) / (b - a)).
Proof. intros. apply Qcdiv_in01; qc_lra. Qed.

Lemma falling_in01 (b c x : Qc) : b < x → x < c → in01 ((c - x) / (c - b)).
Proof. intros. apply Qcdiv_in01; qc_lra. Qed.

(** From [a ≤ b] and a disequality, [a < b]. *)
Ltac strict :=
  repeat match goal with
    | H1 : ?a ≤ ?b, H2 : ?b ≠ ?a |- _ =>
        assert (a < b)
          by (apply Qcle_lt_or_eq in H1 as [?|?]; [done|congruence]);
        clear H1
    | H1 : ?a ≤ ?b, H2 : ?a ≠ ?b |- _ =>
        assert (a < b)
          by (apply Qcle_lt_or_eq in H1 as [?|?]; [done|congruence]);
        clear H1
    end.

Ltac shape :=
  cmp; cbn [andb orb];
  first [ congruence | apply in01_0 | apply in01_1
        | strict; apply Qcdiv_in01; qc_lra ].

Lemma Triangular_Evaluate_in01 A B C x : in01 (Triangular_Evaluate A B C x).
Proof. unfold Triangular_Evaluate. shape. Qed.

Lemma Trapezoidal_Evaluate_in01 A B C D x :
  in01 (Trapezoidal_Evaluate A B C D x).
Proof. unfold Trapezoidal_Evaluate. shape. Qed.

(** The piecewise-linear shapes return membership degrees. *)
Lemma Evaluate_in01 mf x :
  (∀ ev, mf = Other ev → ∀ y, in01 (ev y)) → in01 (Evaluate mf x).
Proof.
  destruct mf as [A B C|A B C D|ev]; cbn [Evaluate]; intros Hev.
  - apply Triangular_Evaluate_in01.
  - apply Trapezoidal_Evaluate_in01.
  - by apply Hev.
Qed.

End membership_facts.

(** ** Rule evaluation *)

Module rule_facts.
Import operators operators_facts rule.

Lemma condition_value_spec membershipMap cond :
  condition_value membershipMap cond =
  match lookup_degree membershipMap cond with
  | Some degree => if Negated cond then 1 - degree else degree
  | None => 0
  end.
Proof.
  unfold condition_value, lookup_degree.
  destruct (membershipMap !! Variable_ cond) as [varMap|]; [|done].
  cbn. by destruct (varMap !! Set_ cond).
Qed.

Lemma condition_value_in01 membershipMap cond :
  degrees_in01 membershipMap → in01 (condition_value membershipMap cond).
Proof.
  intros Hmm. unfold condition_value.
  destruct (membershipMap !! Variable_ cond) as [varMap|] eqn:Ev;
    [|apply in01_0].
  destruct (varMap !! Set_ cond) as [degree|] eqn:Es; [|apply in01_0].
  pose proof (Hmm _ _ Ev _ _ Es) as Hd. cbn in Hd.
  destruct (Negated cond); [by apply in01_complement | done].
Qed.

Lemma Evaluate_unfold r membershipMap :
  Evaluate r membershipMap =
  let values := condition_value membershipMap <$> Conditions r in
  match Conditions r with
  | [] => Err NoConditions
  | _ =>
      match (Apply (Operator r) values).2 with
      | Some e =>
          Err (ApplyingOperator (Variable_ (Output r)) (Set_ (Output r))
                 (InvalidMembership e))
      | None => Ok ((Apply (Operator r) values).1 * Weight r)
      end
  end.
Proof.
  unfold Evaluate. destruct (Conditions r) as [|c cs]; [done|].
  rewrite bool_decide_eq_false_2 by done.
  by destruct (Apply _ _) as [res [e|]].
Qed.

(** C2, as the code has it: [Evaluate] fails exactly when the rule has no
    condition or its operator rejects a contributed value as lying outside
    [0,1]; when every degree of the map lies in [0,1] it fails exactly when
    the rule has no condition.  A condition contributes the looked-up
    degree, [1 - degree] when negated, and 0 when either key is absent
    (negated or not).  A successful evaluation returns the operator's
    combination of the contributed values times the weight, which lies in
    [0,1] whenever the weight does. *)
Theorem C2_rule_evaluate (r : Rule)
    (membershipMap : gmap string (gmap string Qc)) :
  let values := condition_value membershipMap <$> Conditions r in
  (is_Err (Evaluate r membershipMap)
   ↔ Conditions r = [] ∨ operator_rejects (Operator r) values)
  ∧ (degrees_in01 membershipMap →
     (is_Err (Evaluate r membershipMap) ↔ Conditions r = []))
  ∧ (∀ cond,
       condition_value membershipMap cond =
       match lookup_degree membershipMap cond with
       | Some degree => if Negated cond then 1 - degree else degree
       | None => 0
       end)
  ∧ (∀ s, Evaluate r membershipMap = Ok s →
          s = (Apply (Operator r) values).1 * Weight r
          ∧ (in01 (Weight r) → in01 s)).
Proof.
  intros values.
  assert (is_Err (Evaluate r membershipMap)
          ↔ Conditions r = [] ∨ operator_rejects (Operator r) values) as Hfail.
  { rewrite Evaluate_unfold, <- Apply_error_iff. subst values. cbv zeta.
    generalize (Apply (Operator r)
                  (condition_value membershipMap <$> Conditions r)).
    intros [res err].
    destruct (Conditions r) as [|c cs]; [cbn; tauto|].
    destruct err; cbn; split; try tauto; try done.
    - intros _. by right.
    - intros [|]; done. }
  split; [exact Hfail|]. split; [|split].
  - intros Hmm. rewrite Hfail. split; [|tauto].
    intros [?|Hrej]; [done|]. exfalso.
    apply operator_rejects_invalid in Hrej. apply Hrej.
    apply Forall_fmap, Forall_forall. intros cond _.
    by apply condition_value_in01.
  - apply condition_value_spec.
  - intros s. rewrite Evaluate_unfold.
    pose proof (Apply_in01 (Operator r) values) as Hin.
    revert Hin. subst values. cbv zeta.
    generalize (Apply (Operator r)
                  (condition_value membershipMap <$> Conditions r)).
    intros [res err] Hin.
    destruct (Conditions r) as [|c cs]; [done|].
    destruct err; [done|].
    intros [= <-]. split; [done|].
    intros Hw. by apply in01_mult.
Qed.

Lemma C2_rule_evaluate_witness :
  (is_Err (Evaluate example.cold_and_not_hot example.degrees)
   ↔ Conditions example.cold_and_not_hot = [])
  ∧ Q2Qc (2 # 5) =
    (Apply OR (condition_value example.degrees
               <$> Conditions example.cold_and_not_hot)).1
    * Weight example.cold_and_not_hot
  ∧ in01 (Q2Qc (2 # 5)).
Proof.
  destruct (C2_rule_evaluate example.cold_and_not_hot example.degrees)
    as (_ & Hvalid & _ & Hok).
  split; [apply Hvalid; by_compute|].
  destruct (Hok (Q2Qc (2 # 5))) as [Hs Hin]; [by_compute|].
  split; [exact Hs | apply Hin; by_compute].
Defined.

(** C2 as stated fails: a rule with one condition whose looked-up degree
    is 3/2 does not evaluate, although it has a condition. *)
Lemma C2_counterexample :
  Conditions (example.when "Temperature" "Hot" "High") ≠ []
  ∧ Evaluate (example.when "Temperature" "Hot" "High") example.overshoot =
    Err (ApplyingOperator "FanSpeed" "High"
           (InvalidMembership {| Value := Q2Qc (3 # 2) |})).
Proof. split; [done | by_compute]. Qed.

End rule_facts.

(** ** Defuzzification *)

Module inference_facts.
Import inference.

(** *** The three scanning loops, over any sampling [X] and any
    non-negative membership [M] *)

Section loops.
Context (X : Z → Qc) (M : Qc → Qc).

Lemma cog_loop l : ∀ n d,
  foldl (cog_step X M) (n, d) l =
  (n + sum_list ((λ i, X i * M (X i)) <$> l),
   d + sum_list ((λ i, M (X i)) <$> l)).
Proof.
  induction l as [|i l IH]; intros n d; cbn [foldl cog_step].
  - cbn. by rewrite !Qcplus_0_r.
  - rewrite IH. cbn. by rewrite !Qcplus_assoc.
Qed.

Lemma near_self v x : attains M v x → near M v x.
Proof.
  unfold attains, near. intros ->.
  replace (v - v) with (Q2Qc 0) by ring. by_compute.
Qed.

Lemma is_max_of_cons_le v a l :
  is_max_of v (a :: l) → a ≤ v ∧ Forall (λ y, y ≤ v) l.
Proof. intros [_ H]. by inversion H. Qed.

Lemma is_max_of_skip v a b l :
  b ≤ a → is_max_of v (a :: l) → is_max_of v (a :: b :: l).
Proof.
  intros Hba [Hin Hle]. inversion Hle as [|?? Ha Hl]; subst. split.
  - apply elem_of_cons in Hin as [->|?]; [left | by do 2 right].
  - repeat constructor; [done | by etrans | done].
Qed.

Lemma is_max_of_replace v a b l :
  a ≤ b → is_max_of v (b :: l) → is_max_of v (a :: b :: l).
Proof.
  intros Hab [Hin Hle]. inversion Hle as [|?? Hb Hl]; subst. split.
  - by right.
  - repeat constructor; [by etrans | done | done].
Qed.

Lemma fom_loop l : ∀ mx res,
  ∃ F r, foldl (fom_step X M) (mx, res) l = (F, r)
    ∧ is_max_of F (mx :: ((λ i, M (X i)) <$> l))
    ∧ (F = mx → r = res)
    ∧ (F ≠ mx →
       ∃ k i, l !! k = Some i ∧ M (X i) = F ∧ r = X i
              ∧ ∀ j i', l !! j = Some i' → (j < k)%nat → M (X i') < F).
Proof.
  induction l as [|i l IH]; intros mx res; cbn [foldl fom_step].
  - exists mx, res. split; [done|]. split; [|split; done].
    split; [left | repeat constructor; apply Qcle_refl].
  - destruct (M (X i) >? mx) eqn:Hcmp;
      [apply ltb_lt in Hcmp | apply ltb_ge in Hcmp].
    + destruct (IH (M (X i)) (X i)) as (F & r & Heq & Hmax & Hsame & Hnew).
      exists F, r. split; [done|]. rewrite fmap_cons.
      destruct (is_max_of_cons_le _ _ _ Hmax) as [HiF _].
      split; [apply is_max_of_replace; [by apply Qclt_le_weak | done]|].
      split.
      { intros ->. exfalso. by apply (Qclt_not_le _ _ Hcmp). }
      intros _. destruct (decide (F = M (X i))) as [HF|HF].
      * exists 0%nat, i. split; [done|]. split; [done|].
        split; [by apply Hsame|]. intros ??? Hlt. inversion Hlt.
      * destruct (Hnew HF) as (k & i' & Hk & Hi' & Hr & Hbefore).
        exists (S k), i'. split; [done|]. split; [done|]. split; [done|].
        intros [|j] i'' Hj Hlt; simplify_eq/=.
        -- apply Qcle_lt_or_eq in HiF as [?|?]; [done|congruence].
        -- eapply Hbefore; [done|lia].
    + destruct (IH mx res) as (F & r & Heq & Hmax & Hsame & Hnew).
      exists F, r. split; [done|]. rewrite fmap_cons.
      split; [by apply is_max_of_skip|]. split; [done|].
      intros HF. destruct (Hnew HF) as (k & i' & Hk & Hi' & Hr & Hbefore).
      exists (S k), i'. split; [done|]. split; [done|]. split; [done|].
      destruct (is_max_of_cons_le _ _ _ Hmax) as [HmF _].
      intros [|j] i'' Hj Hlt; simplify_eq/=.
      * eapply Qcle_lt_trans; [exact Hcmp|].
        apply Qcle_lt_or_eq in HmF as [?|?]; [done|congruence].
      * eapply Hbefore; [done|lia].
Qed.

Lemma mom_loop l : 0%Z ∉ l → ∀ mx pts,
  ∃ F P, foldl (mom_step X M) (mx, pts) l = (F, P)
    ∧ is_max_of F (mx :: ((λ i, M (X i)) <$> l))
    ∧ P = if decide (F = mx)
          then pts ++ filter (near M F) (X <$> l)
          else filter (near M F) (from_first (attains M F) (X <$> l)).
Proof.
  induction l as [|i l IH]; intros H0 mx pts; cbn [foldl mom_step].
  - exists mx, pts. split; [done|]. split.
    + split; [left | repeat constructor; apply Qcle_refl].
    + rewrite decide_True by done. cbn. by rewrite app_nil_r.
  - apply not_elem_of_cons in H0 as [Hi H0].
    rewrite bool_decide_eq_false_2 by done. cbn [orb].
    rewrite !fmap_cons. cbn [from_first].
    destruct (M (X i) >? mx) eqn:Hcmp;
      [apply ltb_lt in Hcmp | apply ltb_ge in Hcmp].
    + destruct (IH H0 (M (X i)) [X i]) as (F & P & Heq & Hmax & HP).
      exists F, P. split; [done|].
      destruct (is_max_of_cons_le _ _ _ Hmax) as [HiF _].
      split; [apply is_max_of_replace; [by apply Qclt_le_weak | done]|].
      rewrite decide_False.
      2:{ intros ->. by apply (Qclt_not_le _ _ Hcmp). }
      rewrite HP. destruct (decide (F = M (X i))) as [HF|HF].
      * rewrite decide_True by done.
        rewrite filter_cons_True by (by apply near_self). done.
      * rewrite decide_False by (unfold attains; congruence). done.
    + destruct (Qcabs (M (X i) - mx) <? epsilon) eqn:Hnear;
        [apply ltb_lt in Hnear | apply ltb_ge in Hnear].
      * destruct (IH H0 mx (pts ++ [X i])) as (F & P & Heq & Hmax & HP).
        exists F, P. split; [done|].
        split; [by apply is_max_of_skip|].
        rewrite HP. destruct (decide (F = mx)) as [->|HF].
        -- rewrite filter_cons_True by done. by rewrite <- app_assoc.
        -- destruct (is_max_of_cons_le _ _ _ Hmax) as [HmF _].
           rewrite decide_False; [done|]. unfold attains. intros Hatt.
           apply HF. apply Qcle_antisym; [|done]. by rewrite <- Hatt.
      * destruct (IH H0 mx pts) as (F & P & Heq & Hmax & HP).
        exists F, P. split; [done|].
        split; [by apply is_max_of_skip|].
        rewrite HP. destruct (decide (F = mx)) as [->|HF].
        -- rewrite filter_cons_False; [done|].
           unfold near. by apply Qcle_not_lt.
        -- destruct (is_max_of_cons_le _ _ _ Hmax) as [HmF _].
           rewrite decide_False; [done|]. unfold attains. intros Hatt.
           apply HF. apply Qcle_antisym; [|done]. by rewrite <- Hatt.
Qed.

Lemma foldl_Qcplus l : ∀ a, foldl Qcplus a l = a + sum_list l.
Proof.
  induction l as [|x l IH]; intros a; cbn.
  - by rewrite Qcplus_0_r.
  - by rewrite IH, Qcplus_assoc.
Qed.
End loops.

Section defuzzification.
Context (range : ranger) (Hrange : range_ok range).
Context (DefaultResolution : Z).
Context (outputVar : variable.FuzzyVariable).
Context (memberships : gmap string Qc).

Local Abbreviation Sets := (variable.Sets outputVar).
Local Abbreviation m := (aggregated range outputVar memberships).

Lemma elem_of_range {A} (mp : gmap string A) k v :
  (k, v) ∈ range A mp ↔ mp !! k = Some v.
Proof. rewrite (Hrange A mp). apply elem_of_map_to_list. Qed.

(** The body of the inner loop. *)
Let body (x : Qc) (maxMembership : Qc) (entry : string * Qc) : Qc :=
  let '(setName, strength) := entry in
  match Sets !! setName with
  | Some outputSet =>
      let degree := set.Evaluate outputSet x * strength in
      if degree >? maxMembership then degree else maxMembership
  | None => maxMembership
  end.

Lemma aggregated_fold x :
  m x = foldl (body x) 0 (range _ memberships).
Proof. reflexivity. Qed.

Lemma body_fold_spec x l : ∀ acc,
  let r := foldl (body x) acc l in
  acc ≤ r
  ∧ (∀ k s outputSet, (k, s) ∈ l → Sets !! k = Some outputSet →
       set.Evaluate outputSet x * s ≤ r)
  ∧ (r = acc ∨ ∃ k s outputSet, (k, s) ∈ l ∧ Sets !! k = Some outputSet
                                ∧ r = set.Evaluate outputSet x * s).
Proof.
  induction l as [|[k s] l IH]; intros acc; cbn [foldl].
  - split; [apply Qcle_refl|]. split; [|by left].
    intros ??? Hin. by apply elem_of_nil in Hin.
  - destruct (IH (body x acc (k, s))) as (Hle & Hub & Hatt).
    assert (acc ≤ body x acc (k, s)) as Hacc.
    { cbn. destruct (Sets !! k); [|apply Qcle_refl].
      cmp; [by apply Qclt_le_weak | apply Qcle_refl]. }
    split; [by etrans|]. split.
    + intros k' s' outputSet [[= -> ->]|Hin]%elem_of_cons Hk'.
      * etrans; [|exact Hle]. cbn. rewrite Hk'. cmp; [apply Qcle_refl|done].
      * by eapply Hub.
    + destruct Hatt as [->|(k' & s' & outputSet & Hin & Hk' & ->)].
      * cbn. destruct (Sets !! k) as [outputSet|] eqn:Hk; [|by left].
        cmp; [|by left]. right. exists k, s, outputSet.
        split; [left|done].
      * right. exists k', s', outputSet. split; [by right|done].
Qed.

(** The aggregated membership is never negative. *)
Lemma aggregated_nonneg x : 0 ≤ m x.
Proof. rewrite aggregated_fold. apply body_fold_spec. Qed.

(** It bounds the clipped degree of every entry that names a set. *)
Lemma aggregated_upper x k s outputSet :
  memberships !! k = Some s → Sets !! k = Some outputSet →
  set.Evaluate outputSet x * s ≤ m x.
Proof.
  intros Hk Hs. rewrite aggregated_fold.
  eapply body_fold_spec; [|exact Hs]. by apply elem_of_range.
Qed.

(** It is 0 or the clipped degree of some entry. *)
Lemma aggregated_attained x :
  m x = 0 ∨ ∃ k s outputSet,
    memberships !! k = Some s ∧ Sets !! k = Some outputSet
    ∧ m x = set.Evaluate outputSet x * s.
Proof.
  rewrite aggregated_fold.
  destruct (body_fold_spec x (range _ memberships) 0) as (_ & _ & [?|H]);
    [by left|right].
  destruct H as (k & s & outputSet & Hin & Hk & Heq).
  exists k, s, outputSet. by rewrite <- elem_of_range.
Qed.

(** On a well-formed, non-empty aggregation map it is the maximum over
    the entries of the clipped degree. *)
Lemma aggregated_max x :
  wf_aggregation outputVar memberships → memberships ≠ ∅ →
  (∃ k s outputSet,
      memberships !! k = Some s ∧ Sets !! k = Some outputSet
      ∧ m x = set.Evaluate outputSet x * s)
  ∧ (∀ k s outputSet,
       memberships !! k = Some s → Sets !! k = Some outputSet →
       set.Evaluate outputSet x * s ≤ m x).
Proof.
  intros Hwf Hne. split; [|apply aggregated_upper].
  destruct (aggregated_attained x) as [H0|?]; [|done].
  apply map_choose in Hne as (k & s & Hk).
  destruct (Hwf k s Hk) as (Hs & outputSet & Hset & Hvalid).
  exists k, s, outputSet. split; [done|]. split; [done|].
  apply Qcle_antisym; [|by apply (aggregated_upper x k s outputSet)].
  rewrite H0. destruct (Hvalid x) as [Hx _]. qc_nra.
Qed.

(** *** The sampling *)

Context (R : Z) (HR : (0 < R)%Z).

Local Abbreviation x := (sample outputVar R).

Lemma sample_formula i :
  x i = variable.MinValue outputVar
        + float64 i * ((variable.MaxValue outputVar
                        - variable.MinValue outputVar) / float64 R).
Proof. reflexivity. Qed.

Lemma effective_resolution_pos :
  effective_resolution DefaultResolution R = R.
Proof. unfold effective_resolution. by rewrite bool_decide_eq_false_2 by lia. Qed.

Lemma elem_of_indices i : i ∈ indices R ↔ (0 ≤ i ≤ R)%Z.
Proof. unfold indices. rewrite elem_of_seqZ. lia. Qed.

Lemma length_indices : length (indices R) = Z.to_nat (R + 1).
Proof. apply length_seqZ. Qed.

Lemma lookup_indices k i :
  indices R !! k = Some i ↔ i = Z.of_nat k ∧ (Z.of_nat k ≤ R)%Z.
Proof. unfold indices. rewrite lookup_seqZ. lia. Qed.

Lemma indices_cons : indices R = 0%Z :: seqZ 1 R.
Proof.
  unfold indices. rewrite seqZ_cons by lia. f_equal. f_equal; lia.
Qed.

Lemma size_empty_iff : size memberships = 0%nat ↔ memberships = ∅.
Proof. apply map_size_empty_iff. Qed.

Lemma is_max_of_drop_floor F l :
  Forall (λ y, 0 ≤ y) l → l ≠ [] → is_max_of F (0 :: l) → is_max_of F l.
Proof.
  intros Hnn Hne [Hin Hle]. inversion Hle as [|?? H0 Hl]; subst.
  split; [|done]. apply elem_of_cons in Hin as [->|?]; [|done].
  destruct l as [|y l]; [done|]. inversion Hnn; inversion Hl; subst.
  assert (y = 0) as -> by by apply Qcle_antisym. left.
Qed.

Lemma samples_nonneg : Forall (λ y, 0 ≤ y) (m <$> (x <$> indices R)).
Proof.
  apply Forall_fmap, Forall_forall. intros ? _. apply aggregated_nonneg.
Qed.

Lemma samples_nonempty : m <$> (x <$> indices R) ≠ [].
Proof. by rewrite indices_cons. Qed.

(** The maximum over the scan is 0 exactly when every sample is 0. *)
Lemma max_zero_iff F :
  is_max_of F (m <$> (x <$> indices R)) →
  F = 0 ↔ ∀ i, (0 ≤ i ≤ R)%Z → m (x i) = 0.
Proof.
  intros [Hin Hle]. split.
  - intros -> i Hi. apply Qcle_antisym; [|apply aggregated_nonneg].
    rewrite Forall_forall in Hle. apply Hle.
    apply list_elem_of_fmap. exists (x i). split; [done|].
    apply list_elem_of_fmap. exists i. by rewrite elem_of_indices.
  - intros Hall. apply list_elem_of_fmap in Hin as (p & -> & Hp).
    apply list_elem_of_fmap in Hp as (i & -> & Hi).
    by apply Hall, elem_of_indices.
Qed.

Lemma from_first_attains (M : Qc → Qc) v xs :
  v ∈ M <$> xs →
  ∃ p rest, from_first (attains M v) xs = p :: rest ∧ attains M v p.
Proof.
  induction xs as [|p xs IH]; cbn [from_first]; [by intros ?%elem_of_nil|].
  rewrite fmap_cons. intros Hin. destruct (decide (attains M v p)).
  - by exists p, xs.
  - apply IH. apply elem_of_cons in Hin as [?|?]; [|done].
    unfold attains in *. congruence.
Qed.

(** *** The three defuzzifiers *)

Lemma COG_unfold :
  defuzzifyCOGWithResolution range DefaultResolution outputVar memberships R
  = let num := sum_list ((λ i, x i * m (x i)) <$> indices R) in
    let den := sum_list ((λ i, m (x i)) <$> indices R) in
    if decide (memberships = ∅ ∨ den = 0) then Err NoRulesFired
    else Ok (num / den).
Proof.
  unfold defuzzifyCOGWithResolution. rewrite effective_resolution_pos.
  destruct (decide (memberships = ∅)) as [->|Hne].
  { rewrite bool_decide_eq_true_2 by done. cbv zeta.
    by rewrite decide_True by by left. }
  rewrite bool_decide_eq_false_2 by by rewrite size_empty_iff.
  rewrite cog_loop, !Qcplus_0_l. cbv zeta.
  destruct (decide (sum_list ((λ i, m (x i)) <$> indices R) = 0)) as [E|E].
  - rewrite (proj2 (eqb_eq _ _) E). by rewrite decide_True by by right.
  - rewrite (proj2 (eqb_neq _ _) E). by rewrite decide_False by tauto.
Qed.

Lemma MOM_unfold :
  ∃ F, is_max_of F (m <$> (x <$> indices R)) ∧
    defuzzifyMOMWithResolution range DefaultResolution outputVar memberships R
    = if decide (memberships = ∅ ∨ F = 0) then Err NoRulesFired
      else Ok (mean (filter (near m F)
                       (from_first (attains m F) (x <$> indices R)))).
Proof.
  unfold defuzzifyMOMWithResolution. rewrite effective_resolution_pos.
  rewrite indices_cons. cbn [foldl]. unfold mom_step at 2.
  rewrite (bool_decide_eq_true_2 (0%Z = 0%Z)) by done. cbn [orb].
  destruct (mom_loop x m (seqZ 1 R)) with (mx := m (x 0%Z)) (pts := [x 0%Z])
    as (F & P & -> & Hmax & HP).
  { rewrite elem_of_seqZ. lia. }
  exists F. rewrite !fmap_cons, <- list_fmap_compose. split; [done|].
  assert (P = filter (near m F)
                (from_first (attains m F) (x 0%Z :: (x <$> seqZ 1 R))))
    as HP'.
  { rewrite HP. cbn [from_first]. destruct (decide (F = m (x 0%Z))) as [E|E].
    - rewrite decide_True by done.
      by rewrite filter_cons_True by by apply near_self.
    - by rewrite decide_False by (unfold attains; congruence). }
  clear HP. rewrite <- HP'.
  destruct (decide (memberships = ∅)) as [->|Hne].
  { rewrite bool_decide_eq_true_2 by done. by rewrite decide_True by by left. }
  rewrite bool_decide_eq_false_2 by by rewrite size_empty_iff.
  assert (length P ≠ 0%nat) as Hlen.
  { destruct (from_first_attains m F (x 0%Z :: (x <$> seqZ 1 R)))
      as (p & rest & Hff & Hp).
    { destruct Hmax as [Hin _]. by rewrite fmap_cons, <- list_fmap_compose. }
    rewrite HP', Hff, filter_cons_True by by apply near_self. done. }
  rewrite bool_decide_eq_false_2 by done. cbn [orb].
  destruct (decide (F = 0)) as [E|E].
  - rewrite (proj2 (eqb_eq _ _) E). by rewrite decide_True by by right.
  - rewrite (proj2 (eqb_neq _ _) E). rewrite decide_False by tauto.
    unfold mean. by rewrite foldl_Qcplus, Qcplus_0_l.
Qed.

Lemma FOM_unfold :
  ∃ F, is_max_of F (m <$> (x <$> indices R)) ∧
    (memberships = ∅ ∨ F = 0 →
     defuzzifyFOMWithResolution range DefaultResolution outputVar
       memberships R = Err NoRulesFired)
    ∧ (memberships ≠ ∅ → F ≠ 0 →
       ∃ k, (0 ≤ k ≤ R)%Z ∧ m (x k) = F
            ∧ (∀ j, (0 ≤ j < k)%Z → m (x j) < F)
            ∧ defuzzifyFOMWithResolution range DefaultResolution outputVar
                memberships R = Ok (x k)).
Proof.
  unfold defuzzifyFOMWithResolution. rewrite effective_resolution_pos.
  destruct (fom_loop x m (indices R) 0 (variable.MinValue outputVar))
    as (F & r & -> & Hmax & _ & Hnew).
  assert (is_max_of F (m <$> (x <$> indices R))) as Hmax'.
  { apply is_max_of_drop_floor;
      [apply samples_nonneg | apply samples_nonempty |].
    rewrite <- list_fmap_compose. exact Hmax. }
  exists F. split; [done|]. split.
  - intros [-> | ->].
    + by rewrite bool_decide_eq_true_2 by done.
    + destruct (bool_decide _); [done|].
      by rewrite (proj2 (eqb_eq _ _) eq_refl).
  - intros Hne HF.
    rewrite bool_decide_eq_false_2 by by rewrite size_empty_iff.
    rewrite (proj2 (eqb_neq _ _) HF).
    destruct (Hnew HF) as (k & i & Hk & Hi & -> & Hbefore).
    apply lookup_indices in Hk as [-> Hk].
    exists (Z.of_nat k). split; [lia|]. split; [done|]. split; [|done].
    intros j Hj. apply (Hbefore (Z.to_nat j) j); [|lia].
    apply lookup_indices. lia.
Qed.
End defuzzification.

(** C1: for a resolution [R > 0], centroid defuzzification samples the
    [R + 1] points [x i = min + i * ((max - min) / R)], [i = 0..R], and
    returns the quotient of the sum of [x i * m (x i)] by the sum of
    [m (x i)]; it fails exactly when the aggregation map is empty or that
    denominator is 0.  [m x] is never negative, bounds the degree at [x]
    times the strength of every entry that names a set of the variable,
    and is 0 or one of these products; on a well-formed, non-empty
    aggregation map it is the maximum over the entries of the set's degree
    at [x] times the entry's strength. *)
Theorem C1_centroid (range : ranger) (DefaultResolution : Z)
    (outputVar : variable.FuzzyVariable) (memberships : gmap string Qc)
    (R : Z) :
  range_ok range → (0 < R)%Z →
  let x := λ i : Z,
    variable.MinValue outputVar
    + float64 i * ((variable.MaxValue outputVar
                    - variable.MinValue outputVar) / float64 R) in
  let m := aggregated range outputVar memberships in
  let num := sum_list ((λ i, x i * m (x i)) <$> seqZ 0 (R + 1)) in
  let den := sum_list ((λ i, m (x i)) <$> seqZ 0 (R + 1)) in
  let cog :=
    defuzzifyCOGWithResolution range DefaultResolution outputVar memberships R
  in
  (∀ i, i ∈ seqZ 0 (R + 1) ↔ (0 ≤ i ≤ R)%Z)
  ∧ length (seqZ 0 (R + 1)) = Z.to_nat (R + 1)
  ∧ (is_Err cog ↔ memberships = ∅ ∨ den = 0)
  ∧ (memberships ≠ ∅ → den ≠ 0 → cog = Ok (num / den))
  ∧ (memberships = ∅ ∨ den = 0 → cog = Err NoRulesFired)
  ∧ (∀ p,
       0 ≤ m p
       ∧ (∀ setName strength outputSet,
            memberships !! setName = Some strength →
            variable.Sets outputVar !! setName = Some outputSet →
            set.Evaluate outputSet p * strength ≤ m p)
       ∧ (m p = 0
          ∨ ∃ setName strength outputSet,
              memberships !! setName = Some strength
              ∧ variable.Sets outputVar !! setName = Some outputSet
              ∧ m p = set.Evaluate outputSet p * strength))
  ∧ (wf_aggregation outputVar memberships → memberships ≠ ∅ →
     ∀ p,
       (∃ setName strength outputSet,
           memberships !! setName = Some strength
           ∧ variable.Sets outputVar !! setName = Some outputSet
           ∧ m p = set.Evaluate outputSet p * strength)
       ∧ (∀ setName strength outputSet,
            memberships !! setName = Some strength →
            variable.Sets outputVar !! setName = Some outputSet →
            set.Evaluate outputSet p * strength ≤ m p)).
Proof.
  intros Hrange HR x m num den cog.
  split; [apply (elem_of_indices R)|].
  split; [apply length_seqZ|].
  assert (cog = if decide (memberships = ∅ ∨ den = 0) then Err NoRulesFired
                else Ok (num / den)) as Hcog
    by apply (COG_unfold range DefaultResolution outputVar memberships R HR).
  split; [|split; [|split; [|split]]].
  - rewrite Hcog. destruct (decide _); cbn; tauto.
  - intros ??. rewrite Hcog. by rewrite decide_False by tauto.
  - intros ?. rewrite Hcog. by rewrite decide_True.
  - intros p. split; [apply aggregated_nonneg|].
    split; [by apply aggregated_upper | by apply aggregated_attained].
  - intros Hwf Hne p. by apply aggregated_max.
Qed.

(** C3, as the code has it: for a resolution [R > 0] and a non-empty
    aggregation map, mean-of-maximum defuzzification returns the arithmetic
    mean of the sample points that, from the first sample attaining the
    maximum [F] of [m] over the scan on, have [m] within 1e-9 of [F]
    (samples before that first one are not collected, however close); it
    fails exactly when the map is empty or that maximum is 0, [m] being
    never negative. *)
Theorem C3_mean_of_maximum (range : ranger) (DefaultResolution : Z)
    (outputVar : variable.FuzzyVariable) (memberships : gmap string Qc)
    (R : Z) :
  range_ok range → (0 < R)%Z →
  let x := λ i : Z,
    variable.MinValue outputVar
    + float64 i * ((variable.MaxValue outputVar
                    - variable.MinValue outputVar) / float64 R) in
  let m := aggregated range outputVar memberships in
  let xs := x <$> seqZ 0 (R + 1) in
  let mom :=
    defuzzifyMOMWithResolution range DefaultResolution outputVar memberships R
  in
  ∃ F,
    is_max_of F (m <$> xs) ∧ 0 ≤ F
    ∧ (F = 0 ↔ ∀ i, (0 ≤ i ≤ R)%Z → m (x i) = 0)
    ∧ (is_Err mom ↔ memberships = ∅ ∨ F = 0)
    ∧ (memberships = ∅ ∨ F = 0 → mom = Err NoRulesFired)
    ∧ (memberships ≠ ∅ → F ≠ 0 →
       mom = Ok (mean (filter (near m F) (from_first (attains m F) xs)))).
Proof.
  intros Hrange HR x m xs mom.
  destruct (MOM_unfold range DefaultResolution outputVar memberships R HR)
    as (F & Hmax & Hmom).
  fold mom in Hmom. exists F. split; [exact Hmax|].
  split.
  { destruct Hmax as [Hin _].
    apply list_elem_of_fmap in Hin as (p & -> & _).
    by apply aggregated_nonneg. }
  split; [by apply max_zero_iff|].
  split; [|split].
  - rewrite Hmom. destruct (decide _); cbn; tauto.
  - intros ?. rewrite Hmom. by rewrite decide_True.
  - intros ??. rewrite Hmom. by rewrite decide_False by tauto.
Qed.

(** C4, as the code has it: for a resolution [R > 0] and a non-empty
    aggregation map, first-of-maximum defuzzification returns the first
    sample point, in ascending order of [i], that attains the maximum of
    [m] over the scan — the last point at which the running maximum
    strictly increased; it fails exactly when the map is empty or every
    [m (x i)] is 0. *)
Theorem C4_first_of_maximum (range : ranger) (DefaultResolution : Z)
    (outputVar : variable.FuzzyVariable) (memberships : gmap string Qc)
    (R : Z) :
  range_ok range → (0 < R)%Z →
  let x := λ i : Z,
    variable.MinValue outputVar
    + float64 i * ((variable.MaxValue outputVar
                    - variable.MinValue outputVar) / float64 R) in
  let m := aggregated range outputVar memberships in
  let fom :=
    defuzzifyFOMWithResolution range DefaultResolution outputVar memberships R
  in
  let nothing_fired := ∀ i, (0 ≤ i ≤ R)%Z → m (x i) = 0 in
  (is_Err fom ↔ memberships = ∅ ∨ nothing_fired)
  ∧ (memberships = ∅ ∨ nothing_fired → fom = Err NoRulesFired)
  ∧ (memberships ≠ ∅ → ¬ nothing_fired →
     ∃ k, (0 ≤ k ≤ R)%Z
          ∧ (∀ i, (0 ≤ i ≤ R)%Z → m (x i) ≤ m (x k))
          ∧ (∀ j, (0 ≤ j < k)%Z → m (x j) < m (x k))
          ∧ fom = Ok (x k)).
Proof.
  intros Hrange HR x m fom nothing_fired.
  destruct (FOM_unfold range DefaultResolution outputVar memberships R HR)
    as (F & Hmax & Hfail & Hok).
  fold fom in Hfail, Hok.
  pose proof (max_zero_iff range outputVar memberships R F Hmax) as Hzero.
  change (F = 0 ↔ nothing_fired) in Hzero.
  assert (memberships = ∅ ∨ nothing_fired → fom = Err NoRulesFired) as Hfail'.
  { intros [?|?]; apply Hfail; [by left | right; by apply Hzero]. }
  assert (memberships ≠ ∅ → ¬ nothing_fired →
          ∃ k, (0 ≤ k ≤ R)%Z
               ∧ (∀ i, (0 ≤ i ≤ R)%Z → m (x i) ≤ m (x k))
               ∧ (∀ j, (0 ≤ j < k)%Z → m (x j) < m (x k))
               ∧ fom = Ok (x k)) as Hok'.
  { intros Hne Hnz. destruct (Hok Hne) as (k & Hk & HkF & Hbefore & Hres).
    { intros ?. by apply Hnz, Hzero. }
    change (m (x k) = F) in HkF.
    exists k. split; [done|]. rewrite HkF. split; [|done].
    intros i Hi. destruct Hmax as [_ Hle]. rewrite Forall_forall in Hle.
    apply Hle, list_elem_of_fmap. exists (x i). split; [done|].
    apply list_elem_of_fmap. exists i. split; [done|].
    by apply (elem_of_indices R). }
  split; [|done].
  split.
  - intros Herr. destruct (decide (memberships = ∅)); [by left|].
    right. destruct (decide (F = 0)) as [?|HF]; [by apply Hzero|].
    destruct Hok' as (k & _ & _ & _ & Hres); [done| |].
    + intros ?. by apply HF, Hzero.
    + rewrite Hres in Herr. done.
  - intros H. by rewrite Hfail'.
Qed.

(** The aggregation map of the test suite is well formed. *)
Lemma wf_fired : wf_aggregation example.FanSpeed example.fired.
Proof.
  apply map_Forall_insert_2; [|apply map_Forall_singleton].
  - split; [by_compute|]. exists (example.tri "Low" 0 0 50).2.
    split; [reflexivity|]. intros p.
    apply membership_facts.Triangular_Evaluate_in01.
  - split; [by_compute|]. exists (example.tri "High" 50 100 100).2.
    split; [reflexivity|]. intros p.
    apply membership_facts.Triangular_Evaluate_in01.
Defined.

Lemma C1_centroid_witness :
  defuzzifyCOGWithResolution example.range0 1000 example.FanSpeed
    example.fired 10 = Ok (float64 80)
  ∧ ∀ p, ∃ setName strength outputSet,
      example.fired !! setName = Some strength
      ∧ variable.Sets example.FanSpeed !! setName = Some outputSet
      ∧ aggregated example.range0 example.FanSpeed example.fired p
        = set.Evaluate outputSet p * strength.
Proof.
  destruct (C1_centroid example.range0 1000 example.FanSpeed example.fired 10)
    as (_ & _ & _ & Hok & _ & _ & Hmax); [intros A mp; reflexivity | lia |].
  split.
  - rewrite Hok; [f_equal|..]; by_compute.
  - intros p. apply Hmax; [exact wf_fired | by_compute].
Defined.

Lemma C3_mean_of_maximum_witness :
  ∃ F,
    let m := aggregated example.range0 example.FanSpeed example.mixed in
    let xs := sample example.FanSpeed 10 <$> seqZ 0 11 in
    is_max_of F (m <$> xs)
    ∧ defuzzifyMOMWithResolution example.range0 1000 example.FanSpeed
        example.mixed 10
      = Ok (mean (filter (near m F) (from_first (attains m F) xs))).
Proof.
  destruct (C3_mean_of_maximum example.range0 1000 example.FanSpeed
              example.mixed 10)
    as (F & Hmax & _ & Hzero & _ & _ & Hok);
    [intros A mp; reflexivity | lia |].
  exists F. split; [exact Hmax|]. apply Hok; [by_compute|].
  intros HF. pose proof (proj1 Hzero HF 9%Z ltac:(lia)) as H9.
  revert H9. by_compute.
Defined.

Lemma C4_first_of_maximum_witness :
  ∃ k, (0 ≤ k ≤ 10)%Z
    ∧ defuzzifyFOMWithResolution example.range0 1000 example.FanSpeed
        example.mixed 10
      = Ok (variable.MinValue example.FanSpeed
            + float64 k * ((variable.MaxValue example.FanSpeed
                            - variable.MinValue example.FanSpeed)
                           / float64 10)).
Proof.
  destruct (C4_first_of_maximum example.range0 1000 example.FanSpeed
              example.mixed 10)
    as (_ & _ & Hok); [intros A mp; reflexivity | lia |].
  destruct Hok as (k & Hk & _ & _ & Hres).
  - by_compute.
  - intros HF. specialize (HF 9%Z ltac:(lia)). revert HF. by_compute.
  - exists k. split; [exact Hk | exact Hres].
Defined.

(** C3 as stated fails: both samples of [Ramp] have an aggregated
    membership within 1e-9 of the maximum 1, so the claimed point set is
    [0; 1] with mean 1/2, but the first sample is dropped when the second
    one raises the running maximum, and 1 is returned. *)
Lemma C3_counterexample :
  let m := aggregated example.range0 example.Ramp example.up in
  let xs := sample example.Ramp 1 <$> seqZ 0 2 in
  is_max_of 1 (m <$> xs)
  ∧ filter (near m 1) xs = [float64 0; float64 1]
  ∧ mean [float64 0; float64 1] = Q2Qc (1 # 2)
  ∧ defuzzifyMOMWithResolution example.range0 1000 example.Ramp example.up 1
    = Ok (float64 1).
Proof.
  cbv zeta. split; [split|split; [|split]]; by_compute.
Qed.

(** C4 as stated fails: on [FanSpeed] with Low at 1/2 and High at 1, the
    sample 10 is the first whose aggregated membership strictly exceeds
    everything seen before it (the sample 0 has membership 0), but 90,
    the first sample attaining the maximum, is returned. *)
Lemma C4_counterexample :
  let m := aggregated example.range0 example.FanSpeed example.mixed in
  let x := sample example.FanSpeed 10 in
  m (x 0%Z) = 0
  ∧ m (x 0%Z) < m (x 1%Z)
  ∧ x 1%Z = float64 10
  ∧ defuzzifyFOMWithResolution example.range0 1000 example.FanSpeed
      example.mixed 10 = Ok (float64 90).
Proof.
  cbv zeta. repeat split; by_compute.
Qed.

End inference_facts.

(** ** The inference pipeline *)

Module infer_facts.
Import inference inference_facts.

Section validation.
Context (inputs : gmap string Qc).

Lemma validate_loop_None vars :
  validate_loop vars inputs = None
  ↔ ∀ name var, (name, var) ∈ vars → input_ok inputs name var.
Proof.
  induction vars as [|[n v] vars IH]; cbn [validate_loop].
  - split; [|done]. intros _ ?? Hin. by apply elem_of_nil in Hin.
  - destruct (inputs !! n) as [value|] eqn:En.
    + destruct (value <? variable.MinValue v) eqn:E1;
        [apply ltb_lt in E1 | apply ltb_ge in E1]; cbn [orb].
      { split; [done|]. intros H.
        destruct (H n v) as (value' & Hv & Hlo & _); [left|].
        simplify_eq. by apply Qclt_not_le in E1. }
      destruct (value >? variable.MaxValue v) eqn:E2;
        [apply ltb_lt in E2 | apply ltb_ge in E2].
      { split; [done|]. intros H.
        destruct (H n v) as (value' & Hv & _ & Hhi); [left|].
        simplify_eq. by apply Qclt_not_le in E2. }
      rewrite IH. split.
      * intros H name var [[= -> ->]|Hin]%elem_of_cons; [|by apply H].
        by exists value.
      * intros H name var Hin. apply H. by right.
    + split; [done|]. intros H.
      destruct (H n v) as (value' & Hv & _); [left|]. congruence.
Qed.

Lemma validate_loop_Some vars e :
  validate_loop vars inputs = Some e →
  ∃ name var, (name, var) ∈ vars ∧ ¬ input_ok inputs name var
    ∧ ((inputs !! name = None ∧ e = MissingInput name)
       ∨ (∃ value, inputs !! name = Some value
                   ∧ e = OutOfBounds value name (variable.MinValue var)
                           (variable.MaxValue var))).
Proof.
  induction vars as [|[n v] vars IH]; cbn [validate_loop]; [done|].
  destruct (inputs !! n) as [value|] eqn:En.
  - destruct ((value <? variable.MinValue v)
              || (value >? variable.MaxValue v)) eqn:E.
    + intros [= <-]. exists n, v. split; [left|]. split.
      * intros (value' & Hv & Hlo & Hhi). simplify_eq.
        apply orb_true_iff in E as [E|E]; apply ltb_lt in E;
          by eapply Qclt_not_le.
      * right. by exists value.
    + intros H. destruct (IH H) as (name & var & Hin & Hrest).
      exists name, var. split; [by right | done].
  - intros [= <-]. exists n, v. split; [left|]. split.
    + intros (value' & Hv & _). congruence.
    + by left.
Qed.

Lemma validate_loop_validation_error vars e :
  validate_loop vars inputs = Some e → is_validation_error e.
Proof.
  intros (?&?&_&_&[[_ ->]|(?&_&->)])%validate_loop_Some; exact I.
Qed.
End validation.

Lemma validate_loop_agree vars inputs inputs' :
  (∀ name var, (name, var) ∈ vars → inputs' !! name = inputs !! name) →
  validate_loop vars inputs' = validate_loop vars inputs.
Proof.
  induction vars as [|[n v] vars IH]; intros Hagree; cbn [validate_loop];
    [done|].
  rewrite (Hagree n v) by left.
  rewrite IH; [done|]. intros name var Hin. apply (Hagree name var).
  by right.
Qed.

Section pipeline.
Context (range : ranger) (Hrange : range_ok range).
Context (DefaultResolution : Z).

Lemma range_elem {A} (mp : gmap string A) k v :
  (k, v) ∈ range A mp ↔ mp !! k = Some v.
Proof. rewrite (Hrange A mp). apply elem_of_map_to_list. Qed.

Lemma range_NoDup {A} (mp : gmap string A) : NoDup (range A mp).*1.
Proof. rewrite (Hrange A mp). apply NoDup_fst_map_to_list. Qed.

Lemma range_list_to_map {A} (mp : gmap string A) :
  list_to_map (range A mp) = mp.
Proof.
  rewrite <- (list_to_map_to_list mp) at 2.
  apply list_to_map_proper; [apply range_NoDup | apply Hrange].
Qed.

(** *** Fuzzification *)

Lemma fuzzify_fold fis (l : list (string * Qc)) :
  ∀ (acc : gmap string (gmap string Qc)) (k : string),
  NoDup l.*1 →
  foldl (λ membershipMap '(varName, crispValue),
           match InputVariables fis !! varName with
           | Some inputVar =>
               <[varName := variable.Fuzzify range inputVar crispValue]>
                 membershipMap
           | None => membershipMap
           end) acc l !! k
  = match (list_to_map l : gmap string Qc) !! k,
          InputVariables fis !! k with
    | Some value, Some inputVar =>
        Some (variable.Fuzzify range inputVar value)
    | _, _ => acc !! k
    end.
Proof.
  induction l as [|[n v] l IH]; intros acc k Hnd; cbn [foldl].
  - cbn. rewrite lookup_empty. done.
  - cbn [fmap list_fmap fst] in Hnd. apply NoDup_cons in Hnd as [Hn Hnd].
    rewrite IH by done. cbn [list_to_map foldr uncurry].
    destruct (decide (k = n)) as [->|Hne].
    + rewrite lookup_insert_eq.
      rewrite (not_elem_of_list_to_map_1 l n) by done.
      destruct (InputVariables fis !! n); [|done].
      by rewrite lookup_insert_eq.
    + rewrite lookup_insert_ne by done.
      destruct (InputVariables fis !! n); [|done].
      by rewrite lookup_insert_ne by done.
Qed.

(** The membership map holds the fuzzification of every provided input
    that is configured, and nothing else. *)
Lemma fuzzify_lookup fis inputs k :
  fuzzify range fis inputs !! k
  = match inputs !! k, InputVariables fis !! k with
    | Some value, Some inputVar =>
        Some (variable.Fuzzify range inputVar value)
    | _, _ => None
    end.
Proof.
  unfold fuzzify. rewrite fuzzify_fold by apply range_NoDup.
  rewrite range_list_to_map, lookup_empty. done.
Qed.

Lemma fuzzify_agree fis inputs inputs' :
  (∀ name, is_Some (InputVariables fis !! name) →
           inputs' !! name = inputs !! name) →
  fuzzify range fis inputs' = fuzzify range fis inputs.
Proof.
  intros Hagree. apply map_eq. intros k. rewrite !fuzzify_lookup.
  destruct (InputVariables fis !! k) as [var|] eqn:Ek.
  - by rewrite Hagree by by rewrite Ek.
  - by destruct (inputs' !! k), (inputs !! k).
Qed.

(** [Infer] reads the inputs at the configured names only. *)
Lemma Infer_agree fis inputs inputs' :
  (∀ name, is_Some (InputVariables fis !! name) →
           inputs' !! name = inputs !! name) →
  Infer range DefaultResolution fis inputs'
  = Infer range DefaultResolution fis inputs.
Proof.
  intros Hagree. unfold Infer.
  rewrite (validate_loop_agree _ inputs inputs').
  - by rewrite (fuzzify_agree fis inputs inputs').
  - intros name var Hin. apply Hagree. apply range_elem in Hin.
    by rewrite Hin.
Qed.

(** *** The stages after validation *)

Lemma Infer_configured fis inputs :
  InputVariables fis ≠ ∅ → OutputVariables fis ≠ ∅ → Rules fis ≠ [] →
  Infer range DefaultResolution fis inputs
  = match validate_loop (range _ (InputVariables fis)) inputs with
    | Some e => Err e
    | None =>
        match fire_rules (Rules fis) (fuzzify range fis inputs)
                (init_outputs range fis) with
        | Err e => Err e
        | Ok outputMemberships =>
            defuzzify_loop range DefaultResolution fis
              (range _ (OutputVariables fis)) outputMemberships ∅
        end
    end.
Proof.
  intros Hin Hout Hrules. unfold Infer.
  rewrite !bool_decide_eq_false_2; [done|..].
  - by destruct (Rules fis).
  - by rewrite map_size_empty_iff.
  - by rewrite map_size_empty_iff.
Qed.

Lemma fire_rules_error rules membershipMap : ∀ outputMemberships e,
  fire_rules rules membershipMap outputMemberships = Err e →
  ∃ e', e = EvaluatingRule e'.
Proof.
  induction rules as [|r rules IH]; intros om e; cbn [fire_rules]; [done|].
  destruct (rule.Evaluate r membershipMap) as [s|e'].
  - apply IH.
  - intros [= <-]. by exists e'.
Qed.

Lemma defuzzify_loop_error fis vars outputMemberships : ∀ results e,
  defuzzify_loop range DefaultResolution fis vars outputMemberships results
  = Err e →
  ∃ varName outputVar,
    (varName, outputVar) ∈ vars
    ∧ ∃ e', e = DefuzzificationFailed varName e'
            ∧ defuzzify range DefaultResolution (DefuzzMethod fis) outputVar
                (default ∅ (outputMemberships !! varName)) (Resolution fis)
              = Err e'.
Proof.
  induction vars as [|[n v] vars IH]; intros results e;
    cbn [defuzzify_loop]; [done|].
  destruct (defuzzify _ _ _ _ _ _) as [res|e'] eqn:E.
  - intros H. destruct (IH _ _ H) as (n' & v' & Hin & Hrest).
    exists n', v'. split; [by right | done].
  - intros [= <-]. exists n, v. split; [left|]. by exists e'.
Qed.

Lemma defuzzify_loop_fails fis vars outputMemberships varName outputVar :
  (varName, outputVar) ∈ vars →
  is_Err (defuzzify range DefaultResolution (DefuzzMethod fis) outputVar
            (default ∅ (outputMemberships !! varName)) (Resolution fis)) →
  ∀ results,
    is_Err (defuzzify_loop range DefaultResolution fis vars
              outputMemberships results).
Proof.
  induction vars as [|[n v] vars IH]; intros Hin Hfail results;
    [by apply elem_of_nil in Hin|].
  cbn [defuzzify_loop].
  apply elem_of_cons in Hin as [[= <- <-]|Hin].
  - by destruct (defuzzify _ _ _ _ _ _).
  - destruct (defuzzify _ _ _ v _ _); [by apply IH | done].
Qed.

Lemma Infer_not_validation_error fis inputs e :
  InputVariables fis ≠ ∅ → OutputVariables fis ≠ ∅ → Rules fis ≠ [] →
  validate_loop (range _ (InputVariables fis)) inputs = None →
  Infer range DefaultResolution fis inputs = Err e →
  ¬ is_validation_error e.
Proof.
  intros Hin Hout Hrules Hval. rewrite Infer_configured, Hval by done.
  destruct (fire_rules _ _ _) as [om|e'] eqn:E.
  - intros (?&?&_&?&->&_)%defuzzify_loop_error. cbn. tauto.
  - intros [= <-]. apply fire_rules_error in E as [? ->]. cbn. tauto.
Qed.

(** *** Defuzzification of an aggregation that fired nothing *)

Lemma sum_list_zero {A} (g : A → Qc) l :
  (∀ a, g a = 0) → sum_list (g <$> l) = 0.
Proof.
  intros Hg. induction l as [|a l IH]; [done|].
  cbn. fold (sum_list (g <$> l)). by rewrite Hg, IH.
Qed.

Lemma mom_loop_zero (X : Z → Qc) (M : Qc → Qc) l :
  (∀ p, M p = 0) → ∀ pts,
  ∃ P, foldl (mom_step X M) (0, pts) l = (0, P).
Proof.
  intros HM. induction l as [|i l IH]; intros pts; cbn [foldl].
  - by exists pts.
  - unfold mom_step at 2. rewrite HM.
    destruct (bool_decide (i = 0%Z) || (0 <? 0)); [apply IH|].
    destruct (Qcabs (0 - 0) <? epsilon); apply IH.
Qed.

Lemma fom_loop_zero (X : Z → Qc) (M : Qc → Qc) l r :
  (∀ p, M p = 0) → foldl (fom_step X M) (0, r) l = (0, r).
Proof.
  intros HM. induction l as [|i l IH]; cbn [foldl]; [done|].
  unfold fom_step at 2. rewrite HM.
  replace (0 <? 0) with false by by_compute. apply IH.
Qed.

Lemma aggregated_all_zero outputVar memberships p :
  all_zero memberships → aggregated range outputVar memberships p = 0.
Proof.
  intros Hzero.
  destruct (aggregated_attained range Hrange outputVar memberships p)
    as [?|(k & s & outputSet & Hk & _ & ->)]; [done|].
  rewrite (Hzero k s Hk). apply Qcmult_0_r.
Qed.

Lemma COG_no_rule_fired outputVar memberships resolution :
  all_zero memberships →
  defuzzifyCOGWithResolution range DefaultResolution outputVar memberships
    resolution = Err NoRulesFired.
Proof.
  intros Hzero. unfold defuzzifyCOGWithResolution.
  destruct (bool_decide _); [done|]. rewrite cog_loop.
  rewrite (sum_list_zero (λ i, aggregated range outputVar memberships _))
    by (intros; by apply aggregated_all_zero).
  by replace (0 + 0 =? 0) with true by by_compute.
Qed.

Lemma MOM_no_rule_fired outputVar memberships resolution :
  all_zero memberships →
  defuzzifyMOMWithResolution range DefaultResolution outputVar memberships
    resolution = Err NoRulesFired.
Proof.
  intros Hzero. unfold defuzzifyMOMWithResolution.
  destruct (bool_decide _); [done|].
  edestruct (mom_loop_zero
              (sample outputVar
                 (effective_resolution DefaultResolution resolution))
              (aggregated range outputVar memberships)) as [P ->].
  { intros. by apply aggregated_all_zero. }
  replace (0 =? 0) with true by by_compute.
  by rewrite orb_true_r.
Qed.

Lemma FOM_no_rule_fired outputVar memberships resolution :
  all_zero memberships →
  defuzzifyFOMWithResolution range DefaultResolution outputVar memberships
    resolution = Err NoRulesFired.
Proof.
  intros Hzero. unfold defuzzifyFOMWithResolution.
  destruct (bool_decide _); [done|].
  rewrite fom_loop_zero by (intros; by apply aggregated_all_zero).
  by replace (0 =? 0) with true by by_compute.
Qed.

Lemma defuzzify_no_rule_fired method outputVar memberships resolution :
  memberships = ∅ ∨ all_zero memberships →
  defuzzify range DefaultResolution method outputVar memberships resolution
  = Err NoRulesFired.
Proof.
  intros H.
  assert (all_zero memberships) as Hzero.
  { destruct H as [->|?]; [apply map_Forall_empty | done]. }
  unfold defuzzify.
  repeat case_bool_decide;
    auto using COG_no_rule_fired, MOM_no_rule_fired, FOM_no_rule_fired.
Qed.

(** The only failure of a defuzzifier is "no rules fired". *)
Lemma defuzzify_error method outputVar memberships resolution e :
  defuzzify range DefaultResolution method outputVar memberships resolution
  = Err e → e = NoRulesFired.
Proof.
  unfold defuzzify, defuzzifyCOGWithResolution, defuzzifyMOMWithResolution,
    defuzzifyFOMWithResolution.
  repeat case_bool_decide; try congruence;
    destruct (foldl _ _ _) as [a b];
    repeat match goal with
      | |- context [if ?c then _ else _] => destruct c
      end; congruence.
Qed.
End pipeline.

(** C5: when the inputs are valid and the rules evaluate, an output
    variable whose aggregation map is empty, or holds only strengths that
    are exactly 0, fails to defuzzify with "no rules fired" under every
    method, and [Infer] returns that failure, for some output variable
    that so fails, as the result of the whole call: no output map is
    returned.  When it is the only output variable that fails, the
    failure names it. *)
Theorem C5_no_rule_fired (range : ranger) (DefaultResolution : Z)
    (fis : MamdaniInferenceSystem) (inputs : gmap string Qc)
    (outputMemberships : gmap string (gmap string Qc))
    (varName : string) (outputVar : variable.FuzzyVariable) :
  range_ok range →
  InputVariables fis ≠ ∅ → OutputVariables fis ≠ ∅ → Rules fis ≠ [] →
  (∀ name var, InputVariables fis !! name = Some var →
               input_ok inputs name var) →
  fire_rules (Rules fis) (fuzzify range fis inputs) (init_outputs range fis)
  = Ok outputMemberships →
  OutputVariables fis !! varName = Some outputVar →
  default ∅ (outputMemberships !! varName) = ∅
  ∨ all_zero (default ∅ (outputMemberships !! varName)) →
  let defuzz := λ name var,
    defuzzify range DefaultResolution (DefuzzMethod fis) var
      (default ∅ (outputMemberships !! name)) (Resolution fis) in
  let infer := Infer range DefaultResolution fis inputs in
  defuzz varName outputVar = Err NoRulesFired
  ∧ (∃ name var,
        OutputVariables fis !! name = Some var
        ∧ defuzz name var = Err NoRulesFired
        ∧ infer = Err (DefuzzificationFailed name NoRulesFired))
  ∧ ((∀ name var, OutputVariables fis !! name = Some var →
                  name ≠ varName → ¬ is_Err (defuzz name var)) →
     infer = Err (DefuzzificationFailed varName NoRulesFired))
  ∧ (∀ results, infer ≠ Ok results).
Proof.
  intros Hrange Hin Hout Hrules Hvalid Hfire Hvar Hagg defuzz infer.
  assert (defuzz varName outputVar = Err NoRulesFired) as Hfail
    by by apply defuzzify_no_rule_fired.
  assert (infer = defuzzify_loop range DefaultResolution fis
                    (range _ (OutputVariables fis)) outputMemberships ∅)
    as Hinfer.
  { unfold infer. rewrite Infer_configured, Hfire by done.
    replace (validate_loop _ _) with (@None error); [done|].
    symmetry. apply validate_loop_None. intros name var Hel.
    apply Hvalid. by apply (range_elem range Hrange). }
  assert (∃ name var,
             OutputVariables fis !! name = Some var
             ∧ defuzz name var = Err NoRulesFired
             ∧ infer = Err (DefuzzificationFailed name NoRulesFired))
    as (name & var & Hname & Hdef & Hres).
  { rewrite Hinfer.
    destruct (defuzzify_loop range DefaultResolution fis
                (range _ (OutputVariables fis)) outputMemberships ∅)
      as [results|e] eqn:E.
    - exfalso.
      pose proof (defuzzify_loop_fails range DefaultResolution fis
                    (range _ (OutputVariables fis)) outputMemberships
                    varName outputVar) as Hloop.
      specialize (Hloop ltac:(by apply (range_elem range Hrange))).
      unfold defuzz in Hfail. rewrite Hfail in Hloop.
      specialize (Hloop I ∅). by rewrite E in Hloop.
    - apply defuzzify_loop_error in E
        as (name & var & Hel & e' & -> & He').
      pose proof (defuzzify_error _ _ _ _ _ _ _ He') as ->.
      exists name, var. split; [by apply (range_elem range Hrange)|].
      split; done. }
  split; [done|]. split; [by exists name, var|]. split.
  - intros Honly. destruct (decide (name = varName)) as [->|Hne];
      [done|].
    destruct (Honly name var Hname Hne). by rewrite Hdef.
  - intros results. by rewrite Hres.
Qed.

(** C8: the method names "lom" and "som" are accepted and make [Infer]
    return exactly what it returns under "fom": all three dispatch to the
    first-of-maximum loop. *)
Theorem C8_lom_som_alias_fom (range : ranger) (DefaultResolution : Z)
    (fis : MamdaniInferenceSystem) (inputs : gmap string Qc) :
  let fom := SetDefuzzificationMethod fis DefuzzFOM in
  let lom := SetDefuzzificationMethod fis DefuzzLOM in
  let som := SetDefuzzificationMethod fis DefuzzSOM in
  fom.2 = None ∧ lom.2 = None ∧ som.2 = None
  ∧ DefuzzMethod lom.1 = "lom" ∧ DefuzzMethod som.1 = "som"
  ∧ Infer range DefaultResolution lom.1 inputs
    = Infer range DefaultResolution fom.1 inputs
  ∧ Infer range DefaultResolution som.1 inputs
    = Infer range DefaultResolution fom.1 inputs
  ∧ (∀ method outputVar memberships resolution,
       method = DefuzzFOM ∨ method = DefuzzLOM ∨ method = DefuzzSOM →
       defuzzify range DefaultResolution method outputVar memberships
         resolution
       = defuzzifyFOMWithResolution range DefaultResolution outputVar
           memberships resolution).
Proof.
  assert (∀ method outputVar memberships resolution,
            method = DefuzzFOM ∨ method = DefuzzLOM ∨ method = DefuzzSOM →
            defuzzify range DefaultResolution method outputVar memberships
              resolution
            = defuzzifyFOMWithResolution range DefaultResolution outputVar
                memberships resolution) as Hdispatch.
  { intros method outputVar memberships resolution [->| [->| ->]];
      reflexivity. }
  assert (∀ method vars outputMemberships results,
            method = DefuzzLOM ∨ method = DefuzzSOM →
            defuzzify_loop range DefaultResolution
              (SetDefuzzificationMethod fis method).1 vars outputMemberships
              results
            = defuzzify_loop range DefaultResolution
                (SetDefuzzificationMethod fis DefuzzFOM).1 vars
                outputMemberships results) as Hloop.
  { intros method vars om results Hm.
    revert results. induction vars as [|[n v] vars IH]; intros results;
      cbn [defuzzify_loop]; [done|].
    replace (defuzzify range DefaultResolution
               (DefuzzMethod (SetDefuzzificationMethod fis method).1) v
               (default ∅ (om !! n))
               (Resolution (SetDefuzzificationMethod fis method).1))
      with (defuzzify range DefaultResolution
              (DefuzzMethod (SetDefuzzificationMethod fis DefuzzFOM).1) v
              (default ∅ (om !! n))
              (Resolution (SetDefuzzificationMethod fis DefuzzFOM).1)).
    - destruct (defuzzify _ _ _ _ _ _); [apply IH | done].
    - destruct Hm as [-> | ->]; reflexivity. }
  cbv zeta. repeat split; try reflexivity; try exact Hdispatch.
  - unfold Infer. cbn [SetDefuzzificationMethod]. 
    repeat case_bool_decide; try done.
    destruct (validate_loop _ _); [done|].
    destruct (fire_rules _ _ _); [|done].
    apply Hloop. by left.
  - unfold Infer. repeat case_bool_decide; try done.
    destruct (validate_loop _ _); [done|].
    destruct (fire_rules _ _ _); [|done].
    apply Hloop. by right.
Qed.

(** C9: on a configured engine, [Infer] fails with a validation error as
    soon as a configured input variable is absent from the inputs or has a
    value strictly outside its domain; when that variable is the only
    offending one the error is, respectively, "missing required input
    variable: <Name>" and the two-decimal out-of-bounds text; the two ends
    of the domain are accepted. *)
Theorem C9_input_validation (range : ranger) (DefaultResolution : Z)
    (fis : MamdaniInferenceSystem) (inputs : gmap string Qc) :
  range_ok range →
  InputVariables fis ≠ ∅ → OutputVariables fis ≠ ∅ → Rules fis ≠ [] →
  let infer := Infer range DefaultResolution fis inputs in
  let others_ok := λ name : string,
    ∀ n var, InputVariables fis !! n = Some var → n ≠ name →
             input_ok inputs n var in
  (∀ name var,
     InputVariables fis !! name = Some var → inputs !! name = None →
     (∃ e, infer = Err e ∧ is_validation_error e)
     ∧ (others_ok name →
        infer = Err (MissingInput name)
        ∧ Error (MissingInput name)
          = "missing required input variable: " +:+ name))
  ∧ (∀ name var value,
       InputVariables fis !! name = Some var →
       inputs !! name = Some value →
       value < variable.MinValue var ∨ variable.MaxValue var < value →
       (∃ e, infer = Err e ∧ is_validation_error e)
       ∧ (others_ok name →
          infer = Err (OutOfBounds value name (variable.MinValue var)
                         (variable.MaxValue var))))
  ∧ Error (OutOfBounds (float64 (-10)) "Temperature" (float64 0)
             (float64 50))
    = "input value -10.00 for variable 'Temperature' is out of bounds [0.00, 50.00]"
  ∧ (∀ name var value,
       InputVariables fis !! name = Some var →
       inputs !! name = Some value →
       variable.MinValue var ≤ variable.MaxValue var →
       value = variable.MinValue var ∨ value = variable.MaxValue var →
       input_ok inputs name var
       ∧ ∀ v a b, infer ≠ Err (OutOfBounds v name a b))
  ∧ ((∀ name var, InputVariables fis !! name = Some var →
                  input_ok inputs name var) →
     ∀ e, infer = Err e → ¬ is_validation_error e).
Proof.
  intros Hrange Hin Hout Hrules infer others_ok.
  assert (infer = match validate_loop (range _ (InputVariables fis)) inputs
                  with
                  | Some e => Err e
                  | None =>
                      match fire_rules (Rules fis) (fuzzify range fis inputs)
                              (init_outputs range fis) with
                      | Err e => Err e
                      | Ok outputMemberships =>
                          defuzzify_loop range DefaultResolution fis
                            (range _ (OutputVariables fis))
                            outputMemberships ∅
                      end
                  end) as Hinfer by by apply Infer_configured.
  (* An offending variable makes the validation loop stop with an error
     about some offending variable. *)
  assert (∀ name var,
            InputVariables fis !! name = Some var →
            ¬ input_ok inputs name var →
            ∃ e, infer = Err e ∧ is_validation_error e
                 ∧ validate_loop (range _ (InputVariables fis)) inputs
                   = Some e) as Hstop.
  { intros name var Hname Hbad.
    destruct (validate_loop (range _ (InputVariables fis)) inputs)
      as [e|] eqn:E.
    - exists e. rewrite Hinfer. split; [done|]. split; [|done].
      by eapply validate_loop_validation_error.
    - exfalso. apply Hbad.
      eapply validate_loop_None; [exact E|].
      by apply (range_elem range Hrange). }
  (* When a single variable offends, the error is about it. *)
  assert (∀ name var e,
            InputVariables fis !! name = Some var → others_ok name →
            validate_loop (range _ (InputVariables fis)) inputs = Some e →
            (inputs !! name = None ∧ e = MissingInput name)
            ∨ (∃ value, inputs !! name = Some value
                        ∧ e = OutOfBounds value name (variable.MinValue var)
                                (variable.MaxValue var))) as Hsingle.
  { intros name var e Hname Hothers Hval.
    apply validate_loop_Some in Hval as (n & v & Hel & Hbad & Hcase).
    apply (range_elem range Hrange) in Hel.
    destruct (decide (n = name)) as [->|Hne].
    - by simplify_eq.
    - destruct Hbad. by apply Hothers. }
  split; [|split; [|split; [|split]]].
  - intros name var Hname Hmiss.
    assert (¬ input_ok inputs name var) as Hbad.
    { intros (value & Hv & _). congruence. }
    destruct (Hstop name var Hname Hbad) as (e & He & Hve & Hval).
    split; [by exists e|]. intros Hothers. split; [|done].
    destruct (Hsingle name var e Hname Hothers Hval)
      as [[_ ->]|(value & Hv & _)]; [done|congruence].
  - intros name var value Hname Hv Hout_of.
    assert (¬ input_ok inputs name var) as Hbad.
    { intros (value' & Hv' & Hlo & Hhi). simplify_eq.
      destruct Hout_of as [H|H]; by eapply Qclt_not_le. }
    destruct (Hstop name var Hname Hbad) as (e & He & Hve & Hval).
    split; [by exists e|]. intros Hothers.
    destruct (Hsingle name var e Hname Hothers Hval)
      as [[? _]|(value' & Hv' & ->)]; [congruence|].
    by simplify_eq.
  - by_compute.
  - intros name var value Hname Hv Hdom Hend.
    assert (input_ok inputs name var) as Hok.
    { exists value. split; [done|].
      destruct Hend as [-> | ->]; split; done || apply Qcle_refl. }
    split; [done|]. intros v a b He.
    rewrite Hinfer in He.
    destruct (validate_loop (range _ (InputVariables fis)) inputs)
      as [e|] eqn:E.
    + simplify_eq.
      apply validate_loop_Some in E as (n & v' & Hel & Hbad & Hcase).
      apply (range_elem range Hrange) in Hel.
      destruct Hcase as [[_ ?]|(? & _ & ?)]; [done|]. by simplify_eq.
    + destruct (fire_rules _ _ _) as [om|e'] eqn:Ef.
      * by apply defuzzify_loop_error in He as (?&?&_&?&?&_).
      * simplify_eq. by apply fire_rules_error in Ef as [? ?].
  - intros Hall e He.
    eapply (Infer_not_validation_error range DefaultResolution fis inputs);
      try done.
    apply validate_loop_None. intros name var Hel. apply Hall.
    by apply (range_elem range Hrange).
Qed.

(** C10: entries of the inputs map under names that are not configured
    input variables, whatever their values, change nothing: [Infer]
    returns the same outputs, or the same failure, as without them. *)
Theorem C10_extra_inputs_ignored (range : ranger) (DefaultResolution : Z)
    (fis : MamdaniInferenceSystem) (inputs extra : gmap string Qc) :
  range_ok range →
  dom extra ## dom (InputVariables fis) →
  Infer range DefaultResolution fis (extra ∪ inputs)
  = Infer range DefaultResolution fis inputs.
Proof.
  intros Hrange Hdisj. apply Infer_agree; [done|].
  intros name Hname. apply lookup_union_r.
  apply not_elem_of_dom. intros Hextra.
  apply (Hdisj name Hextra). by apply elem_of_dom.
Qed.

Lemma C5_no_rule_fired_witness :
  Infer example.range0 1000 (example.fan "fom" 10) example.freezing
  = Err (DefuzzificationFailed "FanSpeed" NoRulesFired)
  ∧ Error (DefuzzificationFailed "FanSpeed" NoRulesFired)
    = "defuzzification failed for variable 'FanSpeed': no rules fired: all membership degrees are zero".
Proof.
  destruct (C5_no_rule_fired example.range0 1000 (example.fan "fom" 10)
              example.freezing
              {[ "FanSpeed" := {[ "Low" := 0; "High" := 0 ]} ]}
              "FanSpeed" example.FanSpeed) as (_ & _ & Honly & _).
  - intros A mp. reflexivity.
  - apply map_non_empty_singleton.
  - apply map_non_empty_singleton.
  - discriminate.
  - intros name var Hname. unfold example.fan in Hname.
    cbn [InputVariables] in Hname.
    apply lookup_singleton_Some in Hname as [<- <-].
    exists (float64 0). split; [reflexivity | by_compute].
  - by_compute.
  - reflexivity.
  - right. by_compute.
  - split; [|reflexivity]. apply Honly.
    intros name var Hname Hne. unfold example.fan in Hname.
    cbn [OutputVariables] in Hname.
    apply lookup_singleton_Some in Hname as [<- <-]. by destruct Hne.
Defined.

Lemma C8_lom_som_alias_fom_witness :
  Infer example.range0 1000 (example.fan "lom" 10) example.hot
  = Infer example.range0 1000 (example.fan "fom" 10) example.hot
  ∧ Infer example.range0 1000 (example.fan "som" 10) example.hot
    = Infer example.range0 1000 (example.fan "fom" 10) example.hot.
Proof.
  destruct (C8_lom_som_alias_fom example.range0 1000
              (example.fan "centroid" 10) example.hot)
    as (_ & _ & _ & _ & _ & Hlom & Hsom & _).
  split; [exact Hlom | exact Hsom].
Defined.

Lemma C9_input_validation_witness :
  Infer example.range0 1000 (example.fan "mom" 10) example.too_cold
  = Err (OutOfBounds (float64 (-10)) "Temperature" (float64 0) (float64 50))
  ∧ Error (OutOfBounds (float64 (-10)) "Temperature" (float64 0)
             (float64 50))
    = "input value -10.00 for variable 'Temperature' is out of bounds [0.00, 50.00]".
Proof.
  destruct (C9_input_validation example.range0 1000 (example.fan "mom" 10)
              example.too_cold) as (_ & Hout & Htext & _).
  - intros A mp. reflexivity.
  - apply map_non_empty_singleton.
  - apply map_non_empty_singleton.
  - discriminate.
  - split; [|exact Htext].
    destruct (Hout "Temperature" example.Temperature (float64 (-10)))
      as [_ Hsingle].
    + reflexivity.
    + reflexivity.
    + left. by_compute.
    + apply Hsingle.
      intros n var Hn Hne. unfold example.fan in Hn.
      cbn [InputVariables] in Hn.
      apply lookup_singleton_Some in Hn as [<- <-]. by destruct Hne.
Defined.

Lemma C10_extra_inputs_ignored_witness :
  Infer example.range0 1000 (example.fan "centroid" 10)
    (example.stray ∪ example.hot)
  = Ok {[ "FanSpeed" := float64 80 ]}.
Proof.
  rewrite (C10_extra_inputs_ignored example.range0 1000
             (example.fan "centroid" 10) example.hot example.stray).
  - by_compute.
  - intros A mp. reflexivity.
  - by_compute.
Defined.

End infer_facts.

(** * Further properties of the code *)

(** ** Operators *)

Module operators_more.
Import operators operators_facts.

Lemma Apply_NOT_single v : (Apply NOT [v]).1 = 1 - clamp v.
Proof. cbn [Apply NotOperator_Apply]. by rewrite clamp_first_spec. Qed.

Lemma Apply_AND_min vs :
  vs ≠ [] → is_min_of (Apply AND vs).1 (clamp <$> vs).
Proof.
  intros Hne. cbn [Apply].
  by destruct (MinOperator_Apply_spec vs Hne) as (m & -> & Hmin).
Qed.

Lemma Apply_OR_max vs :
  vs ≠ [] → is_max_of (Apply OR vs).1 (clamp <$> vs).
Proof.
  intros Hne. cbn [Apply].
  by destruct (MaxOperator_Apply_spec vs Hne) as (m & -> & Hmax).
Qed.

Lemma is_min_of_perm v l l' : l ≡ₚ l' → is_min_of v l → is_min_of v l'.
Proof. intros Hp [Hin Hle]. split; by rewrite <- Hp. Qed.

Lemma is_max_of_perm v l l' : l ≡ₚ l' → is_max_of v l → is_max_of v l'.
Proof. intros Hp [Hin Hle]. split; by rewrite <- Hp. Qed.

Lemma complement_min_max m l :
  is_min_of m l → is_max_of (1 - m) ((λ v, 1 - v) <$> l).
Proof.
  intros [Hin Hle]. split.
  - apply list_elem_of_fmap. by exists m.
  - apply Forall_fmap. eapply Forall_impl; [exact Hle|].
    intros y Hy. cbn. qc_lra.
Qed.

Lemma complement_max_min m l :
  is_max_of m l → is_min_of (1 - m) ((λ v, 1 - v) <$> l).
Proof.
  intros [Hin Hle]. split.
  - apply list_elem_of_fmap. by exists m.
  - apply Forall_fmap. eapply Forall_impl; [exact Hle|].
    intros y Hy. cbn. qc_lra.
Qed.

Lemma complements_clamped (vs : list Qc) :
  clamp <$> ((λ v, (Apply NOT [v]).1) <$> vs)
  = (λ v, 1 - v) <$> (clamp <$> vs).
Proof.
  rewrite <- !list_fmap_compose. apply list_fmap_ext. intros _ v _.
  unfold compose. rewrite Apply_NOT_single. apply clamp_id, in01_complement, clamp_in01.
Qed.

(** The value an operator returns always lies in [0,1], whatever the
    values it is given. *)
Theorem Apply_result_in_unit_interval (op : Operator) (vs : list Qc) :
  in01 (Apply op vs).1.
Proof. apply Apply_in01. Qed.

(** The error an operator returns: AND and OR report the first value
    outside [0,1] of the whole sequence, NOT the first value when it is
    outside [0,1]; so AND and OR return no error exactly when every value
    lies in [0,1]. *)
Theorem Apply_error_reported (vs : list Qc) :
  (Apply AND vs).2 = first_invalid vs
  ∧ (Apply OR vs).2 = first_invalid vs
  ∧ (Apply NOT vs).2 = first_invalid (take 1 vs)
  ∧ (first_invalid vs = None ↔ Forall in01 vs).
Proof.
  split; [|split; [|split]].
  - destruct (decide (vs = [])) as [->|Hne]; [done|]. cbn [Apply].
    by destruct (MinOperator_Apply_spec vs Hne) as (m & -> & _).
  - destruct (decide (vs = [])) as [->|Hne]; [done|]. cbn [Apply].
    by destruct (MaxOperator_Apply_spec vs Hne) as (m & -> & _).
  - destruct vs as [|v vs]; [done|]. cbn [Apply NotOperator_Apply take].
    by rewrite clamp_first_spec.
  - split; [|apply first_invalid_None].
    intros Hnone. destruct (decide (Forall in01 vs)) as [|Hn]; [done|].
    by apply first_invalid_is_Some in Hn.
Qed.

(** The value AND and OR return does not depend on the order of the
    values. *)
Theorem Apply_value_order_independent (vs ws : list Qc) :
  vs ≡ₚ ws →
  (Apply AND vs).1 = (Apply AND ws).1 ∧ (Apply OR vs).1 = (Apply OR ws).1.
Proof.
  intros Hp. destruct (decide (vs = [])) as [->|Hne].
  { apply Permutation_nil_l in Hp as ->. done. }
  assert (ws ≠ []) as Hne'.
  { intros ->. by apply Permutation_nil_r in Hp. }
  assert (clamp <$> vs ≡ₚ clamp <$> ws) as Hpc by by rewrite Hp.
  split.
  - eapply is_min_of_unique; [|by apply Apply_AND_min].
    eapply is_min_of_perm; [exact Hpc|]. by apply Apply_AND_min.
  - eapply is_max_of_unique; [|by apply Apply_OR_max].
    eapply is_max_of_perm; [exact Hpc|]. by apply Apply_OR_max.
Qed.

Lemma Apply_value_order_independent_witness :
  (Apply AND [Q2Qc (1 # 2); Q2Qc (3 # 2); Q2Qc (1 # 4)]).1
  = (Apply AND [Q2Qc (1 # 4); Q2Qc (1 # 2); Q2Qc (3 # 2)]).1.
Proof.
  apply (Apply_value_order_independent
           [Q2Qc (1 # 2); Q2Qc (3 # 2); Q2Qc (1 # 4)]
           [Q2Qc (1 # 4); Q2Qc (1 # 2); Q2Qc (3 # 2)]).
  apply (bool_decide_unpack _). vm_compute. exact I.
Defined.

(** De Morgan: on a non-empty sequence, the complement of the AND of the
    values is the OR of their complements, and the complement of their OR
    is the AND of their complements, out-of-range values included. *)
Theorem Apply_de_morgan (vs : list Qc) :
  vs ≠ [] →
  let complements := (λ v, (Apply NOT [v]).1) <$> vs in
  (Apply NOT [(Apply AND vs).1]).1 = (Apply OR complements).1
  ∧ (Apply NOT [(Apply OR vs).1]).1 = (Apply AND complements).1.
Proof.
  intros Hne complements.
  assert (complements ≠ []) as Hne' by by destruct vs.
  rewrite !Apply_NOT_single.
  rewrite !clamp_id by apply Apply_in01.
  split.
  - eapply is_max_of_unique; [|by apply Apply_OR_max].
    unfold complements. rewrite complements_clamped.
    by apply complement_min_max, Apply_AND_min.
  - eapply is_min_of_unique; [|by apply Apply_AND_min].
    unfold complements. rewrite complements_clamped.
    by apply complement_max_min, Apply_OR_max.
Qed.

Lemma Apply_de_morgan_witness :
  (Apply NOT [(Apply AND [Q2Qc (1 # 2); Q2Qc (3 # 2)]).1]).1
  = (Apply OR [(Apply NOT [Q2Qc (1 # 2)]).1; (Apply NOT [Q2Qc (3 # 2)]).1]).1.
Proof.
  apply (Apply_de_morgan [Q2Qc (1 # 2); Q2Qc (3 # 2)]). discriminate.
Defined.



End operators_more.

(** ** Membership functions *)

Module membership_more.
Import membership membership_facts.

Lemma Qcdiv_le_mono (n1 n2 d : Qc) : n1 ≤ n2 → 0 < d → n1 / d ≤ n2 / d.
Proof.
  intros Hn Hd. unfold Qcdiv. apply Qcmult_le_compat_r; [done|].
  apply Qclt_le_weak. by apply Qcinv_pos.
Qed.

(** Order goals over [Qc] from the hypotheses. *)
Ltac ord :=
  first [ assumption
        | by apply Qclt_le_weak
        | qc_lra
        | let H := fresh in intros H; subst; qc_lra ].

(** Every comparison of the goal that the hypotheses decide is replaced
    by its value. *)
Ltac known :=
  repeat match goal with
    | |- context [ltb ?x ?y] =>
        first [ rewrite (proj2 (ltb_lt x y)) by ord
              | rewrite (proj2 (ltb_ge x y)) by ord ]
    | |- context [leb ?x ?y] =>
        first [ rewrite (proj2 (leb_le x y)) by ord
              | rewrite (proj2 (leb_gt x y)) by ord ]
    | |- context [eqb ?x ?y] =>
        first [ rewrite (proj2 (eqb_eq x y)) by (subst; reflexivity)
              | rewrite (proj2 (eqb_neq x y)) by ord ]
    | |- context [andb _ _] => progress cbn [andb]
    | |- context [orb _ _] => progress cbn [orb]
    | |- context [andb _ false] => rewrite andb_false_r
    | |- context [andb _ true] => rewrite andb_true_r
    | |- context [orb _ true] => rewrite orb_true_r
    | |- context [orb _ false] => rewrite orb_false_r
    end.

Lemma NewTriangular_Built a b c :
  a ≤ b ≤ c → NewTriangular a b c = Built (Triangular a b c).
Proof.
  intros [Hab Hbc]. unfold NewTriangular.
  rewrite (proj2 (ltb_ge b a)), (proj2 (ltb_ge c b)) by done. done.
Qed.

Lemma NewTriangular_Refused a b c :
  ¬ (a ≤ b ≤ c) → NewTriangular a b c = Refused (TriangularParams a b c).
Proof.
  intros Hn. unfold NewTriangular.
  destruct (b <? a) eqn:E1; [done|]. destruct (c <? b) eqn:E2; [done|].
  apply ltb_ge in E1, E2. by destruct Hn.
Qed.

(** The piecewise-linear shapes return a membership degree for every
    choice of parameters and every point, degenerate shapes included. *)
Theorem shapes_return_degrees :
  (∀ A B C x, in01 (Evaluate (Triangular A B C) x))
  ∧ (∀ A B C D x, in01 (Evaluate (Trapezoidal A B C D) x)).
Proof.
  split; intros; cbn [Evaluate].
  - apply Triangular_Evaluate_in01.
  - apply Trapezoidal_Evaluate_in01.
Qed.

Section triangular.
Context (a b c : Qc) (Hab : a ≤ b) (Hbc : b ≤ c).

Lemma tri_zero x :
  a < c → x ≤ a ∨ c ≤ x → Triangular_Evaluate a b c x = 0.
Proof.
  intros Hac [Hx|Hx]; unfold Triangular_Evaluate;
    destruct (decide (a = b)) as [->|Hne]; known; reflexivity.
Qed.

Lemma tri_rise x :
  a < x < b → Triangular_Evaluate a b c x = (x - a) / (b - a).
Proof. intros [Hx1 Hx2]. unfold Triangular_Evaluate. known. reflexivity. Qed.

Lemma tri_peak : a < b < c → Triangular_Evaluate a b c b = 1.
Proof. intros [H1 H2]. unfold Triangular_Evaluate. known. reflexivity. Qed.

Lemma tri_fall x :
  b < x < c → Triangular_Evaluate a b c x = (c - x) / (c - b).
Proof. intros [Hx1 Hx2]. unfold Triangular_Evaluate. known. reflexivity. Qed.

Lemma tri_impulse x :
  a = c → Triangular_Evaluate a b c x = if bool_decide (x = a) then 1 else 0.
Proof.
  intros <-. assert (b = a) as -> by by apply Qcle_antisym.
  unfold Triangular_Evaluate. known. unfold eqb. reflexivity.
Qed.

Lemma tri_rising x y :
  a < b < c → x ≤ y → y ≤ b →
  Triangular_Evaluate a b c x ≤ Triangular_Evaluate a b c y.
Proof.
  intros [H1 H2] Hxy Hyb.
  destruct (Qclt_le_dec a x) as [Hax|Hxa].
  2:{ rewrite (tri_zero x) by (by left || by etrans).
      apply Triangular_Evaluate_in01. }
  destruct (decide (y = b)) as [->|Hne].
  { rewrite tri_peak by done. apply Triangular_Evaluate_in01. }
  assert (y < b) as Hy.
  { apply Qcle_lt_or_eq in Hyb as [?|?]; [done|congruence]. }
  rewrite (tri_rise x), (tri_rise y).
  - apply Qcdiv_le_mono; qc_lra.
  - split; [by eapply Qclt_le_trans | done].
  - split; [done | by eapply Qcle_lt_trans].
Qed.

Lemma tri_falling x y :
  a < b < c → b ≤ x → x ≤ y →
  Triangular_Evaluate a b c y ≤ Triangular_Evaluate a b c x.
Proof.
  intros [H1 H2] Hbx Hxy.
  destruct (Qclt_le_dec y c) as [Hyc|Hcy].
  2:{ rewrite (tri_zero y) by (by right || by etrans).
      apply Triangular_Evaluate_in01. }
  destruct (decide (x = b)) as [->|Hne].
  { rewrite tri_peak by done. apply Triangular_Evaluate_in01. }
  assert (b < x) as Hx.
  { apply Qcle_lt_or_eq in Hbx as [?|?]; [done|congruence]. }
  rewrite (tri_fall x), (tri_fall y).
  - apply Qcdiv_le_mono; qc_lra.
  - split; [by eapply Qclt_le_trans | done].
  - split; [done | by eapply Qcle_lt_trans].
Qed.
End triangular.

Section trapezoidal.
Context (a b c d : Qc) (Hab : a ≤ b) (Hbc : b ≤ c) (Hcd : c ≤ d).

Lemma trap_zero x :
  a < d → x ≤ a ∨ d ≤ x → Trapezoidal_Evaluate a b c d x = 0.
Proof.
  intros Had [Hx|Hx]; unfold Trapezoidal_Evaluate;
    destruct (decide (a = b)) as [->|Hne1];
    destruct (decide (b = c)) as [->|Hne2]; known; reflexivity.
Qed.

Lemma trap_plateau x :
  a < x < d → b ≤ x ≤ c → Trapezoidal_Evaluate a b c d x = 1.
Proof.
  intros [Hx1 Hx2] [Hx3 Hx4]. unfold Trapezoidal_Evaluate.
  destruct (decide (a = b)) as [->|Hne1];
    destruct (decide (b = c)) as [->|Hne2];
    first [ exfalso; qc_lra | known; reflexivity ].
Qed.

Lemma trap_rise x :
  a < x < b → Trapezoidal_Evaluate a b c d x = (x - a) / (b - a).
Proof. intros [Hx1 Hx2]. unfold Trapezoidal_Evaluate. known. reflexivity. Qed.

Lemma trap_fall x :
  c < x < d → Trapezoidal_Evaluate a b c d x = (d - x) / (d - c).
Proof.
  intros [Hx1 Hx2]. unfold Trapezoidal_Evaluate.
  destruct (decide (a = b)) as [->|Hne1];
    destruct (decide (b = c)) as [->|Hne2]; known; reflexivity.
Qed.
End trapezoidal.

Lemma NewTrapezoidal_Built a b c d :
  a ≤ b ≤ c ≤ d → NewTrapezoidal a b c d = Built (Trapezoidal a b c d).
Proof.
  intros (Hab & Hbc & Hcd). unfold NewTrapezoidal. known. reflexivity.
Qed.

Lemma NewTrapezoidal_Refused a b c d :
  ¬ (a ≤ b ≤ c ≤ d) →
  NewTrapezoidal a b c d = Refused (TrapezoidalParams a b c d).
Proof.
  intros Hn. unfold NewTrapezoidal.
  destruct (b <? a) eqn:E1; [done|]. destruct (c <? b) eqn:E2; [done|].
  destruct (d <? c) eqn:E3; [done|].
  apply ltb_ge in E1, E2, E3. by destruct Hn.
Qed.

(** [NewTriangular] accepts exactly [a <= b <= c].  The function it
    returns is 0 up to [a] and from [c] on, rises linearly between [a]
    and [b], is 1 at a peak [b] strictly between [a] and [c], and falls
    linearly between [b] and [c]; when the three parameters coincide it is
    1 at that point and 0 elsewhere. *)
Theorem NewTriangular_shape (a b c : Qc) :
  (a ≤ b ≤ c → NewTriangular a b c = Built (Triangular a b c))
  ∧ (¬ (a ≤ b ≤ c) →
     NewTriangular a b c = Refused (TriangularParams a b c))
  ∧ (∀ mf x, NewTriangular a b c = Built mf →
       (a < c → x ≤ a ∨ c ≤ x → Evaluate mf x = 0)
       ∧ (a < x < b → Evaluate mf x = (x - a) / (b - a))
       ∧ (a < b < c → Evaluate mf b = 1)
       ∧ (b < x < c → Evaluate mf x = (c - x) / (c - b))
       ∧ (a = c → Evaluate mf x = if bool_decide (x = a) then 1 else 0)).
Proof.
  split; [apply NewTriangular_Built|].
  split; [apply NewTriangular_Refused|].
  intros mf x Hmf.
  destruct (decide (a ≤ b ≤ c)) as [[Hab Hbc]|Hn].
  2:{ rewrite NewTriangular_Refused in Hmf by done. done. }
  rewrite NewTriangular_Built in Hmf by done. injection Hmf as <-.
  cbn [Evaluate].
  split; [intros; by apply tri_zero|].
  split; [intros; by apply tri_rise|].
  split; [intros; by apply tri_peak|].
  split; [intros; by apply tri_fall|].
  intros; by apply tri_impulse.
Qed.

Lemma NewTriangular_shape_witness :
  Evaluate (Triangular (float64 0) (float64 5) (float64 10)) (float64 2)
  = (float64 2 - float64 0) / (float64 5 - float64 0).
Proof.
  destruct (NewTriangular_shape (float64 0) (float64 5) (float64 10))
    as (Hbuilt & _ & Hshape).
  destruct (Hshape (Triangular (float64 0) (float64 5) (float64 10))
              (float64 2)) as (_ & Hrise & _).
  - apply Hbuilt. split; by_compute.
  - apply Hrise. split; by_compute.
Defined.

(** A triangular function with [a < b < c] never decreases up to its
    peak [b] and never increases from it on. *)
Theorem Triangular_unimodal (a b c x y : Qc) :
  a < b < c → x ≤ y →
  (y ≤ b → Evaluate (Triangular a b c) x ≤ Evaluate (Triangular a b c) y)
  ∧ (b ≤ x → Evaluate (Triangular a b c) y ≤ Evaluate (Triangular a b c) x).
Proof.
  intros Habc Hxy. cbn [Evaluate]. destruct Habc as [Hab Hbc]. split.
  - intros Hy. apply tri_rising; try done; by apply Qclt_le_weak.
  - intros Hx. apply tri_falling; try done; by apply Qclt_le_weak.
Qed.

Lemma Triangular_unimodal_witness :
  Evaluate (Triangular (float64 0) (float64 5) (float64 10)) (float64 2)
  ≤ Evaluate (Triangular (float64 0) (float64 5) (float64 10)) (float64 4).
Proof.
  destruct (Triangular_unimodal (float64 0) (float64 5) (float64 10)
              (float64 2) (float64 4)) as [Hrise _].
  - split; by_compute.
  - by_compute.
  - apply Hrise. by_compute.
Defined.

(** [NewTrapezoidal] accepts exactly [a <= b <= c <= d].  The function it
    returns is 0 up to [a] and from [d] on, 1 on the plateau from [b] to
    [c] strictly inside the feet, and linear on the two slopes. *)
Theorem NewTrapezoidal_shape (a b c d : Qc) :
  (a ≤ b ≤ c ≤ d → NewTrapezoidal a b c d = Built (Trapezoidal a b c d))
  ∧ (¬ (a ≤ b ≤ c ≤ d) →
     NewTrapezoidal a b c d = Refused (TrapezoidalParams a b c d))
  ∧ (∀ mf x, NewTrapezoidal a b c d = Built mf →
       (a < d → x ≤ a ∨ d ≤ x → Evaluate mf x = 0)
       ∧ (a < x < d → b ≤ x ≤ c → Evaluate mf x = 1)
       ∧ (a < x < b → Evaluate mf x = (x - a) / (b - a))
       ∧ (c < x < d → Evaluate mf x = (d - x) / (d - c))).
Proof.
  split; [apply NewTrapezoidal_Built|].
  split; [apply NewTrapezoidal_Refused|].
  intros mf x Hmf.
  destruct (decide (a ≤ b ≤ c ≤ d)) as [(Hab & Hbc & Hcd)|Hn].
  2:{ rewrite NewTrapezoidal_Refused in Hmf by done. done. }
  rewrite NewTrapezoidal_Built in Hmf by done. injection Hmf as <-.
  cbn [Evaluate].
  split; [intros; by apply trap_zero|].
  split; [intros; by apply trap_plateau|].
  split; [intros; by apply trap_rise|].
  intros; by apply trap_fall.
Qed.

Lemma NewTrapezoidal_shape_witness :
  Evaluate (Trapezoidal (float64 0) (float64 2) (float64 4) (float64 6))
    (float64 3) = 1.
Proof.
  destruct (NewTrapezoidal_shape (float64 0) (float64 2) (float64 4)
              (float64 6)) as (Hbuilt & _ & Hshape).
  destruct (Hshape (Trapezoidal (float64 0) (float64 2) (float64 4)
                      (float64 6)) (float64 3)) as (_ & Hplateau & _).
  - apply Hbuilt. repeat split; by_compute.
  - apply Hplateau; split; by_compute.
Defined.

End membership_more.

(** ** Sets and variables *)

Module variable_more.
Import variable.

(** A loop that stores one value per entry of a map builds the map of
    these values, in whatever order the entries are visited. *)
Lemma foldl_insert_lookup {A B} (g : string → A → B)
    (l : list (string * A)) :
  ∀ (acc : gmap string B) (k : string),
  NoDup l.*1 →
  foldl (λ m '(n, a), <[n := g n a]> m) acc l !! k
  = match (list_to_map l : gmap string A) !! k with
    | Some a => Some (g k a)
    | None => acc !! k
    end.
Proof.
  induction l as [|[n a] l IH]; intros acc k Hnd; cbn [foldl].
  - cbn [list_to_map foldr]. by rewrite lookup_empty.
  - cbn [fmap list_fmap fst] in Hnd. apply NoDup_cons in Hnd as [Hn Hnd].
    rewrite IH by done. cbn [list_to_map foldr uncurry fst snd].
    destruct (decide (k = n)) as [->|Hne].
    + rewrite !lookup_insert_eq.
      by rewrite (not_elem_of_list_to_map_1 l n) by done.
    + by rewrite !lookup_insert_ne by done.
Qed.

Lemma Fuzzify_lookup range fv value name :
  range_ok range →
  Fuzzify range fv value !! name
  = (λ fuzzySet, set.Evaluate fuzzySet value) <$> Sets fv !! name.
Proof.
  intros Hrange. unfold Fuzzify.
  rewrite (foldl_insert_lookup (λ _ fuzzySet, set.Evaluate fuzzySet value))
    by apply (infer_facts.range_NoDup range Hrange).
  rewrite (infer_facts.range_list_to_map range Hrange), lookup_empty.
  by destruct (Sets fv !! name).
Qed.

(** [Fuzzify] returns, under each set name of the variable and no other,
    the degree of the value in that set, whatever the iteration order. *)
Theorem Fuzzify_degrees (range : ranger) (fv : FuzzyVariable) (value : Qc) :
  range_ok range →
  Fuzzify range fv value
  = (λ fuzzySet, set.Evaluate fuzzySet value) <$> Sets fv.
Proof.
  intros Hrange. apply map_eq. intros name.
  by rewrite Fuzzify_lookup, lookup_fmap.
Qed.

Lemma Fuzzify_degrees_witness :
  Fuzzify example.range0 example.Temperature (float64 20)
  = (λ fuzzySet, set.Evaluate fuzzySet (float64 20))
    <$> Sets example.Temperature.
Proof.
  apply (Fuzzify_degrees example.range0 example.Temperature (float64 20)).
  intros A mp. reflexivity.
Defined.

Lemma AddSet_Built fv fuzzySet :
  set.Name fuzzySet ≠ "" → Sets fv !! set.Name fuzzySet = None →
  AddSet fv (Built fuzzySet)
  = ({| Name := Name fv; MinValue := MinValue fv; MaxValue := MaxValue fv;
        Sets := <[set.Name fuzzySet := fuzzySet]> (Sets fv) |},
     Built {| Variable_ := Name fv; Set_ := set.Name fuzzySet |}).
Proof.
  intros Hne Hfresh. unfold AddSet.
  rewrite bool_decide_eq_false_2 by done. by rewrite Hfresh.
Qed.

Lemma AddSet_cases fv arg :
  (∃ fuzzySet,
      arg = Built fuzzySet ∧ set.Name fuzzySet ≠ ""
      ∧ Sets fv !! set.Name fuzzySet = None
      ∧ AddSet fv arg
        = ({| Name := Name fv; MinValue := MinValue fv;
              MaxValue := MaxValue fv;
              Sets := <[set.Name fuzzySet := fuzzySet]> (Sets fv) |},
           Built {| Variable_ := Name fv; Set_ := set.Name fuzzySet |}))
  ∨ (∃ e, AddSet fv arg = (fv, Refused e)).
Proof.
  destruct arg as [fuzzySet|e]; [|right; by exists e].
  unfold AddSet. case_bool_decide as Hname; [right; by eexists|].
  destruct (Sets fv !! set.Name fuzzySet) eqn:E; [right; by eexists|].
  left. exists fuzzySet. by rewrite E.
Qed.

(** [AddSet] never removes or replaces a set and never touches the name
    or the domain.  When it succeeds, the argument was a set with a
    non-empty name not yet in the variable, that set is now stored under
    its name, and the reference returned carries the two names; when it
    fails, the variable is unchanged.  It succeeds on every set with a
    non-empty name not yet in the variable. *)
Theorem AddSet_effect (fv : FuzzyVariable) (arg : built set.FuzzySet) :
  let fv' := (AddSet fv arg).1 in
  let res := (AddSet fv arg).2 in
  (∀ name fuzzySet, Sets fv !! name = Some fuzzySet →
                    Sets fv' !! name = Some fuzzySet)
  ∧ Name fv' = Name fv ∧ MinValue fv' = MinValue fv
  ∧ MaxValue fv' = MaxValue fv
  ∧ (∀ ref, res = Built ref →
       ∃ fuzzySet,
         arg = Built fuzzySet ∧ set.Name fuzzySet ≠ ""
         ∧ Sets fv !! set.Name fuzzySet = None
         ∧ Sets fv' = <[set.Name fuzzySet := fuzzySet]> (Sets fv)
         ∧ ref = {| Variable_ := Name fv; Set_ := set.Name fuzzySet |})
  ∧ (∀ e, res = Refused e → fv' = fv)
  ∧ (∀ fuzzySet, arg = Built fuzzySet → set.Name fuzzySet ≠ "" →
       Sets fv !! set.Name fuzzySet = None →
       Sets fv' !! set.Name fuzzySet = Some fuzzySet
       ∧ res = Built {| Variable_ := Name fv; Set_ := set.Name fuzzySet |}).
Proof.
  intros fv' res. subst fv' res.
  destruct (AddSet_cases fv arg)
    as [(fuzzySet & -> & Hname & Hfresh & ->)|[e He]];
    [|rewrite He]; cbn [fst snd Sets Name MinValue MaxValue].
  - split.
    { intros name s Hs. rewrite lookup_insert_ne; [done|]. congruence. }
    do 3 (split; [done|]). split.
    { intros ref [= <-]. by exists fuzzySet. }
    split; [done|].
    intros ? [= <-] _ _. by rewrite lookup_insert_eq.
  - do 4 (split; [done|]). split; [done|]. split; [done|].
    intros fuzzySet -> Hname Hfresh.
    rewrite AddSet_Built in He by done. done.
Qed.

Lemma AddSet_effect_witness :
  Sets (AddSet example.Temperature
          (Built (example.tri "Warm" 10 25 40).2)).1 !! "Warm"
  = Some (example.tri "Warm" 10 25 40).2.
Proof.
  destruct (AddSet_effect example.Temperature
              (Built (example.tri "Warm" 10 25 40).2))
    as (_ & _ & _ & _ & _ & _ & Hadd).
  destruct (Hadd (example.tri "Warm" 10 25 40).2) as [Hlookup _].
  - reflexivity.
  - discriminate.
  - reflexivity.
  - exact Hlookup.
Defined.

Lemma NewFuzzyVariable_Built name minValue maxValue fv :
  NewFuzzyVariable name minValue maxValue = Built fv →
  name ≠ "" ∧ minValue < maxValue
  ∧ fv = {| Name := name; MinValue := minValue; MaxValue := maxValue;
            Sets := ∅ |}.
Proof.
  unfold NewFuzzyVariable. case_bool_decide as Hname; [done|].
  destruct (maxValue <=? minValue) eqn:E; [done|]. apply leb_gt in E.
  by intros [= <-].
Qed.

(** Every variable made by [NewFuzzyVariable] and [AddSet] has a
    non-empty name, a domain with [min < max], and every set stored under
    its own non-empty name. *)
Theorem built_variable_wf (fv : FuzzyVariable) :
  built_variable fv → wf_variable fv.
Proof.
  induction 1 as [name minValue maxValue fv Hnew|fv arg _ IH].
  - apply NewFuzzyVariable_Built in Hnew as (Hname & Hdom & ->).
    split; [done|]. split; [done|]. apply map_Forall_empty.
  - destruct IH as (Hname & Hdom & Hsets).
    destruct (AddSet_cases fv arg)
      as [(fuzzySet & -> & Hn & Hfresh & ->)|[e ->]]; [|done].
    split; [done|]. split; [done|]. cbn [fst Sets].
    by apply map_Forall_insert_2.
Qed.

Lemma built_variable_wf_witness :
  wf_variable
    (AddSet {| Name := "Temperature"; MinValue := float64 0;
               MaxValue := float64 50; Sets := ∅ |}
       (Built (example.tri "Cold" 0 0 25).2)).1.
Proof.
  apply built_variable_wf. apply built_AddSet.
  apply (built_NewFuzzyVariable "Temperature" (float64 0) (float64 50)).
  reflexivity.
Defined.

End variable_more.

(** ** Rules *)

Module rule_more.
Import operators operators_facts rule rule_facts.

Lemma Evaluate_Ok_in01 r membershipMap s :
  in01 (Weight r) → Evaluate r membershipMap = Ok s → in01 s.
Proof.
  intros Hw. rewrite Evaluate_unfold.
  pose proof (Apply_in01 (Operator r)
                (condition_value membershipMap <$> Conditions r)) as Hin.
  revert Hin. cbv zeta.
  generalize (Apply (Operator r)
                (condition_value membershipMap <$> Conditions r)).
  intros [res err] Hin.
  destruct (Conditions r) as [|c cs]; [done|].
  destruct err; [done|]. intros [= <-]. by apply in01_mult.
Qed.

(** With at least one condition and degrees in [0,1], a rule evaluates. *)
Lemma Evaluate_succeeds r membershipMap :
  Conditions r ≠ [] → degrees_in01 membershipMap →
  ∃ s, Evaluate r membershipMap = Ok s.
Proof.
  intros Hne Hmm. rewrite Evaluate_unfold. cbv zeta.
  assert ((Apply (Operator r)
             (condition_value membershipMap <$> Conditions r)).2 = None)
    as Hnone.
  { destruct (Apply _ _).2 eqn:E; [|done]. exfalso.
    assert ((Apply (Operator r)
               (condition_value membershipMap <$> Conditions r)).2 ≠ None)
      as Hsome by by rewrite E.
    apply Apply_error_iff, operator_rejects_invalid in Hsome.
    apply Hsome, Forall_fmap, Forall_forall. intros cond _.
    by apply condition_value_in01. }
  revert Hnone.
  generalize (Apply (Operator r)
                (condition_value membershipMap <$> Conditions r)).
  intros [res err] Hnone. cbn [snd] in Hnone. subst err.
  destruct (Conditions r) as [|c cs]; [done|]. by eexists.
Qed.

Lemma NewRule_Built output operator r :
  NewRule output operator = Built r →
  Variable_ output ≠ "" ∧ Set_ output ≠ "" ∧ Negated output = false
  ∧ r = {| Conditions := []; Output := output; Weight := 1;
           Operator := default AND operator |}.
Proof.
  unfold NewRule. repeat case_bool_decide; try done.
  destruct (Negated output); [done|]. by intros [= <-].
Qed.

Lemma AddConditionEx_wf r variable set negated :
  wf_rule r → wf_rule (AddConditionEx r variable set negated).1.
Proof.
  intros (Hw & Hv & Hs & Hn & Hc). unfold AddConditionEx.
  repeat case_bool_decide; try done.
  cbn [fst]. do 4 (split; [done|]). cbn [Conditions].
  apply Forall_app. split; [done|]. by repeat constructor.
Qed.

Lemma SetWeight_wf r weight : wf_rule r → wf_rule (SetWeight r weight).1.
Proof.
  intros (Hw & Hv & Hs & Hn & Hc). unfold SetWeight.
  destruct (weight <? 0) eqn:E1; [done|]. apply ltb_ge in E1.
  destruct (1 <? weight) eqn:E2; [done|]. apply ltb_ge in E2.
  cbn [orb fst]. split; [by split|]. by do 3 (split; [done|]).
Qed.

(** Every rule made by [NewRule], [AddCondition], [AddConditionEx] and
    [SetWeight], whether the calls succeed or fail, has a weight in [0,1],
    a non-negated consequent with non-empty names and conditions with
    non-empty names; hence whenever it evaluates, its firing strength lies
    in [0,1]. *)
Theorem built_rule_wf (r : Rule) :
  built_rule r →
  wf_rule r
  ∧ ∀ membershipMap s, Evaluate r membershipMap = Ok s → in01 s.
Proof.
  intros Hbuilt. assert (wf_rule r) as Hwf.
  { induction Hbuilt as [output operator r Hnew|r variable set _ IH
                        |r variable set negated _ IH|r weight _ IH].
    - apply NewRule_Built in Hnew as (Hv & Hs & Hn & ->).
      split; [apply in01_1|]. do 3 (split; [done|]). constructor.
    - by apply AddConditionEx_wf.
    - by apply AddConditionEx_wf.
    - by apply SetWeight_wf. }
  split; [done|]. intros membershipMap s.
  apply Evaluate_Ok_in01. by destruct Hwf.
Qed.

Lemma built_rule_wf_witness :
  wf_rule
    (SetWeight
       (AddCondition
          {| Conditions := [];
             Output := {| Variable_ := "FanSpeed"; Set_ := "High";
                          Negated := false |};
             Weight := 1; Operator := AND |}
          "Temperature" "Hot").1 (Q2Qc (3 # 2))).1.
Proof.
  apply built_rule_wf. apply built_SetWeight, built_AddCondition.
  apply (built_NewRule {| Variable_ := "FanSpeed"; Set_ := "High";
                          Negated := false |} (Some AND)).
  reflexivity.
Defined.

End rule_more.

(** ** Registration *)

Module registration.
Import inference.

Lemma sees_sets_refl vars : sees_sets vars vars.
Proof. intros name v setName Hv Hs. by exists v. Qed.

Lemma sees_sets_insert_fresh vars name v :
  vars !! name = None → sees_sets vars (<[name := v]> vars).
Proof.
  intros Hfresh n w setName Hw Hs. exists w. split; [|done].
  rewrite lookup_insert_ne; [done|]. congruence.
Qed.

Lemma sees_sets_AddSet vars name v arg :
  vars !! name = Some v →
  sees_sets vars (<[name := (variable.AddSet v arg).1]> vars).
Proof.
  intros Hv n w setName Hw Hs. destruct (decide (n = name)) as [->|Hne].
  - assert (w = v) as -> by congruence. exists (variable.AddSet v arg).1.
    rewrite lookup_insert_eq. split; [done|].
    destruct Hs as [fuzzySet Hs]. exists fuzzySet.
    destruct (variable_more.AddSet_cases v arg)
      as [(newSet & -> & Hn & Hfresh & ->)|[e ->]]; [|done].
    cbn [fst variable.Sets]. rewrite lookup_insert_ne; [done|]. congruence.
  - exists w. by rewrite lookup_insert_ne.
Qed.

Lemma references_ok_mono fis fis' r :
  sees_sets (InputVariables fis) (InputVariables fis') →
  sees_sets (OutputVariables fis) (OutputVariables fis') →
  references_ok fis r → references_ok fis' r.
Proof.
  intros Hin Hout (Hne & (outputVar & Hov & Hos) & Hconds).
  split; [done|]. split.
  - destruct (Hout _ _ _ Hov Hos) as (v' & Hv' & Hs'). by exists v'.
  - eapply Forall_impl; [exact Hconds|].
    intros cond (inputVar & Hiv & His). cbn.
    destruct (Hin _ _ _ Hiv His) as (v' & Hv' & Hs'). by exists v'.
Qed.

Lemma check_conditions_None fis conds : ∀ i,
  check_conditions fis i conds = None
  ↔ Forall (λ cond,
              ∃ inputVar,
                InputVariables fis !! rule.Variable_ cond = Some inputVar
                ∧ is_Some (variable.Sets inputVar !! rule.Set_ cond))
      conds.
Proof.
  induction conds as [|cond conds IH]; intros i; cbn [check_conditions].
  - split; [constructor | done].
  - destruct (InputVariables fis !! rule.Variable_ cond) as [inputVar|]
      eqn:Ev.
    + destruct (variable.Sets inputVar !! rule.Set_ cond) as [s|] eqn:Es.
      * rewrite IH. split.
        -- intros H. constructor; [|done]. exists inputVar.
           split; [done|]. by rewrite Es.
        -- by inversion 1.
      * split; [done|]. inversion 1 as [|?? (v & Hv & Hs) _]; subst.
        simplify_eq. rewrite Es in Hs. by destruct Hs.
    + split; [done|]. inversion 1 as [|?? (v & Hv & Hs) _]; subst.
      congruence.
Qed.

Lemma AddRule_cases fis r :
  (references_ok fis r
   ∧ AddRule fis r
     = ({| InputVariables := InputVariables fis;
           OutputVariables := OutputVariables fis;
           Rules := Rules fis ++ [r];
           Resolution := Resolution fis;
           DefuzzMethod := DefuzzMethod fis |}, None))
  ∨ (¬ references_ok fis r ∧ ∃ e, AddRule fis r = (fis, Some e)).
Proof.
  unfold AddRule, references_ok.
  case_bool_decide as Hlen.
  { right. split; [|by eexists]. intros [Hne _].
    by destruct (rule.Conditions r). }
  assert (rule.Conditions r ≠ []) as Hne by by intros E; rewrite E in Hlen.
  destruct (OutputVariables fis !! _) as [outputVar|] eqn:Ev.
  2:{ right. split; [|by eexists]. by intros (_ & (? & ? & _) & _). }
  destruct (variable.Sets outputVar !! _) as [s|] eqn:Es.
  2:{ right. split; [|by eexists].
      intros (_ & (v & Hv & Hs) & _). simplify_eq.
      rewrite Es in Hs. by destruct Hs. }
  destruct (check_conditions fis 0 (rule.Conditions r)) as [e|] eqn:Ec.
  - right. split; [|by eexists]. intros (_ & _ & Hconds).
    pose proof (proj2 (check_conditions_None fis _ 0) Hconds). congruence.
  - left. split; [|done]. split; [done|]. split.
    + exists outputVar. split; [done|]. by rewrite Es.
    + by apply (check_conditions_None fis _ 0).
Qed.

(** [AddInputVariable] and [AddOutputVariable] succeed exactly when the
    name of the variable is not registered yet, and then store the
    variable under its name; a registered variable is never replaced, and
    nothing else of the engine changes.  When they fail the engine is
    unchanged. *)
Theorem AddVariable_effect (fis : MamdaniInferenceSystem)
    (v : variable.FuzzyVariable) :
  let name := variable.Name v in
  let added := AddInputVariable fis v in
  let added' := AddOutputVariable fis v in
  (added.2 = None ↔ InputVariables fis !! name = None)
  ∧ (added.2 = None →
     InputVariables added.1 = <[name := v]> (InputVariables fis)
     ∧ OutputVariables added.1 = OutputVariables fis
     ∧ Rules added.1 = Rules fis)
  ∧ (added.2 ≠ None →
     added.1 = fis ∧ added.2 = Some (InputVariableExists name))
  ∧ (∀ n w, InputVariables fis !! n = Some w →
            InputVariables added.1 !! n = Some w)
  ∧ (added'.2 = None ↔ OutputVariables fis !! name = None)
  ∧ (added'.2 = None →
     OutputVariables added'.1 = <[name := v]> (OutputVariables fis)
     ∧ InputVariables added'.1 = InputVariables fis
     ∧ Rules added'.1 = Rules fis)
  ∧ (added'.2 ≠ None →
     added'.1 = fis ∧ added'.2 = Some (OutputVariableExists name))
  ∧ (∀ n w, OutputVariables fis !! n = Some w →
            OutputVariables added'.1 !! n = Some w).
Proof.
  intros name added added'. subst name added added'.
  unfold AddInputVariable, AddOutputVariable.
  destruct (InputVariables fis !! variable.Name v) as [w|] eqn:Ei;
    destruct (OutputVariables fis !! variable.Name v) as [w'|] eqn:Eo;
    cbn [fst snd InputVariables OutputVariables Rules];
    repeat split; try done; try congruence;
    intros n u Hu; rewrite lookup_insert_ne; congruence.
Qed.

Lemma AddVariable_effect_witness :
  InputVariables
    (AddInputVariable (NewMamdaniInferenceSystem 1000)
       example.Temperature).1 !! "Temperature"
  = Some example.Temperature.
Proof.
  destruct (AddVariable_effect (NewMamdaniInferenceSystem 1000)
              example.Temperature) as (Hiff & Hadd & _).
  destruct Hadd as (Hmap & _); [by apply Hiff|].
  rewrite Hmap. apply lookup_insert_eq.
Defined.

(** [AddRule] accepts exactly the rules that have a condition and refer
    to registered variables and to sets of theirs; it then appends the
    rule and changes nothing else.  When it refuses, the engine is
    unchanged. *)
Theorem AddRule_accepts_exactly (fis : MamdaniInferenceSystem)
    (r : rule.Rule) :
  ((AddRule fis r).2 = None ↔ references_ok fis r)
  ∧ (references_ok fis r →
     Rules (AddRule fis r).1 = Rules fis ++ [r]
     ∧ InputVariables (AddRule fis r).1 = InputVariables fis
     ∧ OutputVariables (AddRule fis r).1 = OutputVariables fis
     ∧ Resolution (AddRule fis r).1 = Resolution fis
     ∧ DefuzzMethod (AddRule fis r).1 = DefuzzMethod fis)
  ∧ (¬ references_ok fis r → (AddRule fis r).1 = fis).
Proof.
  destruct (AddRule_cases fis r) as [[Hok ->]|[Hbad [e ->]]];
    cbn [fst snd Rules InputVariables OutputVariables Resolution
           DefuzzMethod].
  - split; [by split|]. split; [done|]. by intros [].
  - split; [split; [done|by intros ?]|]. split; [by intros ?|done].
Qed.

Lemma AddRule_accepts_exactly_witness :
  Rules (AddRule (example.fan "mom" 10)
           (example.when "Temperature" "Hot" "Low")).1
  = Rules (example.fan "mom" 10)
    ++ [example.when "Temperature" "Hot" "Low"].
Proof.
  destruct (AddRule_accepts_exactly (example.fan "mom" 10)
              (example.when "Temperature" "Hot" "Low"))
    as (Hiff & Hok & _).
  destruct Hok as (Hrules & _); [|exact Hrules].
  apply Hiff. reflexivity.
Defined.

Lemma method_valid_after_Set fis method :
  DefuzzMethod fis
  ∈ [DefuzzCOG; DefuzzMOM; DefuzzFOM; DefuzzLOM; DefuzzSOM] →
  DefuzzMethod (SetDefuzzificationMethod fis method).1
  ∈ [DefuzzCOG; DefuzzMOM; DefuzzFOM; DefuzzLOM; DefuzzSOM].
Proof.
  intros H. unfold SetDefuzzificationMethod.
  case_bool_decide as Hm; [|done]. cbn [fst DefuzzMethod].
  destruct Hm as [-> | [-> | [-> | [-> | ->]]]];
    repeat first [ apply list_elem_of_here | apply list_elem_of_further ].
Qed.

Lemma wf_engine_mono fis fis' :
  sees_sets (InputVariables fis) (InputVariables fis') →
  sees_sets (OutputVariables fis) (OutputVariables fis') →
  Rules fis' = Rules fis →
  Forall (references_ok fis) (Rules fis) →
  Forall (references_ok fis') (Rules fis').
Proof.
  intros Hin Hout -> H. eapply Forall_impl; [exact H|].
  intros r. by apply references_ok_mono.
Qed.

Lemma configured_wf_engine D fis :
  configured D fis →
  wf_engine fis ∧ ((0 < D)%Z → (0 < Resolution fis)%Z).
Proof.
  induction 1 as [|fis res _ IH|fis method _ IH|fis v _ IH|fis v _ IH
                 |fis r _ IH|fis name arg _ IH|fis name arg _ IH].
  - split; [|done]. split; [constructor|].
    split; [apply list_elem_of_further, list_elem_of_here|].
    split; apply map_Forall_empty.
  - unfold SetResolution. case_bool_decide as Hres; [done|].
    split; [apply IH|]. cbn [fst Resolution]. lia.
  - destruct IH as ((Hrules & Hmethod & Hin & Hout) & Hres).
    split; [|by unfold SetDefuzzificationMethod; case_bool_decide].
    split; [|split; [by apply method_valid_after_Set|]].
    + unfold SetDefuzzificationMethod. by case_bool_decide.
    + unfold SetDefuzzificationMethod. by case_bool_decide.
  - destruct IH as ((Hrules & Hmethod & Hin & Hout) & Hres).
    unfold AddInputVariable.
    destruct (InputVariables fis !! variable.Name v) eqn:E; [done|].
    cbn [fst]. split; [|done]. split; [|split; [done|split; [|done]]].
    + apply (wf_engine_mono fis); try done;
        [by apply sees_sets_insert_fresh | apply sees_sets_refl].
    + by apply map_Forall_insert_2.
  - destruct IH as ((Hrules & Hmethod & Hin & Hout) & Hres).
    unfold AddOutputVariable.
    destruct (OutputVariables fis !! variable.Name v) eqn:E; [done|].
    cbn [fst]. split; [|done]. split; [|split; [done|split; [done|]]].
    + apply (wf_engine_mono fis); try done;
        [apply sees_sets_refl | by apply sees_sets_insert_fresh].
    + by apply map_Forall_insert_2.
  - destruct IH as ((Hrules & Hmethod & Hin & Hout) & Hres).
    destruct (AddRule_cases fis r) as [[Hok ->]|[Hbad [e ->]]]; [|done].
    cbn [fst]. split; [|done]. split; [|done].
    cbn [Rules]. apply Forall_app. split.
    + eapply Forall_impl; [exact Hrules|]. intros r'.
      apply references_ok_mono; apply sees_sets_refl.
    + constructor; [|constructor].
      revert Hok. apply references_ok_mono; apply sees_sets_refl.
  - destruct IH as ((Hrules & Hmethod & Hin & Hout) & Hres).
    unfold input_AddSet.
    destruct (InputVariables fis !! name) as [v|] eqn:E; [|done].
    split; [|done]. split; [|split; [done|split; [|done]]].
    + apply (wf_engine_mono fis); try done;
        [by apply sees_sets_AddSet | apply sees_sets_refl].
    + cbn [InputVariables]. apply map_Forall_insert_2; [|done].
      destruct (variable_more.AddSet_cases v arg)
        as [(newSet & -> & Hn & Hfresh & ->)|[e ->]];
        cbn [fst variable.Name]; by apply (Hin name).
  - destruct IH as ((Hrules & Hmethod & Hin & Hout) & Hres).
    unfold output_AddSet.
    destruct (OutputVariables fis !! name) as [v|] eqn:E; [|done].
    split; [|done]. split; [|split; [done|split; [done|]]].
    + apply (wf_engine_mono fis); try done;
        [apply sees_sets_refl | by apply sees_sets_AddSet].
    + cbn [OutputVariables]. apply map_Forall_insert_2; [|done].
      destruct (variable_more.AddSet_cases v arg)
        as [(newSet & -> & Hn & Hfresh & ->)|[e ->]];
        cbn [fst variable.Name]; by apply (Hout name).
Qed.

(** Every engine made by [NewMamdaniInferenceSystem] and the
    registration functions, whose rules are left as they were added,
    holds only rules that have a condition and refer to existing sets of
    registered variables, even when sets or variables are added after
    the rule; it holds one of the five method
    names, and every variable under its own name.  Its resolution is
    positive when the default resolution was positive at its creation, so
    that the defuzzifiers never fall back on the default. *)
Theorem configured_wf (DefaultResolution : Z)
    (fis : MamdaniInferenceSystem) :
  configured DefaultResolution fis →
  wf_engine fis
  ∧ ((0 < DefaultResolution)%Z →
     (0 < Resolution fis)%Z
     ∧ ∀ D, effective_resolution D (Resolution fis) = Resolution fis).
Proof.
  intros [Hwf Hres]%configured_wf_engine. split; [done|].
  intros HD. split; [by apply Hres|]. intros D.
  unfold effective_resolution. rewrite bool_decide_eq_false_2; [done|].
  specialize (Hres HD). lia.
Qed.

Lemma configured_wf_witness :
  wf_engine
    (AddRule
       (AddOutputVariable
          (AddInputVariable (NewMamdaniInferenceSystem 1000)
             example.Temperature).1 example.FanSpeed).1
       (example.when "Temperature" "Hot" "High")).1.
Proof.
  apply (configured_wf 1000).
  apply configured_AddRule, configured_AddOutputVariable,
    configured_AddInputVariable, configured_New.
Defined.

End registration.

(** ** The rule stage of [Infer] *)

Module rule_stage.
Import inference.

Section rule_stage.
Context (range : ranger) (Hrange : range_ok range).
Context (DefaultResolution : Z).

(** The membership map of a fuzzification holds degrees when the input
    sets return degrees. *)
Lemma fuzzify_degrees_in01 fis inputs :
  input_sets_valid fis → degrees_in01 (fuzzify range fis inputs).
Proof.
  intros Hvalid name varMap Hname.
  rewrite (infer_facts.fuzzify_lookup range Hrange) in Hname.
  destruct (inputs !! name) as [value|]; [|done].
  destruct (InputVariables fis !! name) as [inputVar|] eqn:Ev; [|done].
  injection Hname as <-. intros setName degree Hset.
  rewrite (variable_more.Fuzzify_lookup range) in Hset by done.
  destruct (variable.Sets inputVar !! setName) as [inputSet|] eqn:Es;
    [|done].
  injection Hset as <-. by apply (Hvalid name inputVar setName).
Qed.

Lemma fire_rules_succeeds rules membershipMap :
  Forall (λ r, rule.Conditions r ≠ []) rules →
  degrees_in01 membershipMap →
  ∀ outputMemberships,
    ∃ om, fire_rules rules membershipMap outputMemberships = Ok om.
Proof.
  intros Hrules Hmm.
  induction Hrules as [|r rules Hr _ IH]; intros om0; cbn [fire_rules].
  - by eexists.
  - destruct (rule_more.Evaluate_succeeds r membershipMap Hr Hmm)
      as [s ->].
    apply IH.
Qed.

(** *** Max aggregation *)

Lemma contribute_dom r x om v :
  is_Some (contribute r x om !! v) ↔ is_Some (om !! v).
Proof.
  unfold contribute.
  destruct (om !! rule.Variable_ (rule.Output r)) as [sets|] eqn:E;
    [|done].
  assert (∀ sets', is_Some (<[rule.Variable_ (rule.Output r) := sets']> om
                            !! v) ↔ is_Some (om !! v)) as Hins.
  { intros sets'.
    destruct (decide (rule.Variable_ (rule.Output r) = v)) as [<-|Hne].
    - rewrite lookup_insert_eq, E. by split.
    - by rewrite lookup_insert_ne. }
  destruct (sets !! rule.Set_ (rule.Output r)); [|apply Hins].
  destruct (x >? q); [apply Hins | done].
Qed.

Lemma contribute_lookup r x om v s :
  is_Some (om !! v) →
  contribute r x om !! v ≫= (.!! s)
  = if decide (concludes v s r) then raise (om !! v ≫= (.!! s)) x
    else om !! v ≫= (.!! s).
Proof.
  intros [sets Hsets]. unfold contribute, raise.
  destruct (decide (concludes v s r)) as [[Hv Hs]|Hc].
  - rewrite Hv, Hs, Hsets. cbn [mbind option_bind].
    destruct (sets !! s) as [c|] eqn:Ec.
    + destruct (x >? c).
      * rewrite lookup_insert_eq. cbn. by rewrite lookup_insert_eq.
      * rewrite Hsets. cbn. by rewrite Ec.
    + rewrite lookup_insert_eq. cbn. by rewrite lookup_insert_eq.
  - unfold concludes in Hc.
    destruct (decide (rule.Variable_ (rule.Output r) = v)) as [Hv|Hv].
    + assert (rule.Set_ (rule.Output r) ≠ s) as Hs by tauto.
      rewrite Hv, Hsets. cbn [mbind option_bind].
      destruct (sets !! rule.Set_ (rule.Output r)) as [c|].
      * destruct (x >? c).
        -- rewrite lookup_insert_eq. cbn. by rewrite lookup_insert_ne.
        -- by rewrite Hsets.
      * rewrite lookup_insert_eq. cbn. by rewrite lookup_insert_ne.
    + destruct (om !! rule.Variable_ (rule.Output r)) as [sets'|];
        [|done].
      destruct (sets' !! rule.Set_ (rule.Output r)) as [c|].
      * destruct (x >? c); [|done]. by rewrite lookup_insert_ne.
      * by rewrite lookup_insert_ne.
Qed.

Lemma strengths_cons r rules membershipMap v s :
  strengths (r :: rules) membershipMap v s
  = if decide (concludes v s r) then
      match rule.Evaluate r membershipMap with
      | Ok x => x :: strengths rules membershipMap v s
      | Err _ => strengths rules membershipMap v s
      end
    else strengths rules membershipMap v s.
Proof.
  unfold strengths. rewrite filter_cons. case_decide; [|done].
  cbn [omap list_omap]. by destruct (rule.Evaluate r membershipMap).
Qed.

Lemma fire_rules_lookup rules membershipMap : ∀ om0 om,
  fire_rules rules membershipMap om0 = Ok om →
  (∀ v, is_Some (om !! v) ↔ is_Some (om0 !! v))
  ∧ (∀ v s, is_Some (om0 !! v) →
            om !! v ≫= (.!! s)
            = foldl raise (om0 !! v ≫= (.!! s))
                (strengths rules membershipMap v s))
  ∧ Forall (λ r, ∃ x, rule.Evaluate r membershipMap = Ok x) rules.
Proof.
  induction rules as [|r rules IH]; intros om0 om; cbn [fire_rules].
  - intros [= <-]. split; [done|]. split; [done|constructor].
  - destruct (rule.Evaluate r membershipMap) as [x|e] eqn:Ex; [|done].
    intros Hfire. destruct (IH _ _ Hfire) as (Hdom & Hdeg & Hall).
    split; [|split].
    + intros v. rewrite Hdom. apply contribute_dom.
    + intros v s Hv. rewrite Hdeg by by apply contribute_dom.
      rewrite contribute_lookup by done. rewrite strengths_cons, Ex.
      by case_decide.
    + constructor; [by exists x | done].
Qed.

Lemma foldl_raise_Some l : ∀ c,
  ∃ x, foldl raise (Some c) l = Some x ∧ is_max_of x (c :: l).
Proof.
  induction l as [|a l IH]; intros c; cbn [foldl].
  - exists c. split; [done|]. split; [left|]. by repeat constructor.
  - unfold raise at 2. cmp.
    + destruct (IH a) as (x & -> & Hmax). exists x. split; [done|].
      apply inference_facts.is_max_of_replace; [|done].
      by apply Qclt_le_weak.
    + destruct (IH c) as (x & -> & Hmax). exists x. split; [done|].
      by apply inference_facts.is_max_of_skip.
Qed.

Lemma foldl_raise_None l :
  match foldl raise None l with
  | Some x => is_max_of x l
  | None => l = []
  end.
Proof.
  destruct l as [|a l]; [done|]. cbn [foldl]. unfold raise at 2.
  by destruct (foldl_raise_Some l a) as (x & -> & Hmax).
Qed.

Lemma init_outputs_lookup fis v :
  init_outputs range fis !! v = (λ _, ∅) <$> OutputVariables fis !! v.
Proof.
  unfold init_outputs.
  rewrite (variable_more.foldl_insert_lookup (λ _ _, ∅))
    by apply (infer_facts.range_NoDup range Hrange).
  rewrite (infer_facts.range_list_to_map range Hrange), lookup_empty.
  by destruct (OutputVariables fis !! v).
Qed.

End rule_stage.

(** On an engine whose rules each have a condition (as [AddRule]
    requires) and whose input sets return degrees, [Infer] never fails
    on the evaluation of a rule: it fails on an empty configuration, on
    an input, or on a defuzzification only. *)
Theorem Infer_never_fails_on_a_rule (range : ranger)
    (DefaultResolution : Z) (fis : MamdaniInferenceSystem)
    (inputs : gmap string Qc) (e : error) :
  range_ok range →
  Forall (λ r, rule.Conditions r ≠ []) (Rules fis) →
  input_sets_valid fis →
  Infer range DefaultResolution fis inputs = Err e →
  e = NoInputVariables ∨ e = NoOutputVariables ∨ e = NoRules
  ∨ is_validation_error e
  ∨ ∃ varName, e = DefuzzificationFailed varName NoRulesFired.
Proof.
  intros Hrange Hrules Hvalid. unfold Infer.
  case_bool_decide; [intros [= <-]; tauto|].
  case_bool_decide; [intros [= <-]; tauto|].
  case_bool_decide; [intros [= <-]; tauto|].
  destruct (validate_loop _ _) as [e'|] eqn:Ev.
  { intros [= <-]. do 3 right. left.
    by eapply infer_facts.validate_loop_validation_error. }
  destruct (fire_rules_succeeds (Rules fis) (fuzzify range fis inputs)
              Hrules (fuzzify_degrees_in01 range Hrange fis inputs Hvalid)
              (init_outputs range fis)) as [om ->].
  intros (varName & outputVar & _ & e' & -> & Hd)
    %infer_facts.defuzzify_loop_error.
  do 4 right. exists varName.
  by apply infer_facts.defuzzify_error in Hd as ->.
Qed.

(** After the rule stage, the aggregation map has an entry for each
    output variable and no other; under a set name it holds the largest
    firing strength of the rules that conclude on that set of that
    variable, and nothing when no rule does.  Rules that conclude on a
    variable that is not an output are ignored. *)
Theorem fire_rules_max_aggregation (range : ranger)
    (fis : MamdaniInferenceSystem)
    (membershipMap om : gmap string (gmap string Qc)) :
  range_ok range →
  fire_rules (Rules fis) membershipMap (init_outputs range fis) = Ok om →
  (∀ varName, is_Some (om !! varName)
              ↔ is_Some (OutputVariables fis !! varName))
  ∧ (∀ varName sets setName,
       om !! varName = Some sets →
       match sets !! setName with
       | Some strength =>
           is_max_of strength
             (strengths (Rules fis) membershipMap varName setName)
       | None =>
           filter (concludes varName setName) (Rules fis) = []
       end).
Proof.
  intros Hrange Hfire.
  destruct (fire_rules_lookup _ _ _ _ Hfire) as (Hdom & Hdeg & Hall).
  split.
  - intros v. rewrite Hdom, (init_outputs_lookup range Hrange).
    by rewrite fmap_is_Some.
  - intros v sets s Hsets.
    assert (is_Some (init_outputs range fis !! v)) as Hinit
      by (apply Hdom; by rewrite Hsets).
    specialize (Hdeg v s Hinit). rewrite Hsets in Hdeg.
    cbn [mbind option_bind] in Hdeg. rewrite Hdeg.
    rewrite (init_outputs_lookup range Hrange).
    destruct (OutputVariables fis !! v) as [outputVar|] eqn:Eo.
    2:{ rewrite (init_outputs_lookup range Hrange), Eo in Hinit.
        by destruct Hinit. }
    cbn [fmap option_fmap option_map mbind option_bind].
    rewrite lookup_empty.
    pose proof (foldl_raise_None (strengths (Rules fis) membershipMap v s))
      as Hraise.
    destruct (foldl raise None _) as [x|]; [done|].
    unfold strengths in Hraise. revert Hraise.
    assert (Forall (λ r, ∃ x, rule.Evaluate r membershipMap = Ok x)
              (filter (concludes v s) (Rules fis))) as Hall'.
    { apply Forall_forall. intros r [_ Hr]%list_elem_of_filter.
      by apply (proj1 (Forall_forall _ _) Hall). }
    destruct (filter (concludes v s) (Rules fis)) as [|r rs]; [done|].
    inversion Hall' as [|?? [x Hx] _]; subst.
    cbn [omap list_omap]. by rewrite Hx.
Qed.

(** The sets of the fan controller are triangles. *)
Lemma fan_sets_valid method resolution :
  input_sets_valid (example.fan method resolution).
Proof.
  intros name inputVar setName inputSet Hn Hs p.
  unfold example.fan in Hn. cbn [InputVariables] in Hn.
  apply lookup_singleton_Some in Hn as [_ <-].
  unfold example.Temperature in Hs.
  cbn [variable.Sets list_to_map foldr uncurry example.tri fst snd] in Hs.
  apply lookup_insert_Some in Hs as [[_ <-]|[_ Hs]];
    [apply membership_facts.Triangular_Evaluate_in01|].
  apply lookup_insert_Some in Hs as [[_ <-]|[_ Hs]];
    [apply membership_facts.Triangular_Evaluate_in01|].
  by rewrite lookup_empty in Hs.
Defined.

Lemma Infer_never_fails_on_a_rule_witness :
  match Infer example.range0 1000 (example.fan "fom" 10)
          example.freezing with
  | Err e =>
      e = NoInputVariables ∨ e = NoOutputVariables ∨ e = NoRules
      ∨ is_validation_error e
      ∨ ∃ varName, e = DefuzzificationFailed varName NoRulesFired
  | Ok _ => False
  end.
Proof.
  assert (Infer example.range0 1000 (example.fan "fom" 10)
            example.freezing
          = Err (DefuzzificationFailed "FanSpeed" NoRulesFired)) as E
    by (vm_compute; reflexivity).
  rewrite E.
  apply (Infer_never_fails_on_a_rule example.range0 1000
           (example.fan "fom" 10) example.freezing _
           ltac:(intros A mp; reflexivity)
           ltac:(repeat constructor; discriminate)
           (fan_sets_valid "fom" 10) E).
Defined.

Lemma fire_rules_max_aggregation_witness :
  match fire_rules (Rules (example.fan "mom" 10)) example.degrees
          (init_outputs example.range0 (example.fan "mom" 10)) with
  | Ok om => is_Some (om !! "FanSpeed")
  | Err _ => False
  end.
Proof.
  assert (∃ om,
            fire_rules (Rules (example.fan "mom" 10)) example.degrees
              (init_outputs example.range0 (example.fan "mom" 10))
            = Ok om) as [om E]
    by (eexists; vm_compute; reflexivity).
  rewrite E.
  destruct (fire_rules_max_aggregation example.range0
              (example.fan "mom" 10) example.degrees om
              ltac:(intros A mp; reflexivity) E) as [Hdom _].
  apply Hdom. by eexists.
Defined.

End rule_stage.

(** ** The defuzzified value *)

Module crisp_output.
Import inference.

Lemma float64_le (i j : Z) : (i ≤ j)%Z → float64 i ≤ float64 j.
Proof.
  intros Hij. unfold float64, Qc_of_Z, Qcle, Q2Qc. cbn [this].
  rewrite ?Qred_correct. by rewrite <- Zle_Qle.
Qed.

Lemma float64_lt (i j : Z) : (i < j)%Z → float64 i < float64 j.
Proof.
  intros Hij. unfold float64, Qc_of_Z, Qclt, Q2Qc. cbn [this].
  rewrite ?Qred_correct. by rewrite <- Zlt_Qlt.
Qed.

Lemma float64_0 : float64 0 = 0.
Proof. apply Qc_is_canon. reflexivity. Qed.

Lemma float64_succ (n : nat) :
  float64 (Z.of_nat (S n)) = float64 (Z.of_nat n) + 1.
Proof.
  unfold float64, Qc_of_Z. apply Qc_is_canon.
  unfold Qcplus, Q2Qc. cbn [this]. rewrite ?Qred_correct.
  rewrite Nat2Z.inj_succ, <- Z.add_1_r, inject_Z_plus. reflexivity.
Qed.

Lemma Qcdiv_mult (n d : Qc) : d ≠ 0 → n / d * d = n.
Proof. intros Hd. field. exact Hd. Qed.

Lemma Qcdiv_between (lo hi n d : Qc) :
  0 < d → lo * d ≤ n → n ≤ hi * d → lo ≤ n / d ≤ hi.
Proof.
  intros Hd Hlo Hhi.
  assert (d ≠ 0) as Hne by (intros ->; qc_lra).
  pose proof (Qcdiv_mult n d Hne) as Hq. revert Hq.
  generalize (n / d). intros q Hq.
  assert (q * d ≤ n ∧ n ≤ q * d) as [Hq1 Hq2]
    by (rewrite Hq; split; apply Qcle_refl).
  clear Hq Hne. split; qc_nra.
Qed.

Section bounds.
Context (X : Z → Qc) (M : Qc → Qc) (lo hi : Qc).

Local Abbreviation inside := (λ p : Qc, lo ≤ p ≤ hi).

Lemma cog_bounds l :
  Forall (λ i, inside (X i)) l → (∀ p, 0 ≤ M p) →
  ∀ n d, 0 ≤ d → lo * d ≤ n → n ≤ hi * d →
  ∃ n' d', foldl (cog_step X M) (n, d) l = (n', d')
           ∧ 0 ≤ d' ∧ lo * d' ≤ n' ∧ n' ≤ hi * d'.
Proof.
  intros Hl HM. induction Hl as [|i l [Hi1 Hi2] _ IH]; intros n d Hd H1 H2;
    cbn [foldl cog_step].
  - by exists n, d.
  - pose proof (HM (X i)) as Hm. apply IH; qc_nra.
Qed.

Lemma mom_bounds l :
  Forall (λ i, inside (X i)) l →
  ∀ mx pts, Forall inside pts →
  ∃ mx' pts', foldl (mom_step X M) (mx, pts) l = (mx', pts')
              ∧ Forall inside pts'.
Proof.
  intros Hl. induction Hl as [|i l Hi _ IH]; intros mx pts Hpts;
    cbn [foldl mom_step].
  - by exists mx, pts.
  - destruct (bool_decide (i = 0%Z) || (M (X i) >? mx)).
    + apply IH. constructor; [exact Hi | constructor].
    + destruct (Qcabs (M (X i) - mx) <? epsilon); apply IH; [|done].
      apply Forall_app. split; [done|].
      constructor; [exact Hi | constructor].
Qed.

Lemma fom_bounds l :
  Forall (λ i, inside (X i)) l →
  ∀ mx res, inside res →
  ∃ mx' res', foldl (fom_step X M) (mx, res) l = (mx', res')
              ∧ inside res'.
Proof.
  intros Hl. induction Hl as [|i l Hi _ IH]; intros mx res Hres;
    cbn [foldl fom_step].
  - by exists mx, res.
  - destruct (M (X i) >? mx); by apply IH.
Qed.

Lemma sum_bounds pts :
  Forall inside pts →
  lo * float64 (Z.of_nat (length pts)) ≤ sum_list pts
  ∧ sum_list pts ≤ hi * float64 (Z.of_nat (length pts)).
Proof.
  induction 1 as [|p pts [Hp1 Hp2] _ [IH1 IH2]].
  - cbn [length sum_list foldr].
    change (Z.of_nat 0) with 0%Z. rewrite float64_0. split; qc_lra.
  - cbn [length sum_list foldr]. rewrite float64_succ.
    fold (sum_list pts). split; qc_nra.
Qed.

Lemma mean_bounds pts :
  pts ≠ [] → Forall inside pts →
  inside (foldl Qcplus 0 pts / float64 (Z.of_nat (length pts))).
Proof.
  intros Hne Hpts. destruct (sum_bounds pts Hpts) as [H1 H2].
  rewrite inference_facts.foldl_Qcplus, Qcplus_0_l.
  apply Qcdiv_between; [|done..].
  rewrite <- float64_0. apply float64_lt.
  destruct pts; [done|]. cbn [length]. lia.
Qed.

End bounds.

Lemma sample_bounds outputVar R i :
  variable.MinValue outputVar ≤ variable.MaxValue outputVar →
  (0 < R)%Z → (0 ≤ i ≤ R)%Z →
  variable.MinValue outputVar ≤ sample outputVar R i
  ≤ variable.MaxValue outputVar.
Proof.
  intros Hdom HR [Hi1 Hi2]. unfold sample, step.
  pose proof (float64_le 0 i Hi1) as H0i.
  pose proof (float64_le i R Hi2) as HiR.
  pose proof (float64_lt 0 R HR) as H0R.
  rewrite float64_0 in H0i, H0R.
  assert (float64 R ≠ 0) as Hne by (intros E; rewrite E in H0R; qc_lra).
  pose proof (Qcdiv_mult (variable.MaxValue outputVar
                          - variable.MinValue outputVar) _ Hne) as Hq.
  revert Hq.
  generalize ((variable.MaxValue outputVar - variable.MinValue outputVar)
              / float64 R).
  intros q Hq.
  assert (q * float64 R
          ≤ variable.MaxValue outputVar - variable.MinValue outputVar
          ∧ variable.MaxValue outputVar - variable.MinValue outputVar
            ≤ q * float64 R) as [Hq1 Hq2]
    by (rewrite Hq; split; apply Qcle_refl).
  clear Hq Hne. revert H0i HiR H0R Hq1 Hq2.
  generalize (float64 i), (float64 R). intros fi fR H0i HiR H0R Hq1 Hq2.
  assert (0 ≤ q) as Hq0 by qc_nra.
  split; qc_nra.
Qed.

Lemma samples_inside outputVar R :
  variable.MinValue outputVar ≤ variable.MaxValue outputVar →
  (0 < R)%Z →
  Forall (λ i, variable.MinValue outputVar ≤ sample outputVar R i
               ≤ variable.MaxValue outputVar) (indices R).
Proof.
  intros Hdom HR. apply Forall_forall. intros i Hi.
  apply sample_bounds; [done..|].
  unfold indices in Hi. apply elem_of_seqZ in Hi. lia.
Qed.

Lemma defuzzified_in_domain_lemma (range : ranger) (DefaultResolution : Z)
    (method : string) (outputVar : variable.FuzzyVariable)
    (memberships : gmap string Qc) (resolution : Z) (crisp : Qc) :
  variable.MinValue outputVar ≤ variable.MaxValue outputVar →
  (0 < effective_resolution DefaultResolution resolution)%Z →
  defuzzify range DefaultResolution method outputVar memberships resolution
  = Ok crisp →
  variable.MinValue outputVar ≤ crisp ≤ variable.MaxValue outputVar.
Proof.
  intros Hdom HR.
  pose proof (samples_inside outputVar _ Hdom HR) as Hsamples.
  assert (∀ r,
            defuzzifyMOMWithResolution range DefaultResolution outputVar
              memberships resolution = Ok r →
            variable.MinValue outputVar ≤ r ≤ variable.MaxValue outputVar)
    as Hmom.
  { intros r. unfold defuzzifyMOMWithResolution.
    case_bool_decide; [done|]. cbv zeta.
    destruct (mom_bounds
                (sample outputVar
                   (effective_resolution DefaultResolution resolution))
                (aggregated range outputVar memberships)
                (variable.MinValue outputVar) (variable.MaxValue outputVar)
                _ Hsamples 0 [] ltac:(constructor))
      as (mx & pts & -> & Hpts).
    case_bool_decide as Hlen; [done|]. cbn [orb].
    destruct (mx =? 0); [done|]. intros [= <-].
    apply mean_bounds; [|done]. by destruct pts. }
  unfold defuzzify. case_bool_decide; [|case_bool_decide; [by apply Hmom|]].
  - unfold defuzzifyCOGWithResolution. case_bool_decide; [done|].
    cbv zeta.
    destruct (cog_bounds
                (sample outputVar
                   (effective_resolution DefaultResolution resolution))
                (aggregated range outputVar memberships)
                (variable.MinValue outputVar) (variable.MaxValue outputVar)
                _ Hsamples
                ltac:(intros p; apply (inference_facts.aggregated_nonneg
                                         range outputVar memberships))
                0 0)
      as (n & d & -> & Hd & H1 & H2); [qc_lra..|].
    cmp; [done|]. intros [= <-]. apply Qcdiv_between; [|done..].
    apply Qcle_lt_or_eq in Hd as [Hd|Hd]; [done|]. by destruct Hc.
  - case_bool_decide; [|by apply Hmom].
    unfold defuzzifyFOMWithResolution. case_bool_decide; [done|].
    cbv zeta.
    destruct (fom_bounds
                (sample outputVar
                   (effective_resolution DefaultResolution resolution))
                (aggregated range outputVar memberships)
                (variable.MinValue outputVar) (variable.MaxValue outputVar)
                _ Hsamples 0 (variable.MinValue outputVar))
      as (mx & res & -> & Hres); [by split; [apply Qcle_refl|]|].
    destruct (mx =? 0); [done|]. by intros [= <-].
Qed.

(** Whatever the method name, a defuzzified value lies in the domain of
    the output variable, when the domain is not empty and the resolution
    in force is positive; this holds for any aggregation map and any
    sets. *)
Theorem defuzzified_in_domain (range : ranger) (DefaultResolution : Z)
    (method : string) (outputVar : variable.FuzzyVariable)
    (memberships : gmap string Qc) (resolution : Z) (crisp : Qc) :
  variable.MinValue outputVar ≤ variable.MaxValue outputVar →
  (0 < effective_resolution DefaultResolution resolution)%Z →
  defuzzify range DefaultResolution method outputVar memberships resolution
  = Ok crisp →
  variable.MinValue outputVar ≤ crisp ≤ variable.MaxValue outputVar.
Proof. apply defuzzified_in_domain_lemma. Qed.

Lemma defuzzified_in_domain_witness :
  match defuzzify example.range0 1000 "centroid" example.FanSpeed
          example.mixed 0 with
  | Ok crisp => float64 0 ≤ crisp ≤ float64 100
  | Err _ => False
  end.
Proof.
  assert (∃ crisp,
            defuzzify example.range0 1000 "centroid" example.FanSpeed
              example.mixed 0 = Ok crisp) as [crisp E]
    by (eexists; vm_compute; reflexivity).
  rewrite E.
  apply (defuzzified_in_domain example.range0 1000 "centroid"
           example.FanSpeed example.mixed 0 crisp);
    [by_compute | reflexivity | exact E].
Defined.

End crisp_output.

(** ** [Infer] as a whole *)

Module infer_more.
Import inference.

Section defuzzify_loop.
Context (range : ranger) (DefaultResolution : Z).
Context (fis : MamdaniInferenceSystem).
Context (om : gmap string (gmap string Qc)).

Local Abbreviation crisp_of :=
  (λ (varName : string) (outputVar : variable.FuzzyVariable),
     defuzzify range DefaultResolution (DefuzzMethod fis) outputVar
       (default ∅ (om !! varName)) (Resolution fis)).

Lemma defuzzify_loop_Ok vars : ∀ results res,
  NoDup vars.*1 →
  defuzzify_loop range DefaultResolution fis vars om results = Ok res →
  (∀ k var, (k, var) ∈ vars →
            ∃ x, crisp_of k var = Ok x ∧ res !! k = Some x)
  ∧ (∀ k, k ∉ vars.*1 → res !! k = results !! k).
Proof.
  induction vars as [|[n v] vars IH]; intros results res Hnd;
    cbn [defuzzify_loop].
  - intros [= <-]. split; [|done]. intros ?? Hin.
    by apply elem_of_nil in Hin.
  - cbn [fmap list_fmap fst] in Hnd. apply NoDup_cons in Hnd as [Hn Hnd].
    destruct (defuzzify _ _ _ _ _ _) as [x|e] eqn:Ex; [|done].
    intros Hloop. destruct (IH _ _ Hnd Hloop) as [Hin Hout]. split.
    + intros k var [[= -> ->]|Hk]%elem_of_cons; [|by apply Hin].
      exists x. split; [done|]. rewrite Hout by done.
      apply lookup_insert_eq.
    + intros k [Hkn Hk]%not_elem_of_cons. rewrite Hout by done.
      by rewrite lookup_insert_ne.
Qed.

Lemma defuzzify_loop_succeeds vars : ∀ results,
  (∀ k var, (k, var) ∈ vars → ∃ x, crisp_of k var = Ok x) →
  ∃ res, defuzzify_loop range DefaultResolution fis vars om results
         = Ok res.
Proof.
  induction vars as [|[n v] vars IH]; intros results Hall;
    cbn [defuzzify_loop].
  - by eexists.
  - destruct (Hall n v) as [x ->]; [left|]. apply IH.
    intros k var Hin. apply Hall. by right.
Qed.

End defuzzify_loop.

(** *** The iteration order *)

Section orders.
Context (range range' : ranger).
Context (Hrange : range_ok range) (Hrange' : range_ok range').
Context (DefaultResolution : Z).

Lemma aggregated_le outputVar memberships p :
  aggregated range outputVar memberships p
  ≤ aggregated range' outputVar memberships p.
Proof.
  destruct (inference_facts.aggregated_attained range Hrange outputVar
              memberships p) as [->|(k & s & outputSet & Hk & Hs & ->)].
  - apply inference_facts.aggregated_nonneg.
  - exact (inference_facts.aggregated_upper range' Hrange' outputVar
             memberships p k s outputSet Hk Hs).
Qed.

Lemma cog_step_ext X M M' l :
  (∀ p, M p = M' p) →
  ∀ a, foldl (cog_step X M) a l = foldl (cog_step X M') a l.
Proof.
  intros HM. induction l as [|i l IH]; intros [n d]; [done|].
  cbn [foldl cog_step]. by rewrite HM, IH.
Qed.

Lemma mom_step_ext X M M' l :
  (∀ p, M p = M' p) →
  ∀ a, foldl (mom_step X M) a l = foldl (mom_step X M') a l.
Proof.
  intros HM. induction l as [|i l IH]; intros [mx pts]; [done|].
  cbn [foldl mom_step]. by rewrite HM, IH.
Qed.

Lemma fom_step_ext X M M' l :
  (∀ p, M p = M' p) →
  ∀ a, foldl (fom_step X M) a l = foldl (fom_step X M') a l.
Proof.
  intros HM. induction l as [|i l IH]; intros [mx res]; [done|].
  cbn [foldl fom_step]. by rewrite HM, IH.
Qed.

End orders.

Section orders_agree.
Context (range range' : ranger).
Context (Hrange : range_ok range) (Hrange' : range_ok range').
Context (DefaultResolution : Z).

Lemma aggregated_order outputVar memberships p :
  aggregated range outputVar memberships p
  = aggregated range' outputVar memberships p.
Proof. apply Qcle_antisym; by apply aggregated_le. Qed.

Lemma defuzzify_order method outputVar memberships resolution :
  defuzzify range DefaultResolution method outputVar memberships resolution
  = defuzzify range' DefaultResolution method outputVar memberships
      resolution.
Proof.
  unfold defuzzify, defuzzifyCOGWithResolution, defuzzifyMOMWithResolution,
    defuzzifyFOMWithResolution. cbv zeta.
  rewrite (cog_step_ext _ _ (aggregated range' outputVar memberships))
    by apply aggregated_order.
  rewrite (mom_step_ext _ _ (aggregated range' outputVar memberships))
    by apply aggregated_order.
  rewrite (fom_step_ext _ _ (aggregated range' outputVar memberships))
    by apply aggregated_order.
  done.
Qed.

Lemma fuzzify_order fis inputs :
  fuzzify range fis inputs = fuzzify range' fis inputs.
Proof.
  apply map_eq. intros k.
  rewrite (infer_facts.fuzzify_lookup range Hrange),
    (infer_facts.fuzzify_lookup range' Hrange').
  destruct (inputs !! k) as [value|]; [|done].
  destruct (InputVariables fis !! k) as [inputVar|]; [|done].
  f_equal. apply map_eq. intros setName.
  by rewrite !variable_more.Fuzzify_lookup.
Qed.

Lemma init_outputs_order fis :
  init_outputs range fis = init_outputs range' fis.
Proof.
  apply map_eq. intros k.
  by rewrite (rule_stage.init_outputs_lookup range Hrange),
    (rule_stage.init_outputs_lookup range' Hrange').
Qed.

Lemma validate_loop_order fis inputs :
  validate_loop (range _ (InputVariables fis)) inputs = None →
  validate_loop (range' _ (InputVariables fis)) inputs = None.
Proof.
  rewrite !infer_facts.validate_loop_None. intros H name var Hin.
  apply H. apply (infer_facts.range_elem range Hrange).
  by apply (infer_facts.range_elem range' Hrange') in Hin.
Qed.

Lemma Infer_order fis inputs results :
  Infer range DefaultResolution fis inputs = Ok results →
  Infer range' DefaultResolution fis inputs = Ok results.
Proof.
  unfold Infer. repeat (case_bool_decide; [done|]).
  destruct (validate_loop (range _ _) inputs) eqn:Ev; [done|].
  rewrite (validate_loop_order _ _ Ev).
  rewrite <- fuzzify_order, <- init_outputs_order.
  destruct (fire_rules _ _ _) as [om|]; [|done].
  intros Hloop.
  destruct (defuzzify_loop_Ok range DefaultResolution fis om _ _ _
              (infer_facts.range_NoDup range Hrange _) Hloop)
    as [Hin Hout].
  destruct (defuzzify_loop_succeeds range' DefaultResolution fis om
              (range' _ (OutputVariables fis)) ∅) as [res Hres].
  { intros k var Hk. apply (infer_facts.range_elem range' Hrange') in Hk.
    apply (infer_facts.range_elem range Hrange) in Hk.
    destruct (Hin k var Hk) as (x & Hx & _). exists x.
    by rewrite <- defuzzify_order. }
  rewrite Hres. f_equal.
  destruct (defuzzify_loop_Ok range' DefaultResolution fis om _ _ _
              (infer_facts.range_NoDup range' Hrange' _) Hres)
    as [Hin' Hout'].
  apply map_eq. intros k.
  destruct (OutputVariables fis !! k) as [var|] eqn:Ek.
  - destruct (Hin k var) as (x & Hx & ->);
      [by apply (infer_facts.range_elem range Hrange)|].
    destruct (Hin' k var) as (x' & Hx' & ->);
      [by apply (infer_facts.range_elem range' Hrange')|].
    rewrite <- defuzzify_order in Hx'. congruence.
  - rewrite Hout, Hout'; [done|..].
    + intros [[k' var] [-> Hk]]%list_elem_of_fmap.
      apply (infer_facts.range_elem range' Hrange') in Hk. cbn in Ek.
      congruence.
    + intros [[k' var] [-> Hk]]%list_elem_of_fmap.
      apply (infer_facts.range_elem range Hrange) in Hk. cbn in Ek.
      congruence.
Qed.

End orders_agree.

(** The order in which Go visits the maps decides neither whether
    [Infer] succeeds nor the outputs it returns: only which error is
    reported can depend on it. *)
Theorem Infer_order_independent (range range' : ranger)
    (DefaultResolution : Z) (fis : MamdaniInferenceSystem)
    (inputs : gmap string Qc) :
  range_ok range → range_ok range' →
  (∀ results,
     Infer range DefaultResolution fis inputs = Ok results →
     Infer range' DefaultResolution fis inputs = Ok results)
  ∧ (is_Err (Infer range DefaultResolution fis inputs) →
     is_Err (Infer range' DefaultResolution fis inputs)).
Proof.
  intros Hrange Hrange'. split.
  - intros results. by apply Infer_order.
  - destruct (Infer range' DefaultResolution fis inputs) as [res|e] eqn:E;
      [|done].
    by rewrite (Infer_order range' range Hrange' Hrange _ _ _ _ E).
Qed.


Lemma Infer_order_independent_witness :
  Infer (λ A mp, reverse (map_to_list mp)) 1000
    (example.fan "centroid" 10) example.hot
  = Ok {[ "FanSpeed" := float64 80 ]}.
Proof.
  destruct (Infer_order_independent example.range0
              (λ A mp, reverse (map_to_list mp)) 1000
              (example.fan "centroid" 10) example.hot) as [Hsame _].
  - intros A mp. reflexivity.
  - intros A mp. apply reverse_Permutation.
  - apply Hsame. by_compute.
Defined.


End infer_more.

(** ** The rule builder *)

Module builder_more.
Import inference.

Lemma weight_check_in01 (w : Qc) :
  (w <? 0) || (w >? 1) = false ↔ in01 w.
Proof.
  unfold in01. rewrite orb_false_iff, !ltb_ge. tauto.
Qed.

Lemma built_builder_inv rb :
  built_builder rb →
  in01 (weight rb) ∧ rule.Negated (output rb) = false.
Proof.
  induction 1 as [outputVar outputSet ws rb Hnew|outputRef ws rb Hnew
                 |rb v s _ IH|rb ref _ IH|rb _ IH|rb _ IH
                 |rb w _ IH|rb w _ IH]; try exact IH.
  - unfold NewRuleBuilder in Hnew. destruct ws as [|w ws].
    + injection Hnew as <-. split; [apply in01_1 | done].
    + destruct ((w <? 0) || (w >? 1)) eqn:Hw; [done|].
      injection Hnew as <-. split; [by apply weight_check_in01 | done].
  - unfold NewRuleBuilderRef in Hnew. destruct ws as [|w ws].
    + injection Hnew as <-. split; [apply in01_1 | done].
    + destruct ((w <? 0) || (w >? 1)) eqn:Hw; [done|].
      injection Hnew as <-. split; [by apply weight_check_in01 | done].
  - unfold Weight. destruct ((w <? 0) || (w >? 1)) eqn:Hw; [exact IH|].
    split; [by apply weight_check_in01 | apply IH].
  - unfold With. destruct ((w <? 0) || (w >? 1)) eqn:Hw; [exact IH|].
    split; [by apply weight_check_in01 | apply IH].
Qed.

Lemma append_loop (cs : list rule.RuleCondition) : ∀ r,
  foldl (λ r cond,
           {| rule.Conditions := rule.Conditions r ++ [cond];
              rule.Output := rule.Output r;
              rule.Weight := rule.Weight r;
              rule.Operator := rule.Operator r |}) r cs
  = {| rule.Conditions := rule.Conditions r ++ cs;
       rule.Output := rule.Output r;
       rule.Weight := rule.Weight r;
       rule.Operator := rule.Operator r |}.
Proof.
  induction cs as [|c cs IH]; intros r; cbn [foldl].
  - rewrite app_nil_r. by destruct r.
  - rewrite IH. cbn. by rewrite <- app_assoc.
Qed.

(** A builder made through its functions always holds a weight in
    [0,1], so that [Build] never fails on the weight: it fails exactly
    when the output variable or set name is empty.  The rule it returns
    has the output, the operator and the weight of the builder and its
    conditions, in the order of the calls, none of them negated; their
    names are not checked. *)
Theorem Build_of_built_builder (rb : RuleBuilder) :
  built_builder rb →
  in01 (weight rb)
  ∧ (rule.Variable_ (output rb) ≠ "" → rule.Set_ (output rb) ≠ "" →
     Build rb = Built {| rule.Conditions := conds rb;
                         rule.Output := output rb;
                         rule.Weight := weight rb;
                         rule.Operator := op rb |})
  ∧ (rule.Variable_ (output rb) = "" →
     Build rb = Refused OutputVariableEmpty)
  ∧ (rule.Variable_ (output rb) ≠ "" → rule.Set_ (output rb) = "" →
     Build rb = Refused OutputSetEmpty).
Proof.
  intros [Hw Hneg]%built_builder_inv. split; [done|].
  unfold Build, rule.NewRule. rewrite Hneg.
  split; [|split].
  - intros Hv Hs. rewrite !bool_decide_eq_false_2 by done.
    rewrite append_loop. unfold rule.SetWeight.
    by rewrite (proj2 (weight_check_in01 _) Hw).
  - intros Hv. by rewrite bool_decide_eq_true_2.
  - intros Hv Hs. rewrite bool_decide_eq_false_2 by done.
    by rewrite bool_decide_eq_true_2.
Qed.

Lemma Build_of_built_builder_witness :
  Build (Or (If (If {| output := {| rule.Variable_ := "FanSpeed";
                                    rule.Set_ := "High";
                                    rule.Negated := false |};
                       op := operators.AND; conds := []; weight := 1 |}
                   "Temperature" "Hot") "" ""))
  = Built {| rule.Conditions :=
               [{| rule.Variable_ := "Temperature"; rule.Set_ := "Hot";
                   rule.Negated := false |};
                {| rule.Variable_ := ""; rule.Set_ := "";
                   rule.Negated := false |}];
             rule.Output := {| rule.Variable_ := "FanSpeed";
                               rule.Set_ := "High";
                               rule.Negated := false |};
             rule.Weight := 1;
             rule.Operator := operators.OR |}.
Proof.
  destruct (Build_of_built_builder
              (Or (If (If {| output := {| rule.Variable_ := "FanSpeed";
                                          rule.Set_ := "High";
                                          rule.Negated := false |};
                             op := operators.AND; conds := [];
                             weight := 1 |}
                         "Temperature" "Hot") "" "")))
    as (_ & Hbuild & _).
  - apply built_Or, built_If, built_If.
    by apply (built_NewRuleBuilder "FanSpeed" "High" []).
  - apply Hbuild; discriminate.
Defined.

End builder_more.

(** ** Rules in index form *)

Module fis_more.
Import fis.

Lemma wrap_id z : int64 z → wrap z = z.
Proof.
  unfold int64, wrap. intros Hz.
  rewrite Z.mod_small by lia. lia.
Qed.

Lemma wrap_min_pred : wrap (wrap (- - 2 ^ 63) - 1) = (2 ^ 63 - 1)%Z.
Proof. reflexivity. Qed.

Lemma wrap_min_less : wrap (- 2 ^ 63 - 1) = (2 ^ 63 - 1)%Z.
Proof. reflexivity. Qed.

Lemma index_Some {A} (s : list A) i :
  (0 ≤ i < Z.of_nat (length s))%Z → is_Some (index s i).
Proof.
  intros Hi. unfold index. rewrite bool_decide_eq_true_2 by lia.
  apply lookup_lt_is_Some. lia.
Qed.

Lemma index_elem_of {A} (s : list A) i x :
  index s i = Some x → x ∈ s ∧ (0 ≤ i < Z.of_nat (length s))%Z.
Proof.
  unfold index. case_bool_decide; [|done]. intros Hx. split.
  - by eapply list_elem_of_lookup_2.
  - apply lookup_lt_Some in Hx. lia.
Qed.

Lemma index_None {A} (s : list A) i :
  index s i = None ↔ (i < 0 ∨ Z.of_nat (length s) ≤ i)%Z.
Proof.
  unfold index. case_bool_decide.
  - rewrite lookup_ge_None. lia.
  - split; [lia|done].
Qed.

(** The index used for an antecedent is never negative. *)
Lemma setIdx_cases idx :
  int64 idx → idx ≠ 0%Z →
  let setIdx :=
    if bool_decide (idx < 0)%Z then wrap (wrap (- idx) - 1)
    else wrap (idx - 1) in
  (0 ≤ setIdx < 2 ^ 63)%Z
  ∧ (idx = (- 2 ^ 63)%Z → setIdx = (2 ^ 63 - 1)%Z).
Proof.
  intros Hidx Hne. cbv zeta. unfold int64 in Hidx. case_bool_decide.
  - destruct (decide (idx = (- 2 ^ 63)%Z)) as [->|Hmin].
    + rewrite wrap_min_pred. lia.
    + rewrite (wrap_id (- idx)) by (unfold int64; lia).
      rewrite wrap_id by (unfold int64; lia). lia.
  - rewrite wrap_id by (unfold int64; lia). lia.
Qed.

Lemma add_conditions_spec inputs antecedents : ∀ i r,
  Forall int64 antecedents → go_sections inputs → (0 ≤ i)%Z →
  match add_conditions inputs i antecedents r with
  | Panics => False
  | Returns (Refused _) => True
  | Returns (Built r') =>
      rule.Output r' = rule.Output r
      ∧ rule.Weight r' = rule.Weight r
      ∧ rule.Operator r' = rule.Operator r
      ∧ ∃ new, rule.Conditions r' = rule.Conditions r ++ new
               ∧ Forall (names_mf inputs) new
               ∧ length new = length (filter (λ idx, idx ≠ 0%Z) antecedents)
               ∧ rule.Negated <$> new
                 = (λ idx, bool_decide (idx < 0)%Z)
                   <$> filter (λ idx, idx ≠ 0%Z) antecedents
  end.
Proof.
  intros i r Hants [Hlen Hmfs]. revert i r.
  induction Hants as [|idx antecedents Hidx _ IH]; intros i r Hi;
    cbn [add_conditions].
  { do 3 (split; [done|]). exists []. by rewrite app_nil_r. }
  case_bool_decide as Hzero.
  { rewrite filter_cons_False by (intros ?; done).
    apply IH. lia. }
  rewrite filter_cons_True by done.
  case_bool_decide as Hpos; [done|].
  destruct (index_Some inputs i ltac:(lia)) as [input Hinput].
  rewrite Hinput. cbv zeta.
  destruct (setIdx_cases idx Hidx Hzero) as [HsetIdx _]. cbv zeta in HsetIdx.
  revert HsetIdx.
  generalize (if bool_decide (idx < 0)%Z then wrap (wrap (- idx) - 1)
              else wrap (idx - 1)).
  intros setIdx HsetIdx.
  destruct (bool_decide (Z.of_nat (length (MFs input)) ≤ setIdx)%Z) eqn:Hmf;
    [done|]. apply bool_decide_eq_false in Hmf.
  destruct (index_Some (MFs input) setIdx ltac:(lia)) as [mf Hmf'].
  rewrite Hmf'.
  match goal with
  | |- context [add_conditions inputs (i + 1) antecedents ?r'] =>
      specialize (IH (i + 1)%Z r' ltac:(lia))
  end.
  destruct (add_conditions _ _ _ _) as [[r'|e]|]; [|done..].
  destruct IH as (Ho & Hw & Hop & new & Hnew & Hnames & Hcount & Hneg).
  cbn [rule.Output rule.Weight rule.Operator rule.Conditions] in *.
  do 3 (split; [done|]).
  eexists (_ :: new). split; [by rewrite Hnew, <- app_assoc|].
  split; [|split].
  - constructor; [|done]. exists input, mf.
    split; [by apply (index_elem_of inputs i)|].
    split; [by eapply index_elem_of|]. done.
  - cbn [length]. by rewrite Hcount.
  - cbn [fmap list_fmap rule.Negated]. by rewrite <- Hneg.
Qed.

Lemma first_consequent_spec consequents : ∀ i,
  first_consequent i consequents
  = match list_find (λ idx, idx ≠ 0%Z) consequents with
    | Some (k, idx) => ((i + Z.of_nat k)%Z, wrap (idx - 1))
    | None => (0%Z, 0%Z)
    end.
Proof.
  induction consequents as [|idx consequents IH]; intros i;
    cbn [first_consequent list_find]; [done|].
  destruct (decide (idx ≠ 0%Z)) as [Hne|Hne].
  - rewrite bool_decide_eq_true_2 by done. f_equal. lia.
  - rewrite bool_decide_eq_false_2 by done. rewrite IH.
    destruct (list_find _ consequents) as [[k idx']|]; [|done].
    cbn. f_equal. lia.
Qed.

(** [mapDefuzzMethod] always returns a name that
    [SetDefuzzificationMethod] accepts.  The names "centroid" and "mom"
    are kept, "bisector" becomes the centroid, "som" and "lom" become
    the first of maximum, and every other name, the engine's own "fom"
    included, becomes the mean of maximum. *)
Theorem mapDefuzzMethod_accepted (fisMethod : string)
    (engine : inference.MamdaniInferenceSystem) :
  (inference.SetDefuzzificationMethod engine (mapDefuzzMethod fisMethod)).2
  = None
  ∧ (mapDefuzzMethod fisMethod = inference.DefuzzCOG
     ↔ fisMethod = "centroid" ∨ fisMethod = "bisector")
  ∧ (mapDefuzzMethod fisMethod = inference.DefuzzFOM
     ↔ fisMethod = "som" ∨ fisMethod = "lom")
  ∧ (mapDefuzzMethod fisMethod = inference.DefuzzMOM
     ↔ ¬ (fisMethod = "centroid" ∨ fisMethod = "bisector"
          ∨ fisMethod = "som" ∨ fisMethod = "lom"))
  ∧ (mapDefuzzMethod fisMethod = fisMethod
     ↔ fisMethod = "centroid" ∨ fisMethod = "mom").
Proof.
  unfold mapDefuzzMethod, inference.SetDefuzzificationMethod.
  unfold inference.DefuzzCOG, inference.DefuzzMOM, inference.DefuzzFOM,
    inference.DefuzzLOM, inference.DefuzzSOM.
  repeat case_bool_decide; cbn [snd];
    repeat split; intros; try reflexivity; try discriminate;
    intuition congruence.
Qed.

Lemma convertRule_panics (spec : RuleSpec)
    (inputs outputs : list VariableSection) :
  Forall int64 (Consequents spec) → Forall int64 (Antecedents spec) →
  go_sections inputs → go_sections outputs →
  convertRule spec inputs outputs = Panics
  ↔ ∃ k idx,
      list_find (λ idx, idx ≠ 0%Z) (Consequents spec) = Some (k, idx)
      ∧ (k < length outputs)%nat
      ∧ (- 2 ^ 63 < idx < 0)%Z.
Proof.
  intros Hcons Hants Hin [Hlen Hout]. unfold convertRule.
  case_bool_decide as Hempty.
  { split; [done|]. intros (k & idx & Hfind & _).
    destruct (Consequents spec); [done|discriminate]. }
  rewrite first_consequent_spec.
  destruct (list_find _ (Consequents spec)) as [[k idx]|] eqn:Hfind.
  - apply list_find_Some in Hfind as Hk. destruct Hk as (Hk & Hne & _).
    assert (int64 idx) as Hidx
      by (eapply (proj1 (Forall_forall _ _) Hcons);
          by eapply list_elem_of_lookup_2).
    rewrite Z.add_0_l.
    destruct (index outputs (Z.of_nat k)) as [outputSection|] eqn:Hsec.
    + apply index_elem_of in Hsec as Hsec'. destruct Hsec' as [Helem Hk'].
      pose proof (proj1 (Forall_forall _ _) Hout _ Helem) as Hmfs.
      cbv beta in Hmfs. unfold int64 in Hidx.
      case_bool_decide as Hge.
      * split; [done|]. intros (k' & idx' & [= <- <-] & _ & Hneg).
        rewrite wrap_id in Hge by (unfold int64; lia). lia.
      * destruct (index (MFs outputSection) (wrap (idx - 1))) as [mf|]
          eqn:Hmf.
        -- apply index_elem_of in Hmf as [_ Hpos].
           split; [|intros (k' & idx' & [= <- <-] & _ & Hneg);
                    rewrite wrap_id in Hpos by (unfold int64; lia); lia].
           destruct (rule.NewRule _ _) as [r|e]; [|done].
           pose proof (add_conditions_spec inputs (Antecedents spec) 0 r
                         Hants Hin ltac:(lia)) as Hadd.
           destruct (add_conditions _ _ _ _) as [[r'|e]|]; [|done..].
           by destruct (rule.SetWeight r' (Weight spec)) as [? [?|]].
        -- split; [intros _|done]. exists k, idx. split; [done|].
           split; [lia|].
           apply index_None in Hmf as [Hmf|Hmf]; [|lia].
           destruct (decide (idx = (- 2 ^ 63)%Z)) as [->|Hmin].
           ++ rewrite wrap_min_less in Hmf. lia.
           ++ rewrite wrap_id in Hmf by (unfold int64; lia). lia.
    + split; [done|]. intros (k' & idx' & [= <- <-] & Hlt & _).
      apply index_None in Hsec. lia.
  - split; [|by intros (? & ? & ? & _)].
    destruct (index outputs 0) as [outputSection|]; [|done].
    case_bool_decide as Hge; [done|].
    destruct (index_Some (MFs outputSection) 0 ltac:(lia)) as [mf ->].
    destruct (rule.NewRule _ _) as [r|e]; [|done].
    pose proof (add_conditions_spec inputs (Antecedents spec) 0 r
                  Hants Hin ltac:(lia)) as Hadd.
    destruct (add_conditions _ _ _ _) as [[r'|e]|]; [|done..].
    by destruct (rule.SetWeight r' (Weight spec)) as [? [?|]].
Qed.

(** [convertRule] stops the program exactly when the first non-zero
    consequent is negative (and not the least [int]) and stands at the
    position of an output section: the index of the membership function
    is then negative.  The antecedents never stop it. *)
Theorem convertRule_panics_iff (spec : RuleSpec)
    (inputs outputs : list VariableSection) :
  Forall int64 (Consequents spec) → Forall int64 (Antecedents spec) →
  go_sections inputs → go_sections outputs →
  convertRule spec inputs outputs = Panics
  ↔ ∃ k idx,
      list_find (λ idx, idx ≠ 0%Z) (Consequents spec) = Some (k, idx)
      ∧ (k < length outputs)%nat
      ∧ (- 2 ^ 63 < idx < 0)%Z.
Proof. apply convertRule_panics. Qed.

(** A rule returned by [convertRule] carries the weight of the
    specification, in [0,1], and the operator of its connection; its
    output names a membership function of an output section and is not
    negated; it has one condition per non-zero antecedent, in order,
    negated when the antecedent is negative, each naming a membership
    function of an input section.  It may have no condition at all. *)
Theorem convertRule_returns (spec : RuleSpec)
    (inputs outputs : list VariableSection) (r : rule.Rule) :
  Forall int64 (Antecedents spec) → go_sections inputs →
  convertRule spec inputs outputs = Returns (Built r) →
  rule.Weight r = Weight spec ∧ in01 (Weight spec)
  ∧ rule.Operator r
    = (if bool_decide (Connection spec = 2)%Z then operators.OR
       else operators.AND)
  ∧ names_mf outputs (rule.Output r)
  ∧ rule.Negated (rule.Output r) = false
  ∧ Forall (names_mf inputs) (rule.Conditions r)
  ∧ rule.Negated <$> rule.Conditions r
    = (λ idx, bool_decide (idx < 0)%Z)
      <$> filter (λ idx, idx ≠ 0%Z) (Antecedents spec).
Proof.
  intros Hants Hin. unfold convertRule.
  case_bool_decide; [done|].
  destruct (first_consequent 0 (Consequents spec)) as [i setIdx].
  destruct (index outputs i) as [outputSection|] eqn:Hsec; [|done].
  case_bool_decide; [done|].
  destruct (index (MFs outputSection) setIdx) as [mf|] eqn:Hmf; [|done].
  destruct (rule.NewRule _ _) as [r0|e] eqn:Hnew; [|done].
  pose proof (add_conditions_spec inputs (Antecedents spec) 0 r0
                Hants Hin ltac:(lia)) as Hadd.
  destruct (add_conditions _ _ _ _) as [[r'|e]|]; [|done..].
  destruct Hadd as (Ho & Hw & Hop & new & Hnew' & Hnames & _ & Hneg).
  unfold rule.SetWeight.
  destruct ((Weight spec <? 0) || (Weight spec >? 1)) eqn:Hweight; [done|].
  intros [= <-]. cbn [rule.Weight rule.Operator rule.Output
                      rule.Conditions].
  unfold rule.NewRule in Hnew.
  repeat (case_bool_decide; [done|]). cbn [rule.Negated] in Hnew.
  injection Hnew as <-.
  cbn [rule.Output rule.Operator rule.Conditions default] in *.
  rewrite app_nil_l in Hnew'. subst new.
  split; [done|]. split; [by apply builder_more.weight_check_in01|].
  split; [by rewrite Hop|]. rewrite Ho.
  split; [|done].
  exists outputSection, mf.
  split; [by apply (index_elem_of outputs i)|].
  split; [by eapply index_elem_of|]. done.
Qed.

Lemma convertRule_panics_iff_witness :
  convertRule {| Antecedents := [1%Z]; Consequents := [0%Z; (-1)%Z];
                 Weight := 1; Connection := 1 |}
    [{| Name := "Temperature"; Range := (float64 0, float64 50);
        NumMFs := 1;
        MFs := [{| MF_Name := "Hot"; MF_Type := "trimf";
                   Params := [float64 25; float64 50; float64 50] |}] |}]
    [{| Name := "FanSpeed"; Range := (float64 0, float64 100);
        NumMFs := 0; MFs := [] |};
     {| Name := "Valve"; Range := (float64 0, float64 1);
        NumMFs := 0; MFs := [] |}]
  = Panics.
Proof.
  apply convertRule_panics_iff.
  - repeat constructor; by_compute.
  - repeat constructor; by_compute.
  - split; [cbn; lia|]. repeat constructor; cbn; lia.
  - split; [cbn; lia|]. repeat constructor; cbn; lia.
  - exists 1%nat, (-1)%Z. split; [reflexivity|]. split; [cbn; lia|lia].
Defined.

Lemma convertRule_returns_witness :
  match convertRule (Build_RuleSpec [(-2)%Z] [2%Z] 1 2)
          (Inputs (example.model [2%Z]))
          (Outputs (example.model [2%Z])) with
  | Returns (Built r) =>
      rule.Operator r = operators.OR
      ∧ rule.Negated <$> rule.Conditions r = [true]
  | _ => False
  end.
Proof.
  assert (∃ r,
            convertRule (Build_RuleSpec [(-2)%Z] [2%Z] 1 2)
              (Inputs (example.model [2%Z]))
              (Outputs (example.model [2%Z])) = Returns (Built r))
    as [r E] by (eexists; vm_compute; reflexivity).
  rewrite E.
  destruct (convertRule_returns (Build_RuleSpec [(-2)%Z] [2%Z] 1 2)
              (Inputs (example.model [2%Z]))
              (Outputs (example.model [2%Z])) r)
    as (_ & _ & Hop & _ & _ & _ & Hneg).
  - repeat constructor; by_compute.
  - split; [cbn; lia|]. repeat constructor; cbn; lia.
  - exact E.
  - split; [exact Hop | exact Hneg].
Defined.

End fis_more.

(** ** Validation of the inputs *)

Module validation_more.
Import inference.




End validation_more.

(** ** The converter of a model *)

Module converter_more.
Import fis.

Section converter.
Context (Exp : Qc → Qc) (DefaultResolution : Z).

Lemma add_sets_spec mfs : ∀ i v v',
  add_sets Exp i mfs v = Converted v' →
  (built_variable v → built_variable v')
  ∧ variable.Name v' = variable.Name v
  ∧ (∀ name, is_Some (variable.Sets v' !! name)
             ↔ is_Some (variable.Sets v !! name) ∨ name ∈ MF_Name <$> mfs)
  ∧ NoDup (MF_Name <$> mfs)
  ∧ (∀ name, name ∈ MF_Name <$> mfs → variable.Sets v !! name = None).
Proof.
  induction mfs as [|mfSpec mfs IH]; intros i v v'; cbn [add_sets].
  - intros [= <-]. do 2 (split; [done|]). split; [|split; [constructor|]].
    + intros name. cbn. rewrite elem_of_nil. tauto.
    + intros name Hin. by apply elem_of_nil in Hin.
  - destruct (convertMembershipFunction Exp mfSpec) as [mf|e]; [|done].
    destruct (variable_more.AddSet_cases v
                (set.NewFuzzySet (MF_Name mfSpec) (Some mf)))
      as [(fuzzySet & Harg & Hne & Hfresh & Heq)|[e Heq]];
      [|by rewrite Heq].
    assert (set.Name fuzzySet = MF_Name mfSpec) as Hname.
    { unfold set.NewFuzzySet in Harg. case_bool_decide; [done|].
      by injection Harg as <-. }
    pose proof (built_AddSet v
                  (set.NewFuzzySet (MF_Name mfSpec) (Some mf))) as Hbuilt.
    rewrite Heq in Hbuilt |- *. cbn [fst] in Hbuilt. rewrite Hname in *.
    intros Hrest.
    destruct (IH _ _ _ Hrest) as (Hb & Hn & Hs & Hnd & Hfr).
    cbn [variable.Name variable.Sets] in *.
    split; [by intros ?; apply Hb, Hbuilt|]. split; [done|].
    cbn [fmap list_fmap]. split; [|split].
    + intros name. rewrite Hs, elem_of_cons.
      destruct (decide (name = MF_Name mfSpec)) as [->|Hneq].
      * rewrite lookup_insert_eq. split; [intros _|by intros _; left].
        right. by left.
      * rewrite lookup_insert_ne by done. tauto.
    + apply NoDup_cons. split; [|done]. intros Hin.
      specialize (Hfr _ Hin). by rewrite lookup_insert_eq in Hfr.
    + intros name [->|Hin]%elem_of_cons; [done|].
      specialize (Hfr _ Hin).
      destruct (decide (name = MF_Name mfSpec)) as [->|Hneq].
      * by rewrite lookup_insert_eq in Hfr.
      * by rewrite lookup_insert_ne in Hfr.
Qed.

Lemma convertVariable_spec spec v :
  convertVariable Exp spec = Converted v →
  built_variable v
  ∧ variable.Name v = Name spec
  ∧ (∀ name, is_Some (variable.Sets v !! name)
             ↔ name ∈ MF_Name <$> MFs spec)
  ∧ NoDup (MF_Name <$> MFs spec).
Proof.
  unfold convertVariable.
  destruct (variable.NewFuzzyVariable _ _ _) as [v0|e] eqn:Hnew; [|done].
  intros Hsets.
  destruct (add_sets_spec _ _ _ _ Hsets) as (Hb & Hn & Hs & Hnd & _).
  pose proof (built_NewFuzzyVariable _ _ _ _ Hnew) as Hv0.
  unfold variable.NewFuzzyVariable in Hnew.
  case_bool_decide; [done|].
  destruct (_ >=? _); [done|]. injection Hnew as <-.
  cbn [variable.Name variable.Sets] in *.
  split; [by apply Hb|]. split; [done|]. split; [|done].
  intros name. rewrite Hs, lookup_empty. split; [|by right].
  intros [[]|]; done.
Qed.

Lemma add_inputs_spec specs : ∀ i engine engine',
  add_inputs Exp i specs engine = Converted engine' →
  (configured DefaultResolution engine →
   configured DefaultResolution engine')
  ∧ inference.OutputVariables engine' = inference.OutputVariables engine
  ∧ inference.Rules engine' = inference.Rules engine
  ∧ inference.Resolution engine' = inference.Resolution engine
  ∧ inference.DefuzzMethod engine' = inference.DefuzzMethod engine
  ∧ (∀ name, is_Some (inference.InputVariables engine' !! name)
             ↔ is_Some (inference.InputVariables engine !! name)
               ∨ name ∈ Name <$> specs)
  ∧ NoDup (Name <$> specs)
  ∧ (∀ name, name ∈ Name <$> specs →
             inference.InputVariables engine !! name = None)
  ∧ (∀ name v, inference.InputVariables engine' !! name = Some v →
               inference.InputVariables engine !! name = Some v
               ∨ built_variable v).
Proof.
  induction specs as [|spec specs IH]; intros i engine engine';
    cbn [add_inputs].
  - intros [= <-]. do 5 (split; [done|]).
    split; [|split; [constructor|split]].
    + intros name. cbn. rewrite elem_of_nil. tauto.
    + intros name Hin. by apply elem_of_nil in Hin.
    + intros name v Hv. by left.
  - destruct (convertVariable Exp spec) as [v|e] eqn:Hconv; [|done].
    destruct (convertVariable_spec _ _ Hconv) as (Hbv & Hname & _).
    pose proof (configured_AddInputVariable DefaultResolution engine v)
      as Hconf.
    unfold inference.AddInputVariable in *. rewrite Hname in *.
    destruct (inference.InputVariables engine !! Name spec) eqn:Hfresh;
      [done|].
    cbn [fst] in Hconf. intros Hrest.
    destruct (IH _ _ _ Hrest)
      as (Hc & Ho & Hr & Hres & Hm & Hdom & Hnd & Hfr & Hbuilt).
    cbn [inference.InputVariables inference.OutputVariables
           inference.Rules inference.Resolution inference.DefuzzMethod]
      in *.
    split; [by intros ?; apply Hc, Hconf|]. do 4 (split; [done|]).
    cbn [fmap list_fmap]. split; [|split; [|split]].
    + intros name. rewrite Hdom, elem_of_cons.
      destruct (decide (name = Name spec)) as [->|Hneq].
      * rewrite lookup_insert_eq. split; [intros _|by intros _; left].
        right. by left.
      * rewrite lookup_insert_ne by done. tauto.
    + apply NoDup_cons. split; [|done]. intros Hin.
      specialize (Hfr _ Hin). by rewrite lookup_insert_eq in Hfr.
    + intros name [->|Hin]%elem_of_cons; [done|].
      specialize (Hfr _ Hin).
      destruct (decide (name = Name spec)) as [->|Hneq].
      * by rewrite lookup_insert_eq in Hfr.
      * by rewrite lookup_insert_ne in Hfr.
    + intros name w Hw. destruct (Hbuilt _ _ Hw) as [Hold|?]; [|by right].
      destruct (decide (name = Name spec)) as [->|Hneq].
      * rewrite lookup_insert_eq in Hold. injection Hold as <-. by right.
      * rewrite lookup_insert_ne in Hold by done. by left.
Qed.

Lemma add_outputs_spec specs : ∀ i engine engine',
  add_outputs Exp i specs engine = Converted engine' →
  (configured DefaultResolution engine →
   configured DefaultResolution engine')
  ∧ inference.InputVariables engine' = inference.InputVariables engine
  ∧ inference.Rules engine' = inference.Rules engine
  ∧ inference.Resolution engine' = inference.Resolution engine
  ∧ inference.DefuzzMethod engine' = inference.DefuzzMethod engine
  ∧ (∀ name, is_Some (inference.OutputVariables engine' !! name)
             ↔ is_Some (inference.OutputVariables engine !! name)
               ∨ name ∈ Name <$> specs)
  ∧ NoDup (Name <$> specs)
  ∧ (∀ name, name ∈ Name <$> specs →
             inference.OutputVariables engine !! name = None)
  ∧ (∀ name v, inference.OutputVariables engine' !! name = Some v →
               inference.OutputVariables engine !! name = Some v
               ∨ built_variable v).
Proof.
  induction specs as [|spec specs IH]; intros i engine engine';
    cbn [add_outputs].
  - intros [= <-]. do 5 (split; [done|]).
    split; [|split; [constructor|split]].
    + intros name. cbn. rewrite elem_of_nil. tauto.
    + intros name Hin. by apply elem_of_nil in Hin.
    + intros name v Hv. by left.
  - destruct (convertVariable Exp spec) as [v|e] eqn:Hconv; [|done].
    destruct (convertVariable_spec _ _ Hconv) as (Hbv & Hname & _).
    pose proof (configured_AddOutputVariable DefaultResolution engine v)
      as Hconf.
    unfold inference.AddOutputVariable in *. rewrite Hname in *.
    destruct (inference.OutputVariables engine !! Name spec) eqn:Hfresh;
      [done|].
    cbn [fst] in Hconf. intros Hrest.
    destruct (IH _ _ _ Hrest)
      as (Hc & Ho & Hr & Hres & Hm & Hdom & Hnd & Hfr & Hbuilt).
    cbn [inference.InputVariables inference.OutputVariables
           inference.Rules inference.Resolution inference.DefuzzMethod]
      in *.
    split; [by intros ?; apply Hc, Hconf|]. do 4 (split; [done|]).
    cbn [fmap list_fmap]. split; [|split; [|split]].
    + intros name. rewrite Hdom, elem_of_cons.
      destruct (decide (name = Name spec)) as [->|Hneq].
      * rewrite lookup_insert_eq. split; [intros _|by intros _; left].
        right. by left.
      * rewrite lookup_insert_ne by done. tauto.
    + apply NoDup_cons. split; [|done]. intros Hin.
      specialize (Hfr _ Hin). by rewrite lookup_insert_eq in Hfr.
    + intros name [->|Hin]%elem_of_cons; [done|].
      specialize (Hfr _ Hin).
      destruct (decide (name = Name spec)) as [->|Hneq].
      * by rewrite lookup_insert_eq in Hfr.
      * by rewrite lookup_insert_ne in Hfr.
    + intros name w Hw. destruct (Hbuilt _ _ Hw) as [Hold|?]; [|by right].
      destruct (decide (name = Name spec)) as [->|Hneq].
      * rewrite lookup_insert_eq in Hold. injection Hold as <-. by right.
      * rewrite lookup_insert_ne in Hold by done. by left.
Qed.

End converter.

Lemma add_conditions_zero inputs antecedents : ∀ i r,
  Forall (λ idx, idx = 0%Z) antecedents →
  add_conditions inputs i antecedents r = Returns (Built r).
Proof.
  induction antecedents as [|idx antecedents IH]; intros i r Hall;
    [done|].
  inversion Hall as [|?? -> Hrest]; subst. cbn [add_conditions].
  rewrite bool_decide_eq_true_2 by done. by apply IH.
Qed.

Lemma convertRule_zero spec inputs outputs r :
  Forall (λ idx, idx = 0%Z) (Antecedents spec) →
  convertRule spec inputs outputs = Returns (Built r) →
  rule.Conditions r = [].
Proof.
  intros Hzero. unfold convertRule. case_bool_decide; [done|].
  destruct (first_consequent 0 (Consequents spec)) as [i setIdx].
  destruct (index outputs i) as [outputSection|]; [|done].
  case_bool_decide; [done|].
  destruct (index (MFs outputSection) setIdx) as [mf|]; [|done].
  destruct (rule.NewRule _ _) as [r0|e] eqn:Hnew; [|done].
  rewrite add_conditions_zero by done.
  unfold rule.SetWeight. destruct (_ || _); [done|].
  intros [= <-]. cbn [rule.Conditions].
  unfold rule.NewRule in Hnew. repeat (case_bool_decide; [done|]).
  cbn [rule.Negated] in Hnew. by injection Hnew as <-.
Qed.

Section rules.
Context (DefaultResolution : Z).
Context (inputs outputs : list VariableSection).

Lemma add_rules_spec specs : ∀ i engine engine',
  add_rules i specs inputs outputs engine = Returns (Converted engine') →
  (configured DefaultResolution engine →
   configured DefaultResolution engine')
  ∧ inference.InputVariables engine' = inference.InputVariables engine
  ∧ inference.OutputVariables engine' = inference.OutputVariables engine
  ∧ inference.Resolution engine' = inference.Resolution engine
  ∧ inference.DefuzzMethod engine' = inference.DefuzzMethod engine
  ∧ length (inference.Rules engine')
    = (length (inference.Rules engine) + length specs)%nat
  ∧ Forall (λ spec, ¬ Forall (λ idx, idx = 0%Z) (Antecedents spec)) specs.
Proof.
  induction specs as [|spec specs IH]; intros i engine engine';
    cbn [add_rules].
  - intros [= <-]. do 5 (split; [done|]). split; [cbn; lia|constructor].
  - destruct (convertRule spec inputs outputs) as [[r|e]|] eqn:Hconv;
      [|done..].
    pose proof (configured_AddRule DefaultResolution engine r) as Hconf.
    destruct (registration.AddRule_cases engine r)
      as [[Hok Heq]|[Hbad [e Heq]]]; rewrite Heq in *; [|done].
    cbn [fst] in Hconf. intros Hrest.
    destruct (IH _ _ _ Hrest) as (Hc & Hi & Ho & Hres & Hm & Hlen & Hnz).
    cbn [inference.InputVariables inference.OutputVariables
           inference.Rules inference.Resolution inference.DefuzzMethod]
      in *.
    split; [by intros ?; apply Hc, Hconf|]. do 4 (split; [done|]).
    split.
    + rewrite Hlen, length_app. cbn. lia.
    + constructor; [|done]. intros Hzero.
      destruct Hok as [Hne _]. apply Hne.
      by eapply convertRule_zero.
Qed.

Lemma add_rules_panics specs : ∀ i engine,
  add_rules i specs inputs outputs engine = Panics →
  ∃ spec, spec ∈ specs ∧ convertRule spec inputs outputs = Panics.
Proof.
  induction specs as [|spec specs IH]; intros i engine; cbn [add_rules];
    [done|].
  destruct (convertRule spec inputs outputs) as [[r|e]|] eqn:Hconv;
    [|done|].
  - destruct (inference.AddRule engine r) as [engine1 [e|]]; [done|].
    intros (spec' & Hin & Hp)%IH. exists spec'. split; [by right|done].
  - intros _. exists spec. split; [left|done].
Qed.

End rules.

(** An engine returned by [ConvertToInferenceSystem] is one that the
    registration functions make, with the default resolution and the
    method that [mapDefuzzMethod] gives.  Its input and output variables
    are those of the sections, by name, each made by [NewFuzzyVariable]
    and [AddSet]; it has one rule per rule of the model.  The conversion
    returns an engine only when the input sections have distinct names,
    the output sections have distinct names, and every rule has an
    antecedent other than 0. *)
Theorem ConvertToInferenceSystem_returns (Exp : Qc → Qc)
    (DefaultResolution : Z) (model : FISModel)
    (engine : inference.MamdaniInferenceSystem) :
  ConvertToInferenceSystem Exp DefaultResolution model
  = Returns (Converted engine) →
  configured DefaultResolution engine
  ∧ inference.Resolution engine = DefaultResolution
  ∧ inference.DefuzzMethod engine
    = mapDefuzzMethod (DefuzzMethod (System model))
  ∧ (∀ name, is_Some (inference.InputVariables engine !! name)
             ↔ name ∈ Name <$> Inputs model)
  ∧ (∀ name, is_Some (inference.OutputVariables engine !! name)
             ↔ name ∈ Name <$> Outputs model)
  ∧ (∀ name v, inference.InputVariables engine !! name = Some v
               ∨ inference.OutputVariables engine !! name = Some v →
               built_variable v)
  ∧ length (inference.Rules engine) = length (Rules model)
  ∧ NoDup (Name <$> Inputs model)
  ∧ NoDup (Name <$> Outputs model)
  ∧ Forall (λ spec, ¬ Forall (λ idx, idx = 0%Z) (Antecedents spec))
      (Rules model).
Proof.
  unfold ConvertToInferenceSystem. case_bool_decide; [done|]. cbv zeta.
  pose proof (configured_SetDefuzzificationMethod DefaultResolution _
                (mapDefuzzMethod (DefuzzMethod (System model)))
                (configured_New DefaultResolution)) as Hconf.
  unfold inference.SetDefuzzificationMethod in *.
  case_bool_decide; [|done]. cbn [fst] in Hconf.
  destruct (add_inputs Exp 0 (Inputs model) _) as [e1|err] eqn:Hin;
    [|done].
  destruct (add_inputs_spec Exp DefaultResolution _ _ _ _ Hin)
    as (Hc1 & Ho1 & Hr1 & Hres1 & Hm1 & Hdom1 & Hnd1 & _ & Hb1).
  destruct (add_outputs Exp 0 (Outputs model) e1) as [e2|err] eqn:Hout;
    [|done].
  destruct (add_outputs_spec Exp DefaultResolution _ _ _ _ Hout)
    as (Hc2 & Hi2 & Hr2 & Hres2 & Hm2 & Hdom2 & Hnd2 & _ & Hb2).
  intros Hrules.
  destruct (add_rules_spec DefaultResolution _ _ _ _ _ _ Hrules)
    as (Hc3 & Hi3 & Ho3 & Hres3 & Hm3 & Hlen & Hnz).
  cbn [inference.InputVariables inference.OutputVariables
         inference.Rules inference.Resolution inference.DefuzzMethod
         inference.NewMamdaniInferenceSystem] in *.
  split; [by apply Hc3, Hc2, Hc1|].
  split; [by rewrite Hres3, Hres2, Hres1|].
  split; [by rewrite Hm3, Hm2, Hm1|].
  split; [|split; [|split; [|split]]].
  - intros name. rewrite Hi3, Hi2, Hdom1, lookup_empty.
    split; [intros [[]|]; done | by right].
  - intros name. rewrite Ho3, Hdom2, Ho1, lookup_empty.
    split; [intros [[]|]; done | by right].
  - intros name v [Hv|Hv].
    + rewrite Hi3, Hi2 in Hv.
      destruct (Hb1 _ _ Hv) as [Hold|?]; [|done].
      by rewrite lookup_empty in Hold.
    + rewrite Ho3 in Hv. destruct (Hb2 _ _ Hv) as [Hold|?]; [|done].
      by rewrite Ho1, lookup_empty in Hold.
  - rewrite Hlen, Hr2, Hr1. cbn. lia.
  - done.
Qed.

(** [ConvertToInferenceSystem] stops the program only in [convertRule]:
    on a rule whose first non-zero consequent is negative and stands at
    the position of an output section. *)
Theorem ConvertToInferenceSystem_panics (Exp : Qc → Qc)
    (DefaultResolution : Z) (model : FISModel) :
  Forall (λ spec, Forall int64 (Consequents spec)
                  ∧ Forall int64 (Antecedents spec)) (Rules model) →
  go_sections (Inputs model) → go_sections (Outputs model) →
  ConvertToInferenceSystem Exp DefaultResolution model = Panics →
  ∃ spec k idx,
    spec ∈ Rules model
    ∧ list_find (λ idx, idx ≠ 0%Z) (Consequents spec) = Some (k, idx)
    ∧ (k < length (Outputs model))%nat
    ∧ (idx < 0)%Z.
Proof.
  intros Hints Hin Hout. unfold ConvertToInferenceSystem.
  case_bool_decide; [done|]. cbv zeta.
  destruct (inference.SetDefuzzificationMethod _ _) as [e0 [err|]];
    [done|].
  destruct (add_inputs Exp 0 (Inputs model) e0) as [e1|err]; [|done].
  destruct (add_outputs Exp 0 (Outputs model) e1) as [e2|err]; [|done].
  intros (spec & Hspec & Hp)%add_rules_panics.
  destruct (proj1 (Forall_forall _ _) Hints _ Hspec) as [Hc Ha].
  apply fis_more.convertRule_panics in Hp as (k & idx & Hfind & Hk & Hidx);
    [|done..].
  exists spec, k, idx. do 3 (split; [done|]). lia.
Qed.

Lemma ConvertToInferenceSystem_returns_witness :
  ∃ engine,
    ConvertToInferenceSystem (λ _, 1) 1000 (example.model [2%Z])
    = Returns (Converted engine)
    ∧ configured 1000 engine
    ∧ inference.DefuzzMethod engine = inference.DefuzzMOM.
Proof.
  assert (∃ engine,
            ConvertToInferenceSystem (λ _, 1) 1000 (example.model [2%Z])
            = Returns (Converted engine)) as [engine E]
    by (eexists; vm_compute; reflexivity).
  exists engine. split; [exact E|].
  destruct (ConvertToInferenceSystem_returns (λ _, 1) 1000
              (example.model [2%Z]) engine E) as (Hc & _ & Hm & _).
  split; [exact Hc | exact Hm].
Defined.

Lemma ConvertToInferenceSystem_panics_witness :
  ∃ spec k idx,
    spec ∈ Rules (example.model [(-2)%Z])
    ∧ list_find (λ idx, idx ≠ 0%Z) (Consequents spec) = Some (k, idx)
    ∧ (k < length (Outputs (example.model [(-2)%Z])))%nat
    ∧ (idx < 0)%Z.
Proof.
  apply (ConvertToInferenceSystem_panics (λ _, 1) 1000
           (example.model [(-2)%Z])).
  - repeat constructor; by_compute.
  - split; [cbn; lia|]. repeat constructor; cbn; lia.
  - split; [cbn; lia|]. repeat constructor; cbn; lia.
  - vm_compute. reflexivity.
Defined.

End converter_more.
